(** * The directory cache core of the virtual file system

    A shallow embedding of [lib/vfs/direntry.c]: the inode / entry store,
    the two path resolvers, the symlink follower, the directory iterator,
    the file handle life cycle and the class wiring.

    Pointers are identifiers into three finite maps (inodes, entries,
    superblocks); a null pointer is [None]; reading through an identifier
    that is not in its map is the outcome [Fault].  Everything the C code
    keeps in file-scope variables, in [struct vfs_class] and in
    [struct vfs_s_subclass] lives in the record [state]; the immutable
    table of subclass hooks lives in [vfs_s_subclass].

    Calls that leave the file (subclass hooks without a result that the
    core reads, the stamp functions of [gc.h], [unlink], [close],
    [vfs_print_message]) are appended to the event trace of the state.
    Hooks whose result steers the core are oracles over the state; the two
    hooks that build cache contents ([dir_load], [open_archive]) are state
    transformers. *)

From stdpp Require Import gmap strings list.
From Stdlib Require Import ZArith Lia Ascii String.
Local Open Scope string_scope.
Local Open Scope Z_scope.

(** ** Integer types of the C code *)

(** [int]: 32 bits, two's complement. *)
Definition wrap_int (z : Z) : Z := (z + 2 ^ 31) mod 2 ^ 32 - 2 ^ 31.

(** [nlink_t], [ino_t]: unsigned, 64 bits (LP64). *)
Definition wrap_u64 (z : Z) : Z := z mod 2 ^ 64.

Definition NLINK_MAX : Z := 2 ^ 64 - 1.

(** ** Constants of the host headers (Linux values) *)

Definition S_IFMT : Z := 61440.   (* 0170000 *)
Definition S_IFDIR : Z := 16384.  (* 0040000 *)
Definition S_IFLNK : Z := 40960.  (* 0120000 *)

Definition S_ISDIR (m : Z) : bool := Z.land m S_IFMT =? S_IFDIR.
Definition S_ISLNK (m : Z) : bool := Z.land m S_IFMT =? S_IFLNK.

Definition O_CREAT : Z := 64.     (* 0100 *)
Definition O_EXCL : Z := 128.     (* 0200 *)

Definition ENOENT : Z := 2.
Definition EIO : Z := 5.
Definition EAGAIN : Z := 11.
Definition EFAULT : Z := 14.
Definition EEXIST : Z := 17.
Definition ENOTDIR : Z := 20.
Definition EISDIR : Z := 21.
Definition EINVAL : Z := 22.
Definition ELOOP : Z := 40.

Definition PATH_SEP : ascii := "/"%char.

(** "== -1: do not follow links" (comment above [vfs_s_find_entry_tree]). *)
Definition LINK_NO_FOLLOW : Z := -1.

(** ** Data model *)

Abbreviation inode_id := positive.
Abbreviation entry_id := positive.
Abbreviation super_id := positive.

(** The fields of [struct stat] the core reads or writes. *)
Record stat := mk_stat {
  st_mode : Z;
  st_nlink : Z;
  st_ino : Z;
  st_dev : Z;
  st_rdev : Z;
  st_uid : Z;
  st_gid : Z;
  st_size : Z;
  st_atime : Z;
  st_mtime : Z;
  st_ctime : Z
}.

Definition stat_zero : stat := mk_stat 0 0 0 0 0 0 0 0 0 0 0.

Definition set_st_nlink (n : Z) (st : stat) : stat :=
  mk_stat (st_mode st) n (st_ino st) (st_dev st) (st_rdev st) (st_uid st)
          (st_gid st) (st_size st) (st_atime st) (st_mtime st) (st_ctime st).

Definition set_st_ino (n : Z) (st : stat) : stat :=
  mk_stat (st_mode st) (st_nlink st) n (st_dev st) (st_rdev st) (st_uid st)
          (st_gid st) (st_size st) (st_atime st) (st_mtime st) (st_ctime st).

Definition set_st_dev (n : Z) (st : stat) : stat :=
  mk_stat (st_mode st) (st_nlink st) (st_ino st) n (st_rdev st) (st_uid st)
          (st_gid st) (st_size st) (st_atime st) (st_mtime st) (st_ctime st).

(** [struct vfs_s_inode]. *)
Record vfs_s_inode := mk_inode {
  i_super : super_id;              (* ino->super *)
  i_ent : option entry_id;         (* ino->ent: the entry naming it *)
  i_subdir : list entry_id;        (* ino->subdir: GList of entries *)
  i_st : stat;                     (* ino->st *)
  i_linkname : option string;      (* ino->linkname *)
  i_localname : option string;     (* ino->localname *)
  i_timestamp : Z                  (* ino->timestamp.tv_sec *)
}.

Definition set_i_ent (o : option entry_id) (x : vfs_s_inode) : vfs_s_inode :=
  mk_inode (i_super x) o (i_subdir x) (i_st x) (i_linkname x) (i_localname x)
           (i_timestamp x).

Definition set_i_subdir (l : list entry_id) (x : vfs_s_inode) : vfs_s_inode :=
  mk_inode (i_super x) (i_ent x) l (i_st x) (i_linkname x) (i_localname x)
           (i_timestamp x).

Definition set_i_st (st : stat) (x : vfs_s_inode) : vfs_s_inode :=
  mk_inode (i_super x) (i_ent x) (i_subdir x) st (i_linkname x) (i_localname x)
           (i_timestamp x).

Definition set_i_localname (o : option string) (x : vfs_s_inode) : vfs_s_inode :=
  mk_inode (i_super x) (i_ent x) (i_subdir x) (i_st x) (i_linkname x) o
           (i_timestamp x).

Definition i_nlink (x : vfs_s_inode) : Z := st_nlink (i_st x).

Definition set_i_nlink (n : Z) (x : vfs_s_inode) : vfs_s_inode :=
  set_i_st (set_st_nlink n (i_st x)) x.

(** [struct vfs_s_entry]. *)
Record vfs_s_entry := mk_entry {
  e_dir : option inode_id;         (* ent->dir: directory we are in *)
  e_name : string;                 (* ent->name *)
  e_ino : option inode_id          (* ent->ino *)
}.

Definition set_e_dir (o : option inode_id) (y : vfs_s_entry) : vfs_s_entry :=
  mk_entry o (e_name y) (e_ino y).

(** [struct vfs_s_super]. *)
Record vfs_s_super := mk_super {
  s_name : option string;          (* super->name *)
  s_root : option inode_id;        (* super->root *)
  s_want_stale : Z;                (* super->want_stale, an int *)
  s_fd_usage : Z;                  (* super->fd_usage, an int *)
  s_ino_usage : Z                  (* super->ino_usage, an int *)
}.

Definition set_s_root (o : option inode_id) (r : vfs_s_super) : vfs_s_super :=
  mk_super (s_name r) o (s_want_stale r) (s_fd_usage r) (s_ino_usage r).

Definition set_s_want_stale (b : Z) (r : vfs_s_super) : vfs_s_super :=
  mk_super (s_name r) (s_root r) b (s_fd_usage r) (s_ino_usage r).

Definition set_s_fd_usage (n : Z) (r : vfs_s_super) : vfs_s_super :=
  mk_super (s_name r) (s_root r) (s_want_stale r) n (s_ino_usage r).

Definition set_s_ino_usage (n : Z) (r : vfs_s_super) : vfs_s_super :=
  mk_super (s_name r) (s_root r) (s_want_stale r) (s_fd_usage r) n.

(** [enum] of [fh->linear]; [LS_NOT_LINEAR] is the value 0. *)
Inductive linear_state :=
  | LS_NOT_LINEAR
  | LS_LINEAR_CLOSED
  | LS_LINEAR_OPEN
  | LS_LINEAR_PREOPEN.

(** [vfs_file_handler_t]. The handle is owned by the caller of [open]. *)
Record vfs_file_handler_t := mk_fh {
  fh_ino : inode_id;               (* fh->ino *)
  fh_pos : Z;                      (* fh->pos *)
  fh_handle : Z;                   (* fh->handle, -1 if no native descriptor *)
  fh_changed : Z;                  (* fh->changed, an int *)
  fh_linear : linear_state         (* fh->linear *)
}.

(** [struct dirhandle]. *)
Record dirhandle := mk_dirhandle {
  dh_cur : option entry_id;        (* info->cur: a node of dir->subdir, named by
                                      the entry it holds; null past the end *)
  dh_dir : inode_id                (* info->dir *)
}.

(** Calls that leave the file. *)
Inductive event :=
  | Call_init_inode (ino : inode_id)
  | Call_free_inode (ino : inode_id)
  | Call_init_entry (ent : entry_id)
  | Call_free_archive (super : super_id)
  | Call_linear_close (ino : inode_id)
  | Call_fh_open (ino : inode_id)
  | Call_fh_close (ino : inode_id)
  | Call_file_store (ino : inode_id) (path : string) (localname : option string)
  | Host_unlink (name : string)
  | Host_close (fd : Z)
  | Print_message (msg : string)
  | Stamp_create (super : super_id)
  | Stamp_remove (super : super_id).

Record state := mk_state {
  (* the heap *)
  inodes : gmap positive vfs_s_inode;
  entries : gmap positive vfs_s_entry;
  supers_heap : gmap positive vfs_s_super;
  (* file scope variables *)
  total_inodes : Z;
  total_entries : Z;
  (* me->verrno *)
  verrno : Z;
  (* MEDATA->supers, inode_counter, rdev, flush, logfile *)
  supers : list super_id;
  inode_counter : Z;
  rdev : Z;
  flush : Z;
  logfile : option string;
  (* the host: process umask, credentials, wall clock in seconds *)
  host_umask : Z;
  host_uid : Z;
  host_gid : Z;
  host_time : Z;
  (* calls that left the file, oldest first *)
  trace : list event
}.

Definition upd_inodes (f : gmap positive vfs_s_inode → gmap positive vfs_s_inode)
    (s : state) : state :=
  mk_state (f (inodes s)) (entries s) (supers_heap s) (total_inodes s)
    (total_entries s) (verrno s) (supers s) (inode_counter s) (rdev s) (flush s)
    (logfile s) (host_umask s) (host_uid s) (host_gid s) (host_time s) (trace s).

Definition upd_entries (f : gmap positive vfs_s_entry → gmap positive vfs_s_entry)
    (s : state) : state :=
  mk_state (inodes s) (f (entries s)) (supers_heap s) (total_inodes s)
    (total_entries s) (verrno s) (supers s) (inode_counter s) (rdev s) (flush s)
    (logfile s) (host_umask s) (host_uid s) (host_gid s) (host_time s) (trace s).

Definition upd_supers_heap (f : gmap positive vfs_s_super → gmap positive vfs_s_super)
    (s : state) : state :=
  mk_state (inodes s) (entries s) (f (supers_heap s)) (total_inodes s)
    (total_entries s) (verrno s) (supers s) (inode_counter s) (rdev s) (flush s)
    (logfile s) (host_umask s) (host_uid s) (host_gid s) (host_time s) (trace s).

Definition set_total_inodes (n : Z) (s : state) : state :=
  mk_state (inodes s) (entries s) (supers_heap s) n
    (total_entries s) (verrno s) (supers s) (inode_counter s) (rdev s) (flush s)
    (logfile s) (host_umask s) (host_uid s) (host_gid s) (host_time s) (trace s).

Definition set_total_entries (n : Z) (s : state) : state :=
  mk_state (inodes s) (entries s) (supers_heap s) (total_inodes s)
    n (verrno s) (supers s) (inode_counter s) (rdev s) (flush s)
    (logfile s) (host_umask s) (host_uid s) (host_gid s) (host_time s) (trace s).

Definition set_verrno (n : Z) (s : state) : state :=
  mk_state (inodes s) (entries s) (supers_heap s) (total_inodes s)
    (total_entries s) n (supers s) (inode_counter s) (rdev s) (flush s)
    (logfile s) (host_umask s) (host_uid s) (host_gid s) (host_time s) (trace s).

Definition set_supers (l : list super_id) (s : state) : state :=
  mk_state (inodes s) (entries s) (supers_heap s) (total_inodes s)
    (total_entries s) (verrno s) l (inode_counter s) (rdev s) (flush s)
    (logfile s) (host_umask s) (host_uid s) (host_gid s) (host_time s) (trace s).

Definition set_inode_counter (n : Z) (s : state) : state :=
  mk_state (inodes s) (entries s) (supers_heap s) (total_inodes s)
    (total_entries s) (verrno s) (supers s) n (rdev s) (flush s)
    (logfile s) (host_umask s) (host_uid s) (host_gid s) (host_time s) (trace s).

Definition set_flush (b : Z) (s : state) : state :=
  mk_state (inodes s) (entries s) (supers_heap s) (total_inodes s)
    (total_entries s) (verrno s) (supers s) (inode_counter s) (rdev s) b
    (logfile s) (host_umask s) (host_uid s) (host_gid s) (host_time s) (trace s).

Definition set_logfile (o : option string) (s : state) : state :=
  mk_state (inodes s) (entries s) (supers_heap s) (total_inodes s)
    (total_entries s) (verrno s) (supers s) (inode_counter s) (rdev s) (flush s)
    o (host_umask s) (host_uid s) (host_gid s) (host_time s) (trace s).

Definition log_events (evs : list event) (s : state) : state :=
  mk_state (inodes s) (entries s) (supers_heap s) (total_inodes s)
    (total_entries s) (verrno s) (supers s) (inode_counter s) (rdev s) (flush s)
    (logfile s) (host_umask s) (host_uid s) (host_gid s) (host_time s)
    (trace s ++ evs).

Definition log_event (ev : event) (s : state) : state := log_events [ev] s.

(** ** Outcomes and the state monad of the core *)

Inductive outcome (A : Type) :=
  | Ret (a : A) (s : state)        (* normal return *)
  | Die (msg : string)             (* vfs_die *)
  | Fault                          (* read through a null or dangling pointer *)
  | OutOfFuel.                     (* the model ran out of fuel *)
Arguments Ret {A} a s.
Arguments Die {A} msg.
Arguments Fault {A}.
Arguments OutOfFuel {A}.

Definition M (A : Type) : Type := state → outcome A.

Definition ret {A} (a : A) : M A := fun s => Ret a s.

Definition bind {A B} (m : M A) (k : A → M B) : M B :=
  fun s =>
    match m s with
    | Ret a s' => k a s'
    | Die msg => Die msg
    | Fault => Fault
    | OutOfFuel => OutOfFuel
    end.

Notation "'do' x <- m ; k" := (bind m (fun x => k))
  (at level 10, x name, m at level 100, k at level 200).
Notation "m ;; k" := (bind m (fun _ => k))
  (at level 100, k at level 200, right associativity).

Definition vfs_die {A} (msg : string) : M A := fun _ => Die msg.
Definition fault {A} : M A := fun _ => Fault.
Definition out_of_fuel {A} : M A := fun _ => OutOfFuel.
Definition get_state : M state := fun s => Ret s s.
Definition modify (f : state → state) : M unit := fun s => Ret tt (f s).
Definition emit (ev : event) : M unit := modify (log_event ev).

(** [ERRNOR (e, r)]: store [e] in [me->verrno] and return [r]. *)
Definition ERRNOR {A} (e : Z) (r : A) : M A := modify (set_verrno e) ;; ret r.

(** Reading and writing through a pointer. *)
Definition deref {A} (o : option A) : M A :=
  match o with Some a => ret a | None => fault end.

Definition get_inode (ino : inode_id) : M vfs_s_inode :=
  fun s => deref (inodes s !! ino) s.
Definition put_inode (ino : inode_id) (x : vfs_s_inode) : M unit :=
  modify (upd_inodes (insert ino x)).
Definition get_entry (ent : entry_id) : M vfs_s_entry :=
  fun s => deref (entries s !! ent) s.
Definition put_entry (ent : entry_id) (y : vfs_s_entry) : M unit :=
  modify (upd_entries (insert ent y)).
Definition get_super (super : super_id) : M vfs_s_super :=
  fun s => deref (supers_heap s !! super) s.
Definition put_super (super : super_id) (r : vfs_s_super) : M unit :=
  modify (upd_supers_heap (insert super r)).

(** [g_free] of a heap object. *)
Definition free_inode_mem (ino : inode_id) : M unit :=
  modify (upd_inodes (delete ino)).
Definition free_entry_mem (ent : entry_id) : M unit :=
  modify (upd_entries (delete ent)).
Definition free_super_mem (super : super_id) : M unit :=
  modify (upd_supers_heap (delete super)).

(** ** The environment of the file

    Constants of [xdirentry.h] and [vfs.h], and helpers of other files of
    the library: none of them is defined in [direntry.c]. *)

Record environment := mk_environment {
  (* xdirentry.h *)
  FL_NONE : Z;
  FL_FOLLOW : Z;
  FL_MKDIR : Z;
  FL_MKFILE : Z;
  FL_DIR : Z;
  FL_NO_OPEN : Z;
  LINK_FOLLOW : Z;
  VFS_S_REMOTE : Z;
  VFS_S_READONLY : Z;
  (* vfs.h *)
  IS_LINEAR : Z → bool;
  NO_LINEAR : Z → Z;
  VFS_SETCTL_STALE_DATA : Z;
  VFS_SETCTL_LOGFILE : Z;
  VFS_SETCTL_FLUSH : Z;
  (* custom_canonicalize_pathname (path, CANON_PATH_ALL & ~CANON_PATH_REMDOUBLEDOTS) *)
  custom_canonicalize_pathname : string → string;
  (* vfs_split (inname, &local, &op): the archive name left in inname,
     the local part and the operator *)
  vfs_split : string → string * option string * option string;
  (* vfs_mkstemps (&localname, prefix, basename): descriptor and name of
     the temporary file, or failure *)
  vfs_mkstemps : string → string → state → option (Z * string);
  (* open (localname, flags, mode) of the host: descriptor or -1, and errno *)
  host_open : string → Z → Z → state → Z * Z;
  (* write (fd, buffer, count) of the host: bytes written or -1, and errno *)
  host_write : Z → string → Z → state → Z * Z;
  (* whether g_try_new0 (struct vfs_s_inode, 1) finds memory *)
  g_try_new0_ok : state → bool;
  (* fopen (arg, "w") of the host: the stream, named by its file, or
     NULL when the file cannot be opened *)
  host_fopen : option string → state → option string
}.

(** ** The class and its table of subclass hooks *)

(** The two resolvers [sub->find_entry] can be bound to. *)
Inductive resolver :=
  | Find_entry_tree
  | Find_entry_linear.

(** The freshness check [sub->dir_uptodate] can be bound to. *)
Inductive freshness :=
  | Dir_uptodate_core.

(** [struct vfs_s_subclass]: its flags and hooks.  A hook the core calls
    for effect only is a presence bit; a null function pointer is [None]
    or [false]. *)
Record vfs_s_subclass := mk_subclass {
  sub_flags : Z;                   (* sub->flags *)
  init_inode : bool;
  free_inode : bool;
  init_entry : bool;
  free_archive : bool;
  linear_start : bool;
  linear_close : bool;
  archive_check : option (string → option string → state → option Z);
  archive_same : option (super_id → string → option string → option Z → state → Z);
  open_archive : option (super_id → string → option string → state → Z * state);
  fh_open : option (vfs_file_handler_t → Z → Z → state → Z);
  fh_close : option (vfs_file_handler_t → state → Z);
  file_store : option (vfs_file_handler_t → string → option string → state → Z);
  dir_load : option (inode_id → string → state → Z * state);
  find_entry : option resolver;
  dir_uptodate : option freshness
}.

(** The functions of this file that [vfs_s_init_class] installs. *)
Inductive method :=
  | M_vfs_s_fill_names | M_vfs_s_open | M_vfs_s_close | M_vfs_s_read
  | M_vfs_s_write | M_vfs_s_opendir | M_vfs_s_readdir | M_vfs_s_closedir
  | M_vfs_s_stat | M_vfs_s_lstat | M_vfs_s_fstat | M_vfs_s_readlink
  | M_vfs_s_chdir | M_vfs_s_ferrno | M_vfs_s_lseek | M_vfs_s_getid
  | M_vfs_s_nothingisopen | M_vfs_s_free | M_vfs_s_getlocalcopy
  | M_vfs_s_ungetlocalcopy | M_vfs_s_setctl.

(** [struct vfs_class]: the slots this file fills or reads. *)
Record vfs_class := mk_class {
  c_name : string;
  c_prefix : string;
  c_data : vfs_s_subclass;
  c_fill_names : option method;
  c_open : option method;
  c_close : option method;
  c_read : option method;
  c_write : option method;
  c_opendir : option method;
  c_readdir : option method;
  c_closedir : option method;
  c_stat : option method;
  c_lstat : option method;
  c_fstat : option method;
  c_readlink : option method;
  c_chdir : option method;
  c_ferrno : option method;
  c_lseek : option method;
  c_getid : option method;
  c_nothingisopen : option method;
  c_free : option method;
  c_getlocalcopy : option method;
  c_ungetlocalcopy : option method;
  c_setctl : option method
}.

(** [MEDATA]: the subclass table behind [me->data]. *)
Definition MEDATA (me : vfs_class) : vfs_s_subclass := c_data me.

(** [#define CALL(x) if (MEDATA->x) MEDATA->x] for a hook called for
    effect. *)
Definition CALL (present : bool) (ev : event) : M unit :=
  modify (log_events (if present then [ev] else [])).

(** ** Strings and lists *)

Definition is_sep (c : ascii) : bool := Ascii.eqb c PATH_SEP.

(** [while ( *path == PATH_SEP) path++;] *)
Fixpoint skip_seps (path : string) : string :=
  match path with
  | String c rest => if is_sep c then skip_seps rest else path
  | EmptyString => path
  end.

(** [for (pseg = 0; path[pseg] != '\0' && path[pseg] != PATH_SEP; pseg++);] *)
Fixpoint segment_length (path : string) : nat :=
  match path with
  | String c rest => if is_sep c then O else S (segment_length rest)
  | EmptyString => O
  end.

(** [path += n] *)
Fixpoint advance (n : nat) (path : string) : string :=
  match n, path with
  | S n, String _ rest => advance n rest
  | _, _ => path
  end.

(** [strchr (path, PATH_SEP) != NULL] *)
Fixpoint has_sep (path : string) : bool :=
  match path with
  | String c rest => is_sep c || has_sep rest
  | EmptyString => false
  end.

(** The string [path] reads as after [*strchr (path, PATH_SEP) = '\0']. *)
Fixpoint until_sep (path : string) : string :=
  match path with
  | String c rest => if is_sep c then EmptyString else String c (until_sep rest)
  | EmptyString => EmptyString
  end.

(** [strlen (name) == pseg && strncmp (name, path, pseg) == 0] *)
Definition segment_matches (name path : string) (pseg : nat) : bool :=
  Nat.eqb (String.length name) pseg
  && String.eqb (substring 0 pseg name) (substring 0 pseg path).

(** [strrchr (path, PATH_SEP)]: the text before and after the last
    separator. *)
Fixpoint split_last_sep (path : string) : option (string * string) :=
  match path with
  | EmptyString => None
  | String c rest =>
      match split_last_sep rest with
      | Some (d, n) => Some (String c d, n)
      | None => if is_sep c then Some (EmptyString, rest) else None
      end
  end.

(** [g_list_remove (list, data)]: drops the first occurrence. *)
Fixpoint g_list_remove (data : positive) (l : list positive) : list positive :=
  match l with
  | [] => []
  | x :: l' => if Pos.eqb x data then l' else x :: g_list_remove data l'
  end.

Section Core.

Variable E : environment.

(** ** Inode / entry store *)

(** [vfs_s_free_inode], the loop over [ino->subdir] inside it, and
    [vfs_s_free_entry]. *)
Fixpoint vfs_s_free_inode (fuel : nat) (me : vfs_class) (ino : option inode_id)
    {struct fuel} : M unit :=
  match fuel with
  | O => out_of_fuel
  | S fuel =>
      match ino with
      | None => vfs_die "Don't pass NULL to me"
      | Some ino =>
          do x <- get_inode ino;
          (* ==0 can happen if freshly created entry is deleted *)
          if 1 <? i_nlink x then
            put_inode ino (set_i_nlink (wrap_u64 (i_nlink x - 1)) x)
          else
            free_subdir fuel me ino ;;
            CALL (free_inode (MEDATA me)) (Call_free_inode ino) ;;
            do x <- get_inode ino;
            (* g_free (ino->linkname): the string goes with the record *)
            match i_localname x with
            | Some localname => emit (Host_unlink localname)
            | None => ret tt
            end ;;
            modify (fun s => set_total_inodes (wrap_int (total_inodes s - 1)) s) ;;
            do r <- get_super (i_super x);
            put_super (i_super x) (set_s_ino_usage (wrap_int (s_ino_usage r - 1)) r) ;;
            free_inode_mem ino
      end
  end

with free_subdir (fuel : nat) (me : vfs_class) (ino : inode_id)
    {struct fuel} : M unit :=
  (* while (ino->subdir != NULL) vfs_s_free_entry (me, ino->subdir->data); *)
  match fuel with
  | O => out_of_fuel
  | S fuel =>
      do x <- get_inode ino;
      match i_subdir x with
      | [] => ret tt
      | ent :: _ => vfs_s_free_entry fuel me ent ;; free_subdir fuel me ino
      end
  end

with vfs_s_free_entry (fuel : nat) (me : vfs_class) (ent : entry_id)
    {struct fuel} : M unit :=
  match fuel with
  | O => out_of_fuel
  | S fuel =>
      do y <- get_entry ent;
      match e_dir y with
      | Some dir =>
          do xd <- get_inode dir;
          put_inode dir (set_i_subdir (g_list_remove ent (i_subdir xd)) xd)
      | None => ret tt
      end ;;
      (* g_free (ent->name): the string goes with the record *)
      match e_ino y with
      | Some ino =>
          do xi <- get_inode ino;
          put_inode ino (set_i_ent None xi) ;;
          vfs_s_free_inode fuel me (Some ino)
      | None => ret tt
      end ;;
      modify (fun s => set_total_entries (wrap_int (total_entries s - 1)) s) ;;
      free_entry_mem ent
  end.

Definition vfs_s_new_inode (me : vfs_class) (super : super_id)
    (initstat : option stat) : M (option inode_id) :=
  do s <- get_state;
  if negb (g_try_new0_ok E s) then ret None
  else
    let ino := fresh (dom (inodes s)) in
    let st0 := match initstat with Some st => st | None => stat_zero end in
    let st1 := set_st_dev (rdev s) (set_st_ino (inode_counter s) (set_st_nlink 0 st0)) in
    put_inode ino (mk_inode super None [] st1 None None 0) ;;
    modify (set_inode_counter (wrap_u64 (inode_counter s + 1))) ;;
    do r <- get_super super;
    put_super super (set_s_ino_usage (wrap_int (s_ino_usage r + 1)) r) ;;
    modify (fun s => set_total_inodes (wrap_int (total_inodes s + 1)) s) ;;
    CALL (init_inode (MEDATA me)) (Call_init_inode ino) ;;
    ret (Some ino).

Definition vfs_s_new_entry (me : vfs_class) (name : string)
    (inode : option inode_id) : M entry_id :=
  do s <- get_state;
  let entry := fresh (dom (entries s)) in
  modify (fun s => set_total_entries (wrap_int (total_entries s + 1)) s) ;;
  put_entry entry (mk_entry None name inode) ;;
  do ino <- deref inode;
  do x <- get_inode ino;
  put_inode ino (set_i_ent (Some entry) x) ;;
  CALL (init_entry (MEDATA me)) (Call_init_entry entry) ;;
  ret entry.

Definition vfs_s_insert_entry (me : vfs_class) (dir : inode_id) (ent : entry_id)
    : M unit :=
  do y <- get_entry ent;
  put_entry ent (set_e_dir (Some dir) y) ;;
  do ino <- deref (e_ino y);
  do x <- get_inode ino;
  put_inode ino (set_i_nlink (wrap_u64 (i_nlink x + 1)) x) ;;
  do xd <- get_inode dir;
  put_inode dir (set_i_subdir (i_subdir xd ++ [ent]) xd).

(** [myumask = umask (022); umask (myumask);] hands out the process mask
    and puts it back at once: the host is read, not changed.  [getuid],
    [getgid] and [time] read the host as well. *)
Definition vfs_s_default_stat (me : vfs_class) (mode : Z) : M stat :=
  do s <- get_state;
  let myumask := host_umask s in
  let mode := Z.land mode (Z.lnot myumask) in
  ret (mk_stat mode 0 0 0 0 (host_uid s) (host_gid s) 0
         (host_time s) (host_time s) (host_time s)).

Definition vfs_s_generate_entry (me : vfs_class) (name : string)
    (parent : inode_id) (mode : Z) : M entry_id :=
  do st <- vfs_s_default_stat me mode;
  do xp <- get_inode parent;
  do inode <- vfs_s_new_inode me (i_super xp) (Some st);
  vfs_s_new_entry me name inode.

(** We were asked to create entries automagically *)
Definition vfs_s_automake (me : vfs_class) (dir : inode_id) (path : string)
    (flags : Z) : M entry_id :=
  let name := until_sep path in
  do res <- vfs_s_generate_entry me name dir
              (if Z.land flags (FL_MKDIR E) =? 0 then 511 else Z.lor 511 S_IFDIR);
  vfs_s_insert_entry me dir res ;;
  ret res.

(** ** Freshness *)

Definition vfs_s_dir_uptodate (me : vfs_class) (ino : option inode_id) : M Z :=
  do s <- get_state;
  if negb (flush s =? 0) then
    modify (set_flush 0) ;;
    ret 0
  else
    (* gettimeofday (&tim, NULL) *)
    do ino <- deref ino;
    do x <- get_inode ino;
    if host_time s <? i_timestamp x then ret 1 else ret 0.

(** ** Full path of an inode *)

(** The [while (1)] loop of [vfs_s_fullpath] for archives. *)
Fixpoint fullpath_archive (fuel : nat) (ino : inode_id) (path : string)
    {struct fuel} : M string :=
  match fuel with
  | O => out_of_fuel
  | S fuel =>
      do x <- get_inode ino;
      do e <- deref (i_ent x);
      do y <- get_entry e;
      do dir <- deref (e_dir y);
      do xd <- get_inode dir;
      do r <- get_super (i_super xd);
      if bool_decide (s_root r = Some dir) then ret path
      else
        do ed <- deref (i_ent xd);
        do yd <- get_entry ed;
        fullpath_archive fuel dir (e_name yd ++ "/" ++ path)
  end.

Definition vfs_s_fullpath (fuel : nat) (me : vfs_class) (ino : inode_id)
    : M (option string) :=
  do x <- get_inode ino;
  match i_ent x with
  | None => ERRNOR EAGAIN None
  | Some e =>
      do y <- get_entry e;
      if Z.land (sub_flags (MEDATA me)) (VFS_S_REMOTE E) =? 0 then
        (* archives *)
        do path <- fullpath_archive fuel ino (e_name y);
        ret (Some path)
      else
        (* remote systems *)
        match e_dir y with
        | None => ret (Some (e_name y))
        | Some dir =>
            do xd <- get_inode dir;
            match i_ent xd with
            | None => ret (Some (e_name y))
            | Some ed =>
                do yd <- get_entry ed;
                ret (Some (e_name yd ++ "/" ++ e_name y))
            end
        end
  end.

(** ** Path resolvers and the symlink follower *)

(** The [for] loop of [vfs_s_find_entry_tree] over [root->subdir]. *)
Fixpoint scan_subdir (l : list entry_id) (path : string) (pseg : nat)
    : M (option entry_id) :=
  match l with
  | [] => ret None
  | e :: l' =>
      do y <- get_entry e;
      if segment_matches (e_name y) path pseg then ret (Some e)
      else scan_subdir l' path pseg
  end.

(** [g_list_find_custom (list, name, vfs_s_entry_compare)] *)
Fixpoint g_list_find_custom (l : list entry_id) (name : string)
    : M (option entry_id) :=
  match l with
  | [] => ret None
  | e :: l' =>
      do y <- get_entry e;
      if String.eqb (e_name y) name then ret (Some e)
      else g_list_find_custom l' name
  end.

(** The [if (ent == NULL)] block of [vfs_s_find_entry_linear]: the
    directory [path] is not in the cache and is loaded into a new inode
    of [super]. *)
Definition find_entry_linear_load (fuel : nat) (me : vfs_class) (root : inode_id)
    (super : super_id) (path : string) : M (option entry_id) :=
  do st <- vfs_s_default_stat me (Z.lor S_IFDIR 493);
  do ino <- vfs_s_new_inode me super (Some st);
  do ent <- vfs_s_new_entry me path ino;
  do rc <-
    match dir_load (MEDATA me) with
    | Some load =>
        do ino <- deref ino;
        fun s => let '(rc, s') := load ino path s in Ret rc s'
    | None => fault
    end;
  if rc =? -1 then
    vfs_s_free_entry fuel me ent ;;
    ret None
  else
    vfs_s_insert_entry me root ent ;;
    do xr <- get_inode root;
    do ent <- g_list_find_custom (i_subdir xr) path;
    match ent with
    | None => vfs_die "find_linear: success but directory is not there"
    | Some _ => ret ent
    end.

Definition split_dir_name (path : string) : string * string :=
  match split_last_sep path with
  | None => (EmptyString, path)
  | Some (dir, name) => (dir, name)
  end.

Definition is_empty (path : string) : bool :=
  match path with EmptyString => true | _ => false end.

(** [*linkname != PATH_SEP] *)
Definition is_relative (linkname : string) : bool :=
  match linkname with
  | String c _ => negb (is_sep c)
  | EmptyString => true
  end.

(** The block "make full path from relative" of [vfs_s_resolve_symlink]:
    the name that is looked up for a link with target [linkname] in the
    directory [dir]. *)
Definition symlink_target (fuel : nat) (me : vfs_class) (dir : option inode_id)
    (linkname : string) : M string :=
  if is_relative linkname then
    do dir <- deref dir;
    do fullpath <- vfs_s_fullpath fuel me dir;
    match fullpath with
    | Some fullpath => ret (fullpath ++ "/" ++ linkname)
    | None => ret linkname
    end
  else ret linkname.

(** The [while (root != NULL)] loop of [vfs_s_find_entry_tree].  Every
    round but the last leaves a shorter path, so [rounds] starts at the
    length of the path plus one.  [resolve_symlink] is
    [vfs_s_resolve_symlink (me, ., .)]. *)
Section Tree_walk.

Variable resolve_symlink : option entry_id → Z → M (option entry_id).
Variable me : vfs_class.

Fixpoint find_entry_tree_loop (rounds : nat) (root : option inode_id)
    (path : string) (ent : option entry_id) (follow flags : Z)
    {struct rounds} : M (option entry_id) :=
  match rounds with
  | O => out_of_fuel
  | S rounds =>
      match root with
      | None => ret None
      | Some root =>
          (* Strip leading '/' *)
          let path := skip_seps path in
          if is_empty path then ret ent
          else
            let pseg := segment_length path in
            do x <- get_inode root;
            do ent <- scan_subdir (i_subdir x) path pseg;
            do ent <-
              match ent with
              | None =>
                  if negb (Z.land flags (Z.lor (FL_MKFILE E) (FL_MKDIR E)) =? 0)
                  then do res <- vfs_s_automake me root path flags; ret (Some res)
                  else ret None
              | Some _ => ret ent
              end;
            match ent with
            | None => modify (set_verrno ENOENT) ;; ret None
            | Some _ =>
                let path := advance pseg path in
                (* here we must follow leading directories always;
                   only the actual file is optional *)
                do ent <- resolve_symlink ent
                            (if has_sep path then LINK_FOLLOW E else follow);
                match ent with
                | None => ret None
                | Some e =>
                    do y <- get_entry e;
                    find_entry_tree_loop rounds (e_ino y) path ent follow flags
                end
            end
      end
  end.

End Tree_walk.

(** [vfs_s_resolve_symlink], [vfs_s_find_entry_tree],
    [vfs_s_find_entry_linear] and [vfs_s_find_inode] call each other
    through [MEDATA->find_entry]; the fuel bounds the depth of these
    calls. *)
Fixpoint vfs_s_resolve_symlink (fuel : nat) (me : vfs_class)
    (entry : option entry_id) (follow : Z) {struct fuel} : M (option entry_id) :=
  match fuel with
  | O => out_of_fuel
  | S fuel =>
      if follow =? LINK_NO_FOLLOW then ret entry
      else if follow =? 0 then ERRNOR ELOOP None
      else
        match entry with
        | None => ERRNOR ENOENT None
        | Some ent =>
            do y <- get_entry ent;
            do ino <- deref (e_ino y);
            do x <- get_inode ino;
            if negb (S_ISLNK (st_mode (i_st x))) then ret entry
            else
              match i_linkname x with
              | None => ERRNOR EFAULT None
              | Some linkname =>
                  do linkname <- symlink_target fuel me (e_dir y) linkname;
                  do dir <- deref (e_dir y);
                  do xd <- get_inode dir;
                  do r <- get_super (i_super xd);
                  match find_entry (MEDATA me) with
                  | Some Find_entry_tree =>
                      vfs_s_find_entry_tree fuel me (s_root r) linkname
                        (wrap_int (follow - 1)) 0
                  | Some Find_entry_linear =>
                      vfs_s_find_entry_linear fuel me (s_root r) linkname
                        (wrap_int (follow - 1)) 0
                  | None => fault
                  end
              end
        end
  end

with vfs_s_find_entry_tree (fuel : nat) (me : vfs_class)
    (root : option inode_id) (a_path : string) (follow flags : Z)
    {struct fuel} : M (option entry_id) :=
  match fuel with
  | O => out_of_fuel
  | S fuel =>
      (* canonicalize as well, but don't remove '../' from path *)
      let path := custom_canonicalize_pathname E a_path in
      find_entry_tree_loop (vfs_s_resolve_symlink fuel me) me
        (S (String.length path)) root path None follow flags
  end

with vfs_s_find_entry_linear (fuel : nat) (me : vfs_class)
    (root : option inode_id) (a_path : string) (follow flags : Z)
    {struct fuel} : M (option entry_id) :=
  match fuel with
  | O => out_of_fuel
  | S fuel =>
      do root <- deref root;
      do xr <- get_inode root;
      do r <- get_super (i_super xr);
      if negb (bool_decide (s_root r = Some root)) then
        vfs_die "We have to use _real_ root. Always. Sorry."
      else
        (* canonicalize as well, but don't remove '../' from path *)
        let path := custom_canonicalize_pathname E a_path in
        if Z.land flags (FL_DIR E) =? 0 then
          let '(dirname, name) := split_dir_name path in
          do ino <- vfs_s_find_inode fuel me (i_super xr) dirname follow
                      (Z.lor flags (FL_DIR E));
          vfs_s_find_entry_tree fuel me ino name follow flags
        else
          do ent <- g_list_find_custom (i_subdir xr) path;
          do ent <-
            match ent with
            | Some e =>
                do y <- get_entry e;
                do uptodate <-
                  match dir_uptodate (MEDATA me) with
                  | Some Dir_uptodate_core => vfs_s_dir_uptodate me (e_ino y)
                  | None => fault
                  end;
                if uptodate =? 0 then
                  emit (Print_message ("Directory cache expired for " ++ path)) ;;
                  vfs_s_free_entry fuel me e ;;
                  ret None
                else ret ent
            | None => ret None
            end;
          match ent with
          | None => find_entry_linear_load fuel me root (i_super xr) path
          | Some _ => ret ent
          end
  end

with vfs_s_find_inode (fuel : nat) (me : vfs_class) (super : super_id)
    (path : string) (follow flags : Z) {struct fuel} : M (option inode_id) :=
  match fuel with
  | O => out_of_fuel
  | S fuel =>
      do r <- get_super super;
      if (Z.land (sub_flags (MEDATA me)) (VFS_S_REMOTE E) =? 0) && is_empty path
      then ret (s_root r)
      else
        do ent <-
          match find_entry (MEDATA me) with
          | Some Find_entry_tree =>
              vfs_s_find_entry_tree fuel me (s_root r) path follow flags
          | Some Find_entry_linear =>
              vfs_s_find_entry_linear fuel me (s_root r) path follow flags
          | None => fault
          end;
        match ent with
        | Some e => do y <- get_entry e; ret (e_ino y)
        | None => ret None
        end
  end.

(** ** Superblocks *)

Definition vfs_s_new_super (me : vfs_class) : M super_id :=
  do s <- get_state;
  let super := fresh (dom (supers_heap s)) in
  put_super super (mk_super None None 0 0 0) ;;
  ret super.

Definition vfs_s_insert_super (me : vfs_class) (super : super_id) : M unit :=
  modify (fun s => set_supers (super :: supers s) s).

Definition vfs_s_free_super (fuel : nat) (me : vfs_class) (super : super_id)
    : M unit :=
  do r <- get_super super;
  match s_root r with
  | Some root =>
      vfs_s_free_inode fuel me (Some root) ;;
      do r <- get_super super;
      put_super super (set_s_root None r)
  | None => ret tt
  end ;;
  modify (fun s => set_supers (g_list_remove super (supers s)) s) ;;
  CALL (free_archive (MEDATA me)) (Call_free_archive super) ;;
  (* g_free (super->name) *)
  free_super_mem super.

(** The [for] loop of [vfs_s_get_path_mangle] over [MEDATA->supers]:
    0 == other, 1 == same, return it, 2 == other but stop scanning *)
Fixpoint scan_supers (same : super_id → Z) (l : list super_id) : option super_id :=
  match l with
  | [] => None
  | super :: l' =>
      let i := same super in
      if negb (i =? 0) then (if i =? 1 then Some super else None)
      else scan_supers same l'
  end.

(** Dissect the path and create corresponding superblock. *)
Definition vfs_s_get_path_mangle (fuel : nat) (me : vfs_class) (inname : string)
    (flags : Z) : M (option (string * super_id)) :=
  let '(archive_name, local, op) := vfs_split E inname in
  let retval := match local with Some l => l | None => EmptyString end in
  do s <- get_state;
  let checked :=
    match archive_check (MEDATA me) with
    | Some check =>
        match check archive_name op s with
        | Some cookie => Some (Some cookie)
        | None => None
        end
    | None => Some None
    end in
  match checked with
  | None => ret None
  | Some cookie =>
    do found <-
      match supers s with
      | [] => ret None
      | _ :: _ =>
          do same <- deref (archive_same (MEDATA me));
          ret (scan_supers (fun super => same super archive_name op cookie s)
                 (supers s))
      end;
    match found with
    | Some super => ret (Some (retval, super))
    | None =>
        if negb (Z.land flags (FL_NO_OPEN E) =? 0) then ERRNOR EIO None
        else
          do super <- vfs_s_new_super me;
          do open <- deref (open_archive (MEDATA me));
          do result <- (fun s => let '(rc, s') := open super archive_name op s in
                                 Ret rc s');
          if result =? -1 then
            vfs_s_free_super fuel me super ;;
            ERRNOR EIO None
          else
            do r <- get_super super;
            if negb (bool_decide (is_Some (s_name r))) then
              vfs_die "You have to fill name"
            else if negb (bool_decide (is_Some (s_root r))) then
              vfs_die "You have to fill root inode"
            else
              vfs_s_insert_super me super ;;
              emit (Stamp_create super) ;;
              ret (Some (retval, super))
    end
  end.

(** The result should be freed: the copies are values here. *)
Definition vfs_s_get_path (fuel : nat) (me : vfs_class) (inname : string)
    (flags : Z) : M (option (string * super_id)) :=
  vfs_s_get_path_mangle fuel me inname flags.

Definition vfs_s_invalidate (fuel : nat) (me : vfs_class) (super : super_id)
    : M unit :=
  do r <- get_super super;
  if s_want_stale r =? 0 then
    vfs_s_free_inode fuel me (s_root r) ;;
    do st <- vfs_s_default_stat me (Z.lor S_IFDIR 493);
    do ino <- vfs_s_new_inode me super (Some st);
    do r <- get_super super;
    put_super super (set_s_root ino r)
  else ret tt.

(** ** Directory iterator *)

Definition vfs_s_inode_from_path (fuel : nat) (me : vfs_class) (name : string)
    (flags : Z) : M (option inode_id) :=
  do q <- vfs_s_get_path fuel me name 0;
  match q with
  | None => ret None
  | Some (q, super) =>
      let follow :=
        if negb (Z.land flags (FL_FOLLOW E) =? 0) then LINK_FOLLOW E
        else LINK_NO_FOLLOW in
      do ino <- vfs_s_find_inode fuel me super q follow
                  (Z.land flags (Z.lnot (FL_FOLLOW E)));
      match ino with
      | None =>
          if is_empty q then
            (* We are asking about / directory of ftp server: assume it exists *)
            vfs_s_find_inode fuel me super q follow
              (Z.lor (FL_DIR E) (Z.land flags (Z.lnot (FL_FOLLOW E))))
          else ret None
      | Some _ => ret ino
      end
  end.

Definition vfs_s_opendir (fuel : nat) (me : vfs_class) (dirname : string)
    : M (option dirhandle) :=
  do dir <- vfs_s_inode_from_path fuel me dirname (Z.lor (FL_DIR E) (FL_FOLLOW E));
  match dir with
  | None => ret None
  | Some dir =>
      do x <- get_inode dir;
      if negb (S_ISDIR (st_mode (i_st x))) then ERRNOR ENOTDIR None
      else
        put_inode dir (set_i_nlink (wrap_u64 (i_nlink x + 1)) x) ;;
        (* info->cur = g_list_first (dir->subdir) *)
        ret (Some (mk_dirhandle (head (i_subdir x)) dir))
  end.

(** [dir->super->me] is the class the superblock belongs to. *)
Definition vfs_s_closedir (fuel : nat) (me : vfs_class) (info : dirhandle) : M Z :=
  let dir := dh_dir info in
  do x <- get_inode dir;
  do r <- get_super (i_super x);
  vfs_s_free_inode fuel me (Some dir) ;;
  ret 0.

Definition vfs_s_chdir (fuel : nat) (me : vfs_class) (path : string) : M Z :=
  do data <- vfs_s_opendir fuel me path;
  match data with
  | None => ret (-1)
  | Some info => vfs_s_closedir fuel me info ;; ret 0
  end.

(** ** File handles *)

Definition set_fh_handle (fd : Z) (fh : vfs_file_handler_t) : vfs_file_handler_t :=
  mk_fh (fh_ino fh) (fh_pos fh) fd (fh_changed fh) (fh_linear fh).

Definition set_fh_linear (l : linear_state) (fh : vfs_file_handler_t)
    : vfs_file_handler_t :=
  mk_fh (fh_ino fh) (fh_pos fh) (fh_handle fh) (fh_changed fh) l.


Definition is_linear_open (l : linear_state) : bool :=
  match l with LS_LINEAR_OPEN => true | _ => false end.


Definition vfs_s_open (fuel : nat) (me : vfs_class) (file : string)
    (flags mode : Z) : M (option vfs_file_handler_t) :=
  do q <- vfs_s_get_path fuel me file 0;
  match q with
  | None => ret None
  | Some (q, super) =>
      do ino <- vfs_s_find_inode fuel me super q (LINK_FOLLOW E) (FL_NONE E);
      if bool_decide (is_Some ino)
         && (Z.land flags (Z.lor O_CREAT O_EXCL) =? Z.lor O_CREAT O_EXCL)
      then ERRNOR EEXIST None
      else
        do found <-
          match ino with
          | Some ino => ret (Some (ino, 0))
          | None =>
              (* If the filesystem is read-only, disable file creation *)
              if (Z.land flags O_CREAT =? 0) || negb (bool_decide (is_Some (c_write me)))
              then ret None
              else
                let '(dirname, name) := split_dir_name q in
                do dir <- vfs_s_find_inode fuel me super dirname (LINK_FOLLOW E)
                            (FL_DIR E);
                match dir with
                | None => ret None
                | Some dir =>
                    do ent <- vfs_s_generate_entry me name dir 493;
                    do y <- get_entry ent;
                    let ino := e_ino y in
                    vfs_s_insert_entry me dir ent ;;
                    do ino <- deref ino;
                    do x <- get_inode ino;
                    do s <- get_state;
                    match vfs_mkstemps E (c_name me) name s with
                    | None =>
                        put_inode ino (set_i_localname None x) ;;
                        ret None
                    | Some (tmp_handle, localname) =>
                        put_inode ino (set_i_localname (Some localname) x) ;;
                        emit (Host_close tmp_handle) ;;
                        ret (Some (ino, 1))
                    end
                end
          end;
        match found with
        | None => ret None
        | Some (ino, was_changed) =>
            do x <- get_inode ino;
            if S_ISDIR (st_mode (i_st x)) then ERRNOR EISDIR None
            else
              let fh := mk_fh ino 0 (-1) was_changed LS_NOT_LINEAR in
              do fh <-
                (if IS_LINEAR E flags then
                   if linear_start (MEDATA me) then
                     emit (Print_message "Starting linear transfer...") ;;
                     ret (Some (set_fh_linear LS_LINEAR_PREOPEN fh))
                   else ret (Some fh)
                 else
                   match fh_open (MEDATA me) with
                   | Some hook =>
                       do s <- get_state;
                       emit (Call_fh_open ino) ;;
                       if negb (hook fh flags mode s =? 0) then ret None
                       else ret (Some fh)
                   | None => ret (Some fh)
                   end);
              match fh with
              | None => ret None
              | Some fh =>
                  do x <- get_inode (fh_ino fh);
                  do fh <-
                    match i_localname x with
                    | Some localname =>
                        do s <- get_state;
                        let '(fd, errno) := host_open E localname (NO_LINEAR E flags) mode s in
                        if fd =? -1 then ERRNOR errno None
                        else ret (Some (set_fh_handle fd fh))
                    | None => ret (Some fh)
                    end;
                  match fh with
                  | None => ret None
                  | Some fh =>
                      (* i.e. we had no open files and now we have one *)
                      emit (Stamp_remove super) ;;
                      do r <- get_super super;
                      put_super super (set_s_fd_usage (wrap_int (s_fd_usage r + 1)) r) ;;
                      do x <- get_inode (fh_ino fh);
                      put_inode (fh_ino fh) (set_i_nlink (wrap_u64 (i_nlink x + 1)) x) ;;
                      ret (Some fh)
                  end
              end
        end
  end.




(** ** Control interface and stamping support *)

Definition vfs_s_setctl (fuel : nat) (me : vfs_class) (path : string)
    (ctlop : Z) (arg : option string) : M Z :=
  if ctlop =? VFS_SETCTL_STALE_DATA E then
    do ino <- vfs_s_inode_from_path fuel me path 0;
    match ino with
    | None => ret 0
    | Some ino =>
        do x <- get_inode ino;
        do r <- get_super (i_super x);
        match arg with
        | Some _ => put_super (i_super x) (set_s_want_stale 1 r)
        | None =>
            put_super (i_super x) (set_s_want_stale 0 r) ;;
            do x <- get_inode ino;
            vfs_s_invalidate fuel me (i_super x)
        end ;;
        ret 1
    end
  else if ctlop =? VFS_SETCTL_LOGFILE E then
    do s <- get_state;
    modify (set_logfile (host_fopen E arg s)) ;;
    ret 1
  else if ctlop =? VFS_SETCTL_FLUSH E then
    modify (set_flush 1) ;;
    ret 1
  else ret 0.

(** Our data structures should survive free of superblock at any time *)
Definition vfs_s_nothingisopen (id : option super_id) : M Z :=
  ret 1.

(** ** Class wiring *)

(** Initialize one of our subclasses - fill common functions *)
Definition vfs_s_init_class (vclass : vfs_class) (sub : vfs_s_subclass)
    : vfs_class :=
  let remote := negb (Z.land (sub_flags sub) (VFS_S_REMOTE E) =? 0) in
  let readonly := negb (Z.land (sub_flags sub) (VFS_S_READONLY E) =? 0) in
  let sub :=
    mk_subclass (sub_flags sub) (init_inode sub) (free_inode sub) (init_entry sub)
      (free_archive sub) (linear_start sub) (linear_close sub) (archive_check sub)
      (archive_same sub) (open_archive sub) (fh_open sub) (fh_close sub)
      (file_store sub) (dir_load sub)
      (Some (if remote then Find_entry_linear else Find_entry_tree))
      (Some Dir_uptodate_core) in
  mk_class (c_name vclass) (c_prefix vclass) sub
    (Some M_vfs_s_fill_names)
    (Some M_vfs_s_open)
    (Some M_vfs_s_close)
    (Some M_vfs_s_read)
    (if readonly then c_write vclass else Some M_vfs_s_write)
    (Some M_vfs_s_opendir)
    (Some M_vfs_s_readdir)
    (Some M_vfs_s_closedir)
    (Some M_vfs_s_stat)
    (Some M_vfs_s_lstat)
    (Some M_vfs_s_fstat)
    (Some M_vfs_s_readlink)
    (Some M_vfs_s_chdir)
    (Some M_vfs_s_ferrno)
    (Some M_vfs_s_lseek)
    (Some M_vfs_s_getid)
    (Some M_vfs_s_nothingisopen)
    (Some M_vfs_s_free)
    (if remote then Some M_vfs_s_getlocalcopy else c_getlocalcopy vclass)
    (if remote then Some M_vfs_s_ungetlocalcopy else c_ungetlocalcopy vclass)
    (Some M_vfs_s_setctl).

(** The call [( *vclass->nothingisopen) (id)] of the garbage collector. *)
Definition call_nothingisopen (vclass : vfs_class) (id : option super_id) : M Z :=
  match c_nothingisopen vclass with
  | Some M_vfs_s_nothingisopen => vfs_s_nothingisopen id
  | _ => fault
  end.

End Core.

(** * Sample environment, class and states

    Used to run the model on concrete inputs. *)

(** Modelled from the spec: [custom_canonicalize_pathname] is in another
    file; the spec says that leading [./], duplicate slashes and trailing
    slashes are collapsed and [..] is kept literally. *)
Fixpoint join_slashes (path : string) : string :=
  match path with
  | EmptyString => EmptyString
  | String c rest =>
      if is_sep c then
        match rest with
        | String c' _ => if is_sep c' then join_slashes rest
                         else String c (join_slashes rest)
        | EmptyString => String c EmptyString
        end
      else String c (join_slashes rest)
  end.

Definition strip_dot_slash (path : string) : string :=
  match path with
  | String "."%char (String "/"%char rest) => rest
  | _ => path
  end.

Fixpoint strip_trailing_slash (path : string) : string :=
  match path with
  | EmptyString => EmptyString
  | String c rest =>
      match rest with
      | EmptyString => if is_sep c then EmptyString else path
      | String _ _ => String c (strip_trailing_slash rest)
      end
  end.

Definition sample_canonicalize (path : string) : string :=
  match path with
  | String "/"%char EmptyString => path
  | _ => strip_trailing_slash (strip_dot_slash (join_slashes path))
  end.

(** The sample environment: distinct flag bits, a hop budget of 15, one
    archive that every path belongs to, a host that always finds memory
    and hands out descriptor 3. *)
Definition sample_env : environment :=
  {| FL_NONE := 0;
     FL_FOLLOW := 1;
     FL_MKDIR := 2;
     FL_MKFILE := 4;
     FL_DIR := 8;
     FL_NO_OPEN := 1;
     LINK_FOLLOW := 15;
     VFS_S_REMOTE := 2;
     VFS_S_READONLY := 1;
     IS_LINEAR := fun a => a =? 1024;
     NO_LINEAR := fun a => if a =? 1024 then 0 else a;
     VFS_SETCTL_STALE_DATA := 1;
     VFS_SETCTL_LOGFILE := 2;
     VFS_SETCTL_FLUSH := 3;
     custom_canonicalize_pathname := sample_canonicalize;
     vfs_split := fun inname => (EmptyString, Some inname, None);
     vfs_mkstemps := fun _ name _ => Some (3, "/tmp/mc-" ++ name);
     host_open := fun _ _ _ _ => (3, 0);
     host_write := fun _ _ count _ => (count, 0);
     g_try_new0_ok := fun _ => true;
     host_fopen := fun arg _ => arg |}.

Definition no_hooks : vfs_s_subclass :=
  {| sub_flags := 0;
     init_inode := false;
     free_inode := false;
     init_entry := false;
     free_archive := false;
     linear_start := false;
     linear_close := false;
     archive_check := None;
     archive_same := Some (fun _ _ _ _ _ => 1);
     open_archive := None;
     fh_open := None;
     fh_close := None;
     file_store := None;
     dir_load := None;
     find_entry := None;
     dir_uptodate := None |}.

Definition empty_class : vfs_class :=
  mk_class "samplefs" "sample" no_hooks None None None None None None None None
    None None None None None None None None None None None None None.

(** A tree class (archive style) without hooks. *)
Definition tree_class : vfs_class := vfs_s_init_class sample_env empty_class no_hooks.

Definition empty_state : state :=
  mk_state ∅ ∅ ∅ 0 0 0 [] 0 0 0 None 18 1000 1000 100 [].

Definition dir_st (nlink : Z) : stat := mk_stat 16877 nlink 0 0 0 0 0 0 0 0 0.
Definition reg_st (nlink : Z) : stat := mk_stat 33188 nlink 0 0 0 0 0 0 0 0 0.
Definition lnk_st (nlink : Z) : stat := mk_stat 41471 nlink 0 0 0 0 0 0 0 0 0.

(** An archive with the directory [a], the file [a/b] and the two
    symlinks [l1 -> l2] and [l2 -> l1]. *)
Definition tree_state : state :=
  mk_state
    (list_to_map
       [(1%positive, mk_inode 1 None [1; 3; 4]%positive (dir_st 1) None None 0);
        (2%positive, mk_inode 1 (Some 1%positive) [2%positive] (dir_st 1) None None 0);
        (3%positive, mk_inode 1 (Some 2%positive) [] (reg_st 1) None None 0);
        (4%positive, mk_inode 1 (Some 3%positive) [] (lnk_st 1) (Some "l2") None 0);
        (5%positive, mk_inode 1 (Some 4%positive) [] (lnk_st 1) (Some "l1") None 0)])
    (list_to_map
       [(1%positive, mk_entry (Some 1%positive) "a" (Some 2%positive));
        (2%positive, mk_entry (Some 2%positive) "b" (Some 3%positive));
        (3%positive, mk_entry (Some 1%positive) "l1" (Some 4%positive));
        (4%positive, mk_entry (Some 1%positive) "l2" (Some 5%positive))])
    (list_to_map [(1%positive, mk_super (Some "x.tar") (Some 1%positive) 0 0 5)])
    5 4 0 [1%positive] 5 0 0 None 18 1000 1000 100 [].

(** An archive with the links [d1 -> d2/t], [d2 -> d3/u], [d3 -> real]
    and the file [real/u/t]. *)
Definition hop_state : state :=
  mk_state
    (list_to_map
       [(1%positive, mk_inode 1 None [1; 2; 3; 4]%positive (dir_st 1) None None 0);
        (2%positive, mk_inode 1 (Some 1%positive) [] (lnk_st 1) (Some "d2/t") None 0);
        (3%positive, mk_inode 1 (Some 2%positive) [] (lnk_st 1) (Some "d3/u") None 0);
        (4%positive, mk_inode 1 (Some 3%positive) [] (lnk_st 1) (Some "real") None 0);
        (5%positive, mk_inode 1 (Some 4%positive) [5%positive] (dir_st 1) None None 0);
        (6%positive, mk_inode 1 (Some 5%positive) [6%positive] (dir_st 1) None None 0);
        (7%positive, mk_inode 1 (Some 6%positive) [] (reg_st 1) None None 0)])
    (list_to_map
       [(1%positive, mk_entry (Some 1%positive) "d1" (Some 2%positive));
        (2%positive, mk_entry (Some 1%positive) "d2" (Some 3%positive));
        (3%positive, mk_entry (Some 1%positive) "d3" (Some 4%positive));
        (4%positive, mk_entry (Some 1%positive) "real" (Some 5%positive));
        (5%positive, mk_entry (Some 5%positive) "u" (Some 6%positive));
        (6%positive, mk_entry (Some 6%positive) "t" (Some 7%positive))])
    (list_to_map [(1%positive, mk_super (Some "x.tar") (Some 1%positive) 0 0 7)])
    7 6 0 [1%positive] 7 0 0 None 18 1000 1000 100 [].










(** The mode [vfs_s_automake] asks for. *)
Definition automake_mode (E : environment) (flags : Z) : Z :=
  if Z.land flags (FL_MKDIR E) =? 0 then 511 else Z.lor 511 S_IFDIR.

(** The path has a last character and it is not a separator. *)
Fixpoint ends_in_segment (path : string) : bool :=
  match path with
  | EmptyString => false
  | String c rest =>
      match rest with
      | EmptyString => negb (is_sep c)
      | String _ _ => ends_in_segment rest
      end
  end.

(** [tree_walk E rs follow root path s e s']: the walk of
    [vfs_s_find_entry_tree] over [path] from the directory [root] in the
    state [s] resolves every segment and ends at the entry [e] in the
    state [s'].  Each segment is found by the scan of the directory the
    walk is in and handed to the symlink follower [rs], with
    [LINK_FOLLOW] when a separator comes behind it and with [follow]
    otherwise; the walk goes on in the inode of the entry that comes
    back, and [e] is the entry that came back for the last segment. *)
Inductive tree_walk (E : environment) (rs : option entry_id → Z → M (option entry_id))
    (follow : Z) : inode_id → string → state → entry_id → state → Prop :=
  | walk_last (root : inode_id) (x : vfs_s_inode) (path : string)
      (e0 e : entry_id) (y : vfs_s_entry) (ino : inode_id) (s s1 : state) :
      skip_seps path ≠ EmptyString →
      inodes s !! root = Some x →
      scan_subdir (i_subdir x) (skip_seps path) (segment_length (skip_seps path)) s
        = Ret (Some e0) s →
      rs (Some e0)
         (if has_sep (advance (segment_length (skip_seps path)) (skip_seps path))
          then LINK_FOLLOW E else follow) s
        = Ret (Some e) s1 →
      entries s1 !! e = Some y →
      e_ino y = Some ino →
      skip_seps (advance (segment_length (skip_seps path)) (skip_seps path))
        = EmptyString →
      tree_walk E rs follow root path s e s1
  | walk_more (root : inode_id) (x : vfs_s_inode) (path : string)
      (e0 e : entry_id) (y : vfs_s_entry) (ino : inode_id) (s s1 : state)
      (e' : entry_id) (s2 : state) :
      skip_seps path ≠ EmptyString →
      inodes s !! root = Some x →
      scan_subdir (i_subdir x) (skip_seps path) (segment_length (skip_seps path)) s
        = Ret (Some e0) s →
      rs (Some e0)
         (if has_sep (advance (segment_length (skip_seps path)) (skip_seps path))
          then LINK_FOLLOW E else follow) s
        = Ret (Some e) s1 →
      entries s1 !! e = Some y →
      e_ino y = Some ino →
      skip_seps (advance (segment_length (skip_seps path)) (skip_seps path))
        ≠ EmptyString →
      tree_walk E rs follow ino
        (advance (segment_length (skip_seps path)) (skip_seps path)) s1 e' s2 →
      tree_walk E rs follow root path s e' s2.

(** [MEDATA->find_entry (me, root, path, follow, flags)]: the resolver the
    class is bound to. *)
Definition class_find_entry (E : environment) (fuel : nat) (me : vfs_class)
    (root : option inode_id) (path : string) (follow flags : Z)
    : M (option entry_id) :=
  match find_entry (MEDATA me) with
  | Some Find_entry_tree => vfs_s_find_entry_tree E fuel me root path follow flags
  | Some Find_entry_linear => vfs_s_find_entry_linear E fuel me root path follow flags
  | None => fault
  end.

(** The text whose last segment the class-bound resolver looks up with
    the budget it was given: the tree resolver walks the canonical path,
    the linear one walks the canonical name part behind the last
    separator. *)
Definition last_hop_path (E : environment) (me : vfs_class) (target : string)
    : string :=
  match find_entry (MEDATA me) with
  | Some Find_entry_linear =>
      custom_canonicalize_pathname E
        (snd (split_dir_name (custom_canonicalize_pathname E target)))
  | _ => custom_canonicalize_pathname E target
  end.

(** A chain of [k] symlinks in final position: [ent] is a symlink, the
    lookup of its target by the resolver of the class that stops at the
    last path component (no follow) lands on an entry, and [k - 1] such
    links follow from there.  The states are those the lookups leave
    behind. *)
Inductive symlink_chain (E : environment) (me : vfs_class)
    : state → entry_id → nat → Prop :=
  | chain_end (s : state) (ent : entry_id) : symlink_chain E me s ent 0
  | chain_hop (s : state) (ent : entry_id) (k : nat)
      (y : vfs_s_entry) (ino : inode_id) (x : vfs_s_inode) (linkname : string)
      (dir : inode_id) (xd : vfs_s_inode) (r : vfs_s_super) (fuel : nat)
      (target : string) (s1 : state) (ent' : entry_id) (s2 : state) :
      entries s !! ent = Some y →
      e_ino y = Some ino →
      inodes s !! ino = Some x →
      S_ISLNK (st_mode (i_st x)) = true →
      i_linkname x = Some linkname →
      e_dir y = Some dir →
      symlink_target E fuel me (e_dir y) linkname s = Ret target s1 →
      inodes s1 !! dir = Some xd →
      supers_heap s1 !! i_super xd = Some r →
      ends_in_segment (last_hop_path E me target) = true →
      class_find_entry E fuel me (s_root r) target LINK_NO_FOLLOW 0 s1
        = Ret (Some ent') s2 →
      symlink_chain E me s2 ent' k →
      symlink_chain E me s ent (S k).

(** [m2] returns whatever [m1] returns. *)
Definition refines {A} (m1 m2 : M A) : Prop :=
  ∀ s a s', m1 s = Ret a s' → m2 s = Ret a s'.

(** What [find_entry_tree] does with the entry of the last path
    component once [vfs_s_resolve_symlink] has answered: the entry is
    returned if it has an inode. *)
Definition after_last_hop (r : option entry_id) : M (option entry_id) :=
  match r with
  | None => ret None
  | Some e =>
      do y <- get_entry e;
      match e_ino y with
      | None => ret None
      | Some _ => ret r
      end
  end.





(** [tree_at s super ino Is Es]: in [s], the inodes [Is] (with [ino] first)
    and the entries [Es] form a tree below [ino]: every inode belongs to
    [super] and has at most one link, the children of a directory are
    entries that name it as their directory, and no inode or entry occurs
    twice. *)
Inductive tree_at (s : state) (super : super_id)
    : inode_id → list inode_id → list entry_id → Prop :=
  | tree_node (ino : inode_id) (x : vfs_s_inode) (Is : list inode_id)
      (Es : list entry_id) :
      inodes s !! ino = Some x →
      i_super x = super →
      i_nlink x ≤ 1 →
      kids_at s super ino (i_subdir x) Is Es →
      ino ∉ Is →
      tree_at s super ino (ino :: Is) Es
with kids_at (s : state) (super : super_id)
    : inode_id → list entry_id → list inode_id → list entry_id → Prop :=
  | kids_nil (dir : inode_id) : kids_at s super dir [] [] []
  | kids_cons (dir : inode_id) (ent : entry_id) (ents : list entry_id)
      (y : vfs_s_entry) (ino : inode_id) (Ic Is : list inode_id)
      (Ec Es : list entry_id) :
      entries s !! ent = Some y →
      e_dir y = Some dir →
      e_ino y = Some ino →
      tree_at s super ino Ic Ec →
      kids_at s super dir ents Is Es →
      ent ∉ Ec →
      ent ∉ Es →
      (∀ i, i ∈ Ic → i ∉ Is) →
      (∀ e, e ∈ Ec → e ∉ Es) →
      kids_at s super dir (ent :: ents) (Ic ++ Is) (ent :: Ec ++ Es).

Scheme tree_at_mut := Minimality for tree_at Sort Prop
  with kids_at_mut := Minimality for kids_at Sort Prop.
Combined Scheme tree_kids_ind from tree_at_mut, kids_at_mut.

(** [n] decrements of an [int]. *)
Definition dec_int (n : nat) (z : Z) : Z := Nat.iter n (λ v, wrap_int (v - 1)) z.

(** What the free of one inode tells the other files. *)
Definition own_events (me : vfs_class) (ino : inode_id) (x : vfs_s_inode)
    : list event :=
  ((if free_inode (MEDATA me) then [Call_free_inode ino] else [])
   ++ match i_localname x with
      | Some localname => [Host_unlink localname]
      | None => []
      end)%list.

(** [s2] is [s1] without the inodes [Is] and the entries [Es]; the
    counters have gone down by their numbers. *)
Definition freed (s1 s2 : state) (super : super_id) (Is : list inode_id)
    (Es : list entry_id) : Prop :=
  (∀ i, inodes s2 !! i = if decide (i ∈ Is) then None else inodes s1 !! i)
  ∧ (∀ e, entries s2 !! e = if decide (e ∈ Es) then None else entries s1 !! e)
  ∧ (∀ su, supers_heap s2 !! su
           = if decide (su = super)
             then (λ r, set_s_ino_usage (dec_int (List.length Is) (s_ino_usage r)) r)
                    <$> supers_heap s1 !! su
             else supers_heap s1 !! su)
  ∧ total_inodes s2 = dec_int (List.length Is) (total_inodes s1)
  ∧ total_entries s2 = dec_int (List.length Es) (total_entries s1)
  ∧ ∃ evs, trace s2 = (trace s1 ++ evs)%list.

(** [s1] has the inodes [Is] and the entries [Es] as [s] has them, up to
    the back pointer [ino->ent]. *)
Definition agree (s s1 : state) (Is : list inode_id) (Es : list entry_id) : Prop :=
  (∀ i, i ∈ Is → set_i_ent None <$> inodes s1 !! i = set_i_ent None <$> inodes s !! i)
  ∧ (∀ e, e ∈ Es → entries s1 !! e = entries s !! e).


(** What the induction over a cache tree carries: the free of the tree
    below [ino], from any state that still has the tree. *)
Definition tree_frees (me : vfs_class) (s : state) (super : super_id) (ino : inode_id)
    (Is : list inode_id) (Es : list entry_id) : Prop :=
  ∀ (s1 : state) (r1 : vfs_s_super) (fuel : nat),
    agree s s1 Is Es →
    supers_heap s1 !! super = Some r1 →
    (2 * (List.length Is + List.length Es) ≤ fuel)%nat →
    ∃ s2, vfs_s_free_inode fuel me (Some ino) s1 = Ret tt s2
          ∧ freed s1 s2 super Is Es
          ∧ ∀ x, inodes s !! ino = Some x →
              ∃ evs, trace s2 = (trace s1 ++ evs ++ own_events me ino x)%list.

(** The same for the loop over the children of [dir]. *)
Definition kids_free (me : vfs_class) (s : state) (super : super_id) (dir : inode_id)
    (ents : list entry_id) (Is : list inode_id) (Es : list entry_id) : Prop :=
  ∀ (s1 : state) (r1 : vfs_s_super) (fuel : nat) (xd : vfs_s_inode),
    agree s s1 Is Es →
    supers_heap s1 !! super = Some r1 →
    inodes s1 !! dir = Some xd →
    i_subdir xd = ents →
    dir ∉ Is →
    (1 + 2 * (List.length Is + List.length Es) ≤ fuel)%nat →
    ∃ s2, free_subdir fuel me dir s1 = Ret tt s2
          ∧ freed (upd_inodes (insert dir (set_i_subdir [] xd)) s1) s2 super Is Es.


(** The inode [find_entry_linear] makes for a directory it has to load:
    [vfs_s_default_stat (me, S_IFDIR | 0755)] numbered by
    [vfs_s_new_inode]. *)
Definition new_dir_inode (super : super_id) (ent : option entry_id) (s : state)
    : vfs_s_inode :=
  mk_inode super ent []
    (mk_stat (Z.land (Z.lor S_IFDIR 493) (Z.lnot (host_umask s))) 0
       (inode_counter s) (rdev s) 0 (host_uid s) (host_gid s) 0
       (host_time s) (host_time s) (host_time s))
    None None 0.







(** * The rest of the file

    The stat family, the directory iterator, seeking, the superblock
    identifiers and the line readers of the network back ends. *)

(** [off_t]: signed, 64 bits. *)
Definition wrap_off (z : Z) : Z := (z + 2 ^ 63) mod 2 ^ 64 - 2 ^ 63.

Definition SEEK_CUR : Z := 1.
Definition SEEK_END : Z := 2.
Definition EINTR : Z := 4.

(** What the rest of the file takes from outside: a constant of
    [global.h] and the [lseek] of the host. *)
Record host_io := mk_host_io {
  MC_MAXPATHLEN : Z;
  (* lseek (fd, offset, whence) of the host: position or -1, and errno *)
  host_lseek : Z → Z → Z → state → Z * Z
}.

Definition set_fh_pos (pos : Z) (fh : vfs_file_handler_t) : vfs_file_handler_t :=
  mk_fh (fh_ino fh) pos (fh_handle fh) (fh_changed fh) (fh_linear fh).




(** [memcpy (dest, src, n)] on the text of [dest]: the first [n]
    characters are replaced, nothing is appended. *)
Definition memcpy (dest src : string) (n : nat) : string :=
  substring 0 n src ++ substring n (String.length dest - n) dest.

(** One [read (fd, p, 1)] of the host: a byte, end of file (0), or -1 with
    [errno] [EINTR] or another one. *)
Inductive read_result :=
  | Read_byte (c : ascii)
  | Read_eof
  | Read_eintr
  | Read_error.

(** A descriptor is the list of the answers its reads will get; past the
    end of the list it is at end of file. *)
Definition next_read (sock : list read_result) : read_result * list read_result :=
  match sock with
  | [] => (Read_eof, [])
  | r :: sock' => (r, sock')
  end.

(** [tty_enable_interrupt_key] and [tty_disable_interrupt_key]. *)
Inductive tty_call :=
  | Tty_enable
  | Tty_disable.

(** A write through [buf + i]: outside the buffer it is a fault. *)
Definition store (i : Z) (c : ascii) (buf : list ascii) : M (list ascii) :=
  if (0 <=? i) && (i <? Z.of_nat (List.length buf))
  then ret (<[Z.to_nat i := c]> buf)
  else fault.

(** A read through [buf + i]. *)
Definition load (i : Z) (buf : list ascii) : M ascii :=
  if 0 <=? i then deref (buf !! Z.to_nat i) else fault.

Definition NUL : ascii := "000"%char.
Definition NL : ascii := "010"%char.

(** What a line reader hands back: its value, the buffer, the rest of the
    descriptor, and the bytes it wrote to the log file. *)
Record line_read := mk_line_read {
  lr_value : Z;
  lr_buf : list ascii;
  lr_sock : list read_result;
  lr_log : list ascii
}.

Definition log_byte (logging : bool) (c : ascii) (log : list ascii) : list ascii :=
  if logging then (log ++ [c])%list else log.

(** The [while (read (sock, &c, sizeof (c)) > 0)] loop of
    [vfs_s_get_line]. *)
Fixpoint get_line_discard (logging : bool) (sock : list read_result)
    (buf : list ascii) (log : list ascii) : line_read :=
  match sock with
  | [] => mk_line_read 0 buf [] log
  | Read_byte c :: sock' =>
      let log := log_byte logging c log in
      if Ascii.eqb c NL then mk_line_read 1 buf sock' log
      else get_line_discard logging sock' buf log
  | _ :: sock' => mk_line_read 0 buf sock' log
  end.

(** The [for (i = 0; i < buf_len - 1; i++, buf++)] loop of
    [vfs_s_get_line] with [rounds] rounds to go, and what follows it. *)
Fixpoint get_line_fill (logging : bool) (rounds : nat) (i : Z)
    (sock : list read_result) (buf : list ascii) (term : ascii)
    (log : list ascii) : M line_read :=
  match rounds with
  | O =>
      (* Line is too long - terminate buffer and discard the rest of line *)
      do buf <- store i NUL buf;
      ret (get_line_discard logging sock buf log)
  | S rounds =>
      let '(r, sock) := next_read sock in
      match r with
      | Read_byte c =>
          do buf <- store i c buf;
          let log := log_byte logging c log in
          if Ascii.eqb c term then
            do buf <- store i NUL buf;
            ret (mk_line_read 1 buf sock log)
          else get_line_fill logging rounds (i + 1) sock buf term log
      | _ => ret (mk_line_read 0 buf sock log)
      end
  end.

(** What [vfs_s_get_line_interruptible] hands back: its value, the
    buffer, the rest of the descriptor and its calls of the terminal. *)
Record line_read_tty := mk_line_read_tty {
  lt_value : Z;
  lt_buf : list ascii;
  lt_fd : list read_result;
  lt_tty : list tty_call
}.

(** The [for (i = 0; i < size - 1; i++)] loop of
    [vfs_s_get_line_interruptible] with [rounds] rounds to go, and what
    follows it. *)
Fixpoint get_line_interruptible_loop (rounds : nat) (i size : Z)
    (fd : list read_result) (buffer : list ascii) (tty : list tty_call)
    : M line_read_tty :=
  match rounds with
  | O =>
      do buffer <- store (size - 1) NUL buffer;
      ret (mk_line_read_tty 0 buffer fd tty)
  | S rounds =>
      let '(r, fd) := next_read fd in
      do buffer <-
        match r with
        | Read_byte c => store i c buffer
        | _ => ret buffer
        end;
      let tty := (tty ++ [Tty_disable])%list in
      match r with
      | Read_eintr =>
          do buffer <- store i NUL buffer;
          ret (mk_line_read_tty EINTR buffer fd tty)
      | Read_eof =>
          do buffer <- store i NUL buffer;
          ret (mk_line_read_tty 0 buffer fd tty)
      | _ =>
          do c <- load i buffer;
          if Ascii.eqb c NL then
            do buffer <- store i NUL buffer;
            ret (mk_line_read_tty 1 buffer fd tty)
          else get_line_interruptible_loop rounds (i + 1) size fd buffer tty
      end
  end.

Section Rest.
Variable E : environment.
Variable H : host_io.

(** ** stat and friends *)

(** [*buf = ino->st] happens on success only: the buffer is part of the
    result. *)
Definition vfs_s_internal_stat (fuel : nat) (me : vfs_class) (path : string)
    (flag : Z) : M (Z * option stat) :=
  do ino <- vfs_s_inode_from_path E fuel me path flag;
  match ino with
  | None => ret (-1, None)
  | Some ino =>
      do x <- get_inode ino;
      ret (0, Some (i_st x))
  end.

Definition vfs_s_stat (fuel : nat) (me : vfs_class) (path : string)
    : M (Z * option stat) :=
  vfs_s_internal_stat fuel me path (FL_FOLLOW E).

Definition vfs_s_lstat (fuel : nat) (me : vfs_class) (path : string)
    : M (Z * option stat) :=
  vfs_s_internal_stat fuel me path (FL_NONE E).


(** [size] is a [size_t]; the length goes back as an [int].  The second
    component is the text of [buf] after the call. *)
Definition vfs_s_readlink (fuel : nat) (me : vfs_class) (path : string)
    (buf : string) (size : Z) : M (Z * string) :=
  do ino <- vfs_s_inode_from_path E fuel me path 0;
  match ino with
  | None => ret (-1, buf)
  | Some ino =>
      do x <- get_inode ino;
      if negb (S_ISLNK (st_mode (i_st x))) then ERRNOR EINVAL (-1, buf)
      else
        match i_linkname x with
        | None => ERRNOR EFAULT (-1, buf)
        | Some linkname =>
            let len := Z.of_nat (String.length linkname) in
            let len := if size <? len then size else len in
            (* readlink() does not append a NUL character to buf *)
            ret (wrap_int len, memcpy buf linkname (Z.to_nat len))
        end
  end.

(** ** The directory iterator *)


(** ** Seeking *)

Definition vfs_s_lseek (fh : vfs_file_handler_t) (offset whence : Z)
    : M (Z * vfs_file_handler_t) :=
  do x <- get_inode (fh_ino fh);
  let size := st_size (i_st x) in
  if is_linear_open (fh_linear fh) then
    vfs_die "cannot lseek() after linear_read!"
  else if negb (fh_handle fh =? -1) then
    (* If we have local file opened, we want to work with it *)
    do s <- get_state;
    let '(retval, errno) := host_lseek H (fh_handle fh) offset whence s in
    (if retval =? -1 then
       do x <- get_inode (fh_ino fh);
       do r <- get_super (i_super x);
       modify (set_verrno errno)
     else ret tt) ;;
    ret (retval, fh)
  else
    let offset :=
      if whence =? SEEK_CUR then wrap_off (offset + fh_pos fh)
      else if whence =? SEEK_END then wrap_off (offset + size)
      else offset in
    let pos :=
      if offset <? 0 then 0
      else if offset <? size then offset
      else size in
    ret (pos, set_fh_pos pos fh).

(** ** mc support *)

(** [func] is called for its effect: the result is the list of the names
    it is called with.  [g_strconcat] of a null first string is null. *)
Fixpoint fill_names_loop (me : vfs_class) (l : list super_id)
    : M (list (option string)) :=
  match l with
  | [] => ret []
  | super :: l' =>
      do r <- get_super super;
      let name :=
        match s_name r with
        | Some n => Some (n ++ "#" ++ c_prefix me ++ "/")
        | None => None
        end in
      do names <- fill_names_loop me l';
      ret (name :: names)
  end.

Definition vfs_s_fill_names (me : vfs_class) : M (list (option string)) :=
  do s <- get_state;
  fill_names_loop me (supers s).

Definition vfs_s_ferrno (me : vfs_class) : M Z :=
  do s <- get_state;
  ret (verrno s).


(** Return the local copy.  Since we are using our cache, we do nothing. *)
Definition vfs_s_ungetlocalcopy (me : vfs_class) (path local : string)
    (has_changed : Z) : M Z :=
  ret 0.

(** ** Stamping support *)

Definition vfs_s_getid (fuel : nat) (me : vfs_class) (path : string)
    : M (option super_id) :=
  do p <- vfs_s_get_path E fuel me path (FL_NO_OPEN E);
  match p with
  | None => ret None
  | Some (_, archive) => ret (Some archive)
  end.

(** [id->me] is the class the superblock belongs to. *)
Definition vfs_s_free (fuel : nat) (me : vfs_class) (id : super_id) : M unit :=
  do r <- get_super id;
  vfs_s_free_super fuel me id.

(** ** Utility functions for networked filesystems *)

Definition vfs_s_get_line (me : vfs_class) (sock : list read_result)
    (buf : list ascii) (buf_len : Z) (term : ascii) : M line_read :=
  do s <- get_state;
  get_line_fill (bool_decide (is_Some (logfile s)))
    (Z.to_nat (wrap_int (buf_len - 1))) 0 sock buf term [].

Definition vfs_s_get_line_interruptible (me : vfs_class) (buffer : list ascii)
    (size : Z) (fd : list read_result) : M line_read_tty :=
  get_line_interruptible_loop (Z.to_nat (wrap_int (size - 1))) 0 size fd buffer
    [Tty_enable].

End Rest.


(** ** What a call leaves alone *)

(** Every run of [m] that returns relates the state before to the state
    after by [R]. *)
Definition preserves {A} (R : state → state → Prop) (m : M A) : Prop :=
  ∀ s a s', m s = Ret a s' → R s s'.

(** The two states differ in the heap, the two global counts and the
    trace at most: the list of superblocks, [verrno], the inode counter,
    the flags of the class and the host are the same. *)
Definition same_class_data (s s' : state) : Prop :=
  supers s' = supers s ∧ verrno s' = verrno s
  ∧ inode_counter s' = inode_counter s ∧ rdev s' = rdev s ∧ flush s' = flush s
  ∧ logfile s' = logfile s ∧ host_umask s' = host_umask s
  ∧ host_uid s' = host_uid s ∧ host_gid s' = host_gid s
  ∧ host_time s' = host_time s.

(** The two states differ in [verrno] at most. *)
Definition same_but_verrno (s s' : state) : Prop :=
  s' = set_verrno (verrno s') s.

(** ** More sample classes *)

(** A class whose archives are all different from any name and cannot be
    opened. *)
Definition refusing_hooks : vfs_s_subclass :=
  mk_subclass 0 false false false true false false None
    (Some (fun _ _ _ _ _ => 0))
    (Some (fun _ _ _ s => (-1, s)))
    None None None None None None.

Definition refusing_class : vfs_class :=
  vfs_s_init_class sample_env empty_class refusing_hooks.

(** A class whose [open_archive] names the superblock and gives it the
    root 9. *)
Definition sample_open_archive (super : super_id) (name : string)
    (op : option string) (s : state) : Z * state :=
  (0, upd_supers_heap
        (insert super (mk_super (Some "new.tar") (Some 9%positive) 0 0 0)) s).

Definition opening_hooks : vfs_s_subclass :=
  mk_subclass 0 false false false true false false None
    (Some (fun _ _ _ _ _ => 0))
    (Some sample_open_archive)
    None None None None None None.

Definition opening_class : vfs_class :=
  vfs_s_init_class sample_env empty_class opening_hooks.

(** [cache_at s super ino Is Es Hs]: the part of the cache of [s] that a
    free of [ino] walks.  The inodes [Is] (with [ino] first) have at most
    one link and belong to [super]; the children of each are entries
    that name it as their directory, the entries [Es]; the inode of such
    an entry is again one of [Is], or it is one of the inodes [Hs], which
    other links hold ([nlink > 1]) and below which the walk does not go.
    No inode or entry is reached twice. *)
Inductive cache_at (s : state) (super : super_id)
    : inode_id → list inode_id → list entry_id → list inode_id → Prop :=
  | cache_node (ino : inode_id) (x : vfs_s_inode) (Is : list inode_id)
      (Es : list entry_id) (Hs : list inode_id) :
      inodes s !! ino = Some x →
      i_super x = super →
      i_nlink x ≤ 1 →
      ckids_at s super ino (i_subdir x) Is Es Hs →
      ino ∉ Is →
      ino ∉ Hs →
      cache_at s super ino (ino :: Is) Es Hs
with ckids_at (s : state) (super : super_id)
    : inode_id → list entry_id → list inode_id → list entry_id → list inode_id
      → Prop :=
  | ckids_nil (dir : inode_id) : ckids_at s super dir [] [] [] []
  | ckids_tree (dir : inode_id) (ent : entry_id) (ents : list entry_id)
      (y : vfs_s_entry) (ino : inode_id) (Ic Is : list inode_id)
      (Ec Es : list entry_id) (Hc Hs : list inode_id) :
      entries s !! ent = Some y →
      e_dir y = Some dir →
      e_ino y = Some ino →
      cache_at s super ino Ic Ec Hc →
      ckids_at s super dir ents Is Es Hs →
      ent ∉ Ec →
      ent ∉ Es →
      (∀ i, i ∈ Ic → i ∉ Is) →
      (∀ e, e ∈ Ec → e ∉ Es) →
      (∀ i, i ∈ Ic → i ∉ Hs) →
      (∀ i, i ∈ Hc → i ∉ Is) →
      (∀ i, i ∈ Hc → i ∉ Hs) →
      ckids_at s super dir (ent :: ents) (Ic ++ Is) (ent :: Ec ++ Es) (Hc ++ Hs)
  | ckids_held (dir : inode_id) (ent : entry_id) (ents : list entry_id)
      (y : vfs_s_entry) (ino : inode_id) (x : vfs_s_inode) (Is : list inode_id)
      (Es : list entry_id) (Hs : list inode_id) :
      entries s !! ent = Some y →
      e_dir y = Some dir →
      e_ino y = Some ino →
      inodes s !! ino = Some x →
      1 < i_nlink x →
      ckids_at s super dir ents Is Es Hs →
      ent ∉ Es →
      ino ∉ Is →
      ino ∉ Hs →
      ckids_at s super dir (ent :: ents) Is (ent :: Es) (ino :: Hs).

Scheme cache_at_mut := Minimality for cache_at Sort Prop
  with ckids_at_mut := Minimality for ckids_at Sort Prop.
Combined Scheme cache_kids_ind from cache_at_mut, ckids_at_mut.

(** An inode that loses the link of its entry and outlives it. *)
Definition kept (x : vfs_s_inode) : vfs_s_inode :=
  set_i_nlink (wrap_u64 (i_nlink x - 1)) (set_i_ent None x).

(** [s2] is [s1] without the inodes [Is] and the entries [Es]; the inodes
    [Hs] have lost one link and their entry, and nothing else of them or
    below them has changed; the counters have gone down by the numbers of
    [Is] and [Es]. *)
Definition released (s1 s2 : state) (super : super_id) (Is : list inode_id)
    (Es : list entry_id) (Hs : list inode_id) : Prop :=
  (∀ i, inodes s2 !! i
        = if decide (i ∈ Is) then None
          else if decide (i ∈ Hs) then kept <$> inodes s1 !! i
          else inodes s1 !! i)
  ∧ (∀ e, entries s2 !! e = if decide (e ∈ Es) then None else entries s1 !! e)
  ∧ (∀ su, supers_heap s2 !! su
           = if decide (su = super)
             then (λ r, set_s_ino_usage (dec_int (List.length Is) (s_ino_usage r)) r)
                    <$> supers_heap s1 !! su
             else supers_heap s1 !! su)
  ∧ total_inodes s2 = dec_int (List.length Is) (total_inodes s1)
  ∧ total_entries s2 = dec_int (List.length Es) (total_entries s1)
  ∧ ∃ evs, trace s2 = (trace s1 ++ evs)%list.

(** What the induction over [cache_at] carries: the free of [ino] from
    any state that still has this part of the cache. *)
Definition cache_frees (me : vfs_class) (s : state) (super : super_id)
    (ino : inode_id) (Is : list inode_id) (Es : list entry_id)
    (Hs : list inode_id) : Prop :=
  ∀ (s1 : state) (r1 : vfs_s_super) (fuel : nat),
    agree s s1 (Is ++ Hs) Es →
    supers_heap s1 !! super = Some r1 →
    (2 * (List.length Is + List.length Es) ≤ fuel)%nat →
    ∃ s2, vfs_s_free_inode fuel me (Some ino) s1 = Ret tt s2
          ∧ released s1 s2 super Is Es Hs
          ∧ ∀ x, inodes s !! ino = Some x →
              ∃ evs, trace s2 = (trace s1 ++ evs ++ own_events me ino x)%list.

(** The same for the loop over the children of [dir]. *)
Definition ckids_free (me : vfs_class) (s : state) (super : super_id)
    (dir : inode_id) (ents : list entry_id) (Is : list inode_id)
    (Es : list entry_id) (Hs : list inode_id) : Prop :=
  ∀ (s1 : state) (r1 : vfs_s_super) (fuel : nat) (xd : vfs_s_inode),
    agree s s1 (Is ++ Hs) Es →
    supers_heap s1 !! super = Some r1 →
    inodes s1 !! dir = Some xd →
    i_subdir xd = ents →
    dir ∉ Is →
    dir ∉ Hs →
    (1 + 2 * (List.length Is + List.length Es) ≤ fuel)%nat →
    ∃ s2, free_subdir fuel me dir s1 = Ret tt s2
          ∧ released (upd_inodes (insert dir (set_i_subdir [] xd)) s1) s2
              super Is Es Hs.

(** [tree_state] while the directory [a] is open: the handle holds a link
    of its inode. *)
Definition open_dir_state : state :=
  upd_inodes (insert 2%positive
                (mk_inode 1 (Some 1%positive) [2%positive] (dir_st 2) None None 0))
    tree_state.

(** * Properties *)

(** ** Running the monad *)

Lemma bind_Ret {A B} (m : M A) (k : A → M B) s a s' :
  m s = Ret a s' → bind m k s = k a s'.
Proof. intros H. unfold bind. now rewrite H. Qed.

Lemma bind_inv {A B} (m : M A) (k : A → M B) s b s2 :
  bind m k s = Ret b s2 → ∃ a s1, m s = Ret a s1 ∧ k a s1 = Ret b s2.
Proof.
  unfold bind. destruct (m s) as [a s1| | |] eqn:Hm; try discriminate.
  intros H. eauto.
Qed.

Lemma get_inode_Some ino x s :
  inodes s !! ino = Some x → get_inode ino s = Ret x s.
Proof. intros H. unfold get_inode. now rewrite H. Qed.

Lemma get_entry_Some ent y s :
  entries s !! ent = Some y → get_entry ent s = Ret y s.
Proof. intros H. unfold get_entry. now rewrite H. Qed.

Lemma get_super_Some super r s :
  supers_heap s !! super = Some r → get_super super s = Ret r s.
Proof. intros H. unfold get_super. now rewrite H. Qed.

(** ** Proof tools *)

Ltac munfold :=
  unfold bind, ret, modify, emit, get_state, get_inode, put_inode, get_entry,
    put_entry, get_super, put_super, deref, fault, ERRNOR, CALL, vfs_die,
    out_of_fuel, free_inode_mem, free_entry_mem, free_super_mem in *.

Ltac mproj :=
  cbn [inodes entries supers_heap total_inodes total_entries verrno supers
       inode_counter rdev flush logfile host_umask host_uid host_gid host_time
       trace upd_inodes upd_entries upd_supers_heap set_total_inodes
       set_total_entries set_verrno set_supers set_inode_counter set_flush
       set_logfile log_event log_events negb andb orb fst snd
       st_mode st_nlink st_ino st_dev st_rdev st_uid st_gid st_size st_atime
       st_mtime st_ctime set_st_nlink set_st_ino set_st_dev
       i_super i_ent i_subdir i_st i_linkname i_localname i_timestamp i_nlink
       set_i_ent set_i_subdir set_i_st set_i_localname set_i_nlink
       e_dir e_name e_ino set_e_dir
       s_name s_root s_want_stale s_fd_usage s_ino_usage set_s_root
       set_s_want_stale set_s_fd_usage set_s_ino_usage
       fh_ino fh_pos fh_handle fh_changed fh_linear dh_cur dh_dir] in *.

Ltac msimpl := repeat (progress (munfold; mproj)).
Tactic Notation "mrew" constr(H) := rewrite H; msimpl.

Lemma lookup_fresh {V} (m : gmap positive V) : m !! fresh (dom m) = None.
Proof. apply not_elem_of_dom. apply is_fresh. Qed.

Lemma fresh_ne {V} (m : gmap positive V) k v : m !! k = Some v → fresh (dom m) ≠ k.
Proof. intros H Heq. rewrite <- Heq, lookup_fresh in H. discriminate. Qed.

Ltac solve_ne :=
  first [ assumption | apply not_eq_sym; assumption
        | eapply fresh_ne; eassumption
        | apply not_eq_sym; eapply fresh_ne; eassumption
        | congruence ].

Ltac mlookup :=
  repeat (first [ rewrite lookup_insert_eq
                | rewrite lookup_insert_ne by solve_ne
                | rewrite lookup_delete_eq
                | rewrite lookup_delete_ne by solve_ne ]; msimpl).

(** ** Strings *)

Lemma substring_0_length (a : string) : substring 0 (String.length a) a = a.
Proof. induction a as [|c a IH]; cbn; [reflexivity | now rewrite IH]. Qed.

Lemma substring_segment (path : string) :
  substring 0 (segment_length path) path = until_sep path.
Proof.
  induction path as [|c path IH]; cbn; [reflexivity|].
  destruct (is_sep c); cbn; [reflexivity | now rewrite IH].
Qed.

Lemma length_until_sep (path : string) :
  String.length (until_sep path) = segment_length path.
Proof.
  induction path as [|c path IH]; cbn; [reflexivity|].
  destruct (is_sep c); cbn; [reflexivity | now rewrite IH].
Qed.

(** The test of the scan is equality with the text before the next
    separator. *)
Lemma segment_matches_spec (name path : string) :
  segment_matches name path (segment_length path) = true ↔ name = until_sep path.
Proof.
  unfold segment_matches. rewrite andb_true_iff, Nat.eqb_eq, String.eqb_eq.
  rewrite substring_segment. split.
  - intros [Hlen Heq]. rewrite <- Hlen, substring_0_length in Heq. exact Heq.
  - intros ->. rewrite length_until_sep. split; [reflexivity|].
    rewrite <- length_until_sep. apply substring_0_length.
Qed.

Lemma segment_matches_false (name path : string) :
  name ≠ until_sep path → segment_matches name path (segment_length path) = false.
Proof.
  intros Hne. destruct (segment_matches _ _ _) eqn:Hm; [|reflexivity].
  apply segment_matches_spec in Hm. contradiction.
Qed.

Lemma scan_subdir_none (l : list entry_id) (path : string) (s : state) :
  Forall (λ e, ∃ y, entries s !! e = Some y ∧ e_name y ≠ until_sep path) l →
  scan_subdir l path (segment_length path) s = Ret None s.
Proof.
  induction 1 as [|e l [y [Hy Hne]] _ IH]; cbn; [reflexivity|].
  msimpl. mrew Hy. mrew (segment_matches_false _ _ Hne). exact IH.
Qed.

Lemma is_empty_false (path : string) : path ≠ EmptyString → is_empty path = false.
Proof. destruct path; [contradiction | reflexivity]. Qed.

Lemma is_empty_true (path : string) : is_empty path = true ↔ path = EmptyString.
Proof. destruct path; cbn; split; congruence. Qed.

(** ** Class wiring: [nothingisopen] *)

(** C10. The [nothingisopen] slot filled by [vfs_s_init_class] answers 1
    for every superblock id in every state, whatever [fd_usage] is, and
    leaves the state alone: the core always tells the garbage collector
    that nothing is open. *)
Theorem nothingisopen_always_1 :
  ∀ (E : environment) (vclass : vfs_class) (sub : vfs_s_subclass)
    (id : option super_id) (s : state),
    c_nothingisopen (vfs_s_init_class E vclass sub) = Some M_vfs_s_nothingisopen
    ∧ call_nothingisopen (vfs_s_init_class E vclass sub) id s = Ret 1 s.
Proof. intros. split; reflexivity. Qed.

(** ** Freshness *)

Lemma setctl_flush_arms E fuel me path arg s :
  (VFS_SETCTL_FLUSH E =? VFS_SETCTL_STALE_DATA E) = false →
  (VFS_SETCTL_FLUSH E =? VFS_SETCTL_LOGFILE E) = false →
  vfs_s_setctl E fuel me path (VFS_SETCTL_FLUSH E) arg s = Ret 1 (set_flush 1 s).
Proof.
  intros H1 H2. unfold vfs_s_setctl. rewrite H1, H2, Z.eqb_refl. reflexivity.
Qed.

(** C5. With the flush flag set, [dir_uptodate] answers 0 and clears the
    flag, so the check that follows is decided by the clock; with the flag
    clear it answers 1 exactly when the host's second is strictly before
    [ino->timestamp.tv_sec], and changes nothing. *)
Theorem dir_uptodate_flush_then_clock :
  ∀ (me : vfs_class) (ino : inode_id) (x : vfs_s_inode) (s : state),
    inodes s !! ino = Some x →
    (flush s ≠ 0 →
       vfs_s_dir_uptodate me (Some ino) s = Ret 0 (set_flush 0 s)
       ∧ flush (set_flush 0 s) = 0
       ∧ vfs_s_dir_uptodate me (Some ino) (set_flush 0 s)
         = Ret (if host_time s <? i_timestamp x then 1 else 0) (set_flush 0 s))
    ∧ (flush s = 0 →
       ∃ r, vfs_s_dir_uptodate me (Some ino) s = Ret r s
            ∧ (r = 1 ∨ r = 0)
            ∧ (r = 1 ↔ host_time s < i_timestamp x)).
Proof.
  intros me ino x s Hx. split.
  - intros Hf. apply Z.eqb_neq in Hf.
    repeat split.
    + unfold vfs_s_dir_uptodate, bind, get_state. now rewrite Hf.
    + unfold vfs_s_dir_uptodate, bind, get_state, get_inode. cbn.
      rewrite Hx. cbn. now destruct (host_time s <? i_timestamp x).
  - intros Hf. unfold vfs_s_dir_uptodate, bind, get_state, get_inode.
    rewrite Hf. cbn. rewrite Hx. cbn.
    destruct (host_time s <? i_timestamp x) eqn:Hlt.
    + exists 1. apply Z.ltb_lt in Hlt. cbn. intuition.
    + exists 0. apply Z.ltb_ge in Hlt. cbn. intuition lia.
Qed.

(** ** The tree resolver *)

Lemma length_skip_seps (path : string) :
  (String.length (skip_seps path) ≤ String.length path)%nat.
Proof.
  induction path as [|c path IH]; cbn; [lia|]. destruct (is_sep c); cbn; lia.
Qed.

Lemma length_advance (n : nat) (path : string) :
  (String.length (advance n path) ≤ String.length path)%nat.
Proof.
  revert path. induction n as [|n IH]; intros [|c path]; cbn; try lia.
  specialize (IH path). lia.
Qed.

Lemma skip_seps_head (path : string) :
  skip_seps path ≠ EmptyString →
  ∃ c rest, skip_seps path = String c rest ∧ is_sep c = false.
Proof.
  induction path as [|c path IH]; cbn; [contradiction|].
  destruct (is_sep c) eqn:Hc; [exact IH|]. intros _. eauto.
Qed.

Lemma segment_shortens (path : string) :
  skip_seps path ≠ EmptyString →
  (String.length (advance (segment_length (skip_seps path)) (skip_seps path))
   < String.length path)%nat.
Proof.
  intros Hne. pose proof (length_skip_seps path) as Hle.
  destruct (skip_seps_head path Hne) as (c & rest & Heq & Hc).
  rewrite Heq in *. cbn [segment_length]. rewrite Hc. cbn [advance].
  pose proof (length_advance (segment_length rest) rest). cbn in Hle. lia.
Qed.

(** A walk that resolves every segment returns the entry of the last
    segment, whatever the accumulator held when it started. *)
Lemma tree_walk_loop (E : environment) (rs : option entry_id → Z → M (option entry_id))
    (me : vfs_class) (follow flags : Z) (root : inode_id) (path : string)
    (s : state) (e : entry_id) (s' : state) :
  tree_walk E rs follow root path s e s' →
  ∀ (rounds : nat) (ent : option entry_id),
    (String.length path < rounds)%nat →
    find_entry_tree_loop E rs me rounds (Some root) path ent follow flags s
    = Ret (Some e) s'.
Proof.
  induction 1 as [root x path e0 e y ino s s1 Hne Hx Hscan Hrs Hy Hino Hend
                 |root x path e0 e y ino s s1 e' s2 Hne Hx Hscan Hrs Hy Hino Hmore _ IH];
    intros rounds ent Hrounds;
    pose proof (segment_shortens path Hne) as Hshort;
    (destruct rounds as [|rounds]; [lia|]);
    cbn [find_entry_tree_loop];
    rewrite (is_empty_false _ Hne);
    rewrite (bind_Ret _ _ _ _ _ (get_inode_Some _ _ _ Hx));
    rewrite (bind_Ret _ _ _ _ _ Hscan);
    rewrite (bind_Ret _ _ _ _ _ eq_refl);
    rewrite (bind_Ret _ _ _ _ _ Hrs);
    rewrite (bind_Ret _ _ _ _ _ (get_entry_Some _ _ _ Hy));
    rewrite Hino.
  - destruct rounds as [|rounds]; [lia|]. cbn [find_entry_tree_loop].
    rewrite Hend. reflexivity.
  - apply IH. lia.
Qed.

(** C3. When the path is empty after the leading separators are skipped,
    the loop of [find_entry_tree] returns its accumulator [ent], sets no
    errno and changes nothing; for a path that is empty from the start the
    accumulator is still null, so the function returns null without an
    error.  The accumulator is the last entry resolved: a walk that
    resolves every segment of a path returns the entry that the symlink
    follower gave back for the last segment, in the state it left,
    whatever the accumulator held before.  The null of the empty path
    stands for the root, which has no entry: [vfs_s_find_inode] of a
    class that is not remote answers the empty path with the root of the
    superblock. *)
Theorem find_entry_tree_exhausted :
  ∀ (E : environment) (fuel rounds : nat) (me : vfs_class) (root : inode_id)
    (follow flags : Z) (s : state),
    (∀ (path : string) (ent : option entry_id),
       skip_seps path = EmptyString →
       find_entry_tree_loop E (vfs_s_resolve_symlink E fuel me) me (S rounds)
         (Some root) path ent follow flags s = Ret ent s)
    ∧ (∀ a_path : string,
       skip_seps (custom_canonicalize_pathname E a_path) = EmptyString →
       vfs_s_find_entry_tree E (S fuel) me (Some root) a_path follow flags s
       = Ret None s)
    ∧ (∀ (path : string) (ent : option entry_id) (e : entry_id) (s' : state),
       tree_walk E (vfs_s_resolve_symlink E fuel me) follow root path s e s' →
       (String.length path ≤ rounds)%nat →
       find_entry_tree_loop E (vfs_s_resolve_symlink E fuel me) me (S rounds)
         (Some root) path ent follow flags s = Ret (Some e) s')
    ∧ (∀ (a_path : string) (e : entry_id) (s' : state),
       tree_walk E (vfs_s_resolve_symlink E fuel me) follow root
         (custom_canonicalize_pathname E a_path) s e s' →
       vfs_s_find_entry_tree E (S fuel) me (Some root) a_path follow flags s
       = Ret (Some e) s')
    ∧ (∀ (super : super_id) (r : vfs_s_super),
       supers_heap s !! super = Some r →
       Z.land (sub_flags (MEDATA me)) (VFS_S_REMOTE E) = 0 →
       vfs_s_find_inode E (S fuel) me super EmptyString follow flags s
       = Ret (s_root r) s).
Proof.
  intros. split; [|split; [|split; [|split]]].
  - intros path ent Hp. cbn. now rewrite Hp.
  - intros a_path Hp. cbn. now rewrite Hp.
  - intros path ent e s' Hwalk Hrounds.
    apply (tree_walk_loop E _ me follow flags root path s e s' Hwalk). lia.
  - intros a_path e s' Hwalk. cbn [vfs_s_find_entry_tree].
    apply (tree_walk_loop E _ me follow flags root _ s e s' Hwalk). lia.
  - intros super r Hr Hfl. cbn [vfs_s_find_inode].
    rewrite (bind_Ret _ _ _ _ _ (get_super_Some _ _ _ Hr)).
    rewrite Hfl. reflexivity.
Qed.

Lemma automake_spec E me root x r flags path s :
  inodes s !! root = Some x →
  supers_heap s !! i_super x = Some r →
  g_try_new0_ok E s = true →
  let ino := fresh (dom (inodes s)) in
  let e := fresh (dom (entries s)) in
  ∃ s1, vfs_s_automake E me root path flags s = Ret e s1
    ∧ entries s1 = <[e := mk_entry (Some root) (until_sep path) (Some ino)]> (entries s)
    ∧ inodes s1 =
        <[root := set_i_subdir (i_subdir x ++ [e]) x]>
          (<[ino := mk_inode (i_super x) (Some e) []
                      (mk_stat (Z.land (automake_mode E flags) (Z.lnot (host_umask s)))
                         1 (inode_counter s) (rdev s) 0 (host_uid s) (host_gid s) 0
                         (host_time s) (host_time s) (host_time s))
                      None None 0]> (inodes s))
    ∧ supers_heap s1 =
        <[i_super x := set_s_ino_usage (wrap_int (s_ino_usage r + 1)) r]> (supers_heap s)
    ∧ verrno s1 = verrno s.
Proof.
  intros Hx Hr Hmem ino e.
  unfold vfs_s_automake, vfs_s_generate_entry, vfs_s_default_stat,
    vfs_s_new_inode, vfs_s_new_entry, vfs_s_insert_entry.
  msimpl. mrew Hx. mrew Hmem. mrew Hr.
  mlookup. mrew Hx.
  eexists. split; [reflexivity|]. msimpl.
  repeat split.
  - now rewrite insert_insert_eq.
  - rewrite !insert_insert_eq. reflexivity.
Qed.

(** C2. A segment that the scan of the current directory does not find:
    without [FL_MKFILE] and [FL_MKDIR] the resolver stores [ENOENT] and
    returns null; with one of them [vfs_s_automake] creates, under the
    current directory, an entry named by the text up to the next separator
    whose inode was asked for with mode 0777, or 0777 | S_IFDIR when
    [FL_MKDIR] is set (the mode [default_stat] masks with the umask), and
    the walk goes on from that entry. *)
Theorem find_entry_tree_missing_segment :
  ∀ (E : environment) (fuel rounds : nat) (me : vfs_class) (root : inode_id)
    (x : vfs_s_inode) (path : string) (ent : option entry_id)
    (follow flags : Z) (s : state),
    let path' := skip_seps path in
    let rest := advance (segment_length path') path' in
    path' ≠ EmptyString →
    inodes s !! root = Some x →
    Forall (λ e, ∃ y, entries s !! e = Some y ∧ e_name y ≠ until_sep path')
      (i_subdir x) →
    (Z.land flags (Z.lor (FL_MKFILE E) (FL_MKDIR E)) = 0 →
       find_entry_tree_loop E (vfs_s_resolve_symlink E fuel me) me (S rounds)
         (Some root) path ent follow flags s
       = Ret None (set_verrno ENOENT s))
    ∧ (Z.land flags (Z.lor (FL_MKFILE E) (FL_MKDIR E)) ≠ 0 →
       g_try_new0_ok E s = true →
       is_Some (supers_heap s !! i_super x) →
       ∃ (e : entry_id) (ino : inode_id) (xi : vfs_s_inode) (s1 : state),
         vfs_s_automake E me root path' flags s = Ret e s1
         ∧ entries s !! e = None
         ∧ inodes s !! ino = None
         ∧ entries s1 !! e = Some (mk_entry (Some root) (until_sep path') (Some ino))
         ∧ inodes s1 !! ino = Some xi
         ∧ st_mode (i_st xi)
           = Z.land (if Z.land flags (FL_MKDIR E) =? 0 then 511 else Z.lor 511 S_IFDIR)
               (Z.lnot (host_umask s))
         ∧ i_nlink xi = 1
         ∧ i_ent xi = Some e
         ∧ i_super xi = i_super x
         ∧ inodes s1 !! root = Some (set_i_subdir (i_subdir x ++ [e]) x)
         ∧ find_entry_tree_loop E (vfs_s_resolve_symlink E fuel me) me (S rounds)
             (Some root) path ent follow flags s
           = (do ent' <- vfs_s_resolve_symlink E fuel me (Some e)
                           (if has_sep rest then LINK_FOLLOW E else follow);
              match ent' with
              | None => ret None
              | Some e' =>
                  do y <- get_entry e';
                  find_entry_tree_loop E (vfs_s_resolve_symlink E fuel me) me
                    rounds (e_ino y) rest ent' follow flags
              end) s1).
Proof.
  intros E fuel rounds me root x path ent follow flags s path' rest Hne Hx Hscan.
  split.
  - intros Hfl. cbn [find_entry_tree_loop]. fold path'.
    rewrite (is_empty_false _ Hne). msimpl. mrew Hx.
    rewrite (scan_subdir_none _ _ _ Hscan). msimpl.
    rewrite Hfl. reflexivity.
  - intros Hfl Hmem [r Hr].
    destruct (automake_spec E me root x r flags path' s Hx Hr Hmem)
      as (s1 & Hrun & Hents & Hinos & _ & _).
    eexists _, _, _, s1. split; [exact Hrun|].
    split; [apply lookup_fresh|]. split; [apply lookup_fresh|].
    split; [rewrite Hents; apply lookup_insert_eq|].
    split.
    { rewrite Hinos. rewrite lookup_insert_ne by (apply not_eq_sym, (fresh_ne _ _ _ Hx)).
      apply lookup_insert_eq. }
    split; [reflexivity|]. split; [reflexivity|]. split; [reflexivity|].
    split; [reflexivity|].
    split; [rewrite Hinos; apply lookup_insert_eq|].
    cbn [find_entry_tree_loop]. fold path'.
    rewrite (is_empty_false _ Hne). msimpl. mrew Hx.
    rewrite (scan_subdir_none _ _ _ Hscan). msimpl.
    apply Z.eqb_neq in Hfl. rewrite Hfl. msimpl.
    unfold bind in Hrun. rewrite Hrun. reflexivity.
Qed.

Lemma find_entry_tree_exhausted_witness :
  find_entry_tree_loop sample_env (vfs_s_resolve_symlink sample_env 3 tree_class)
    tree_class 1 (Some 2%positive) "//" (Some 1%positive) 15 0 tree_state
  = Ret (Some 1%positive) tree_state
  ∧ vfs_s_find_entry_tree sample_env 4 tree_class (Some 1%positive) "" 15 0 tree_state
    = Ret None tree_state
  ∧ find_entry_tree_loop sample_env (vfs_s_resolve_symlink sample_env 3 tree_class)
      tree_class 4 (Some 1%positive) "a/b" (Some 4%positive) 15 0 tree_state
    = Ret (Some 2%positive) tree_state
  ∧ vfs_s_find_entry_tree sample_env 4 tree_class (Some 1%positive) "a/b" 15 0 tree_state
    = Ret (Some 2%positive) tree_state
  ∧ vfs_s_find_inode sample_env 4 tree_class 1%positive EmptyString 15 0 tree_state
    = Ret (Some 1%positive) tree_state.
Proof.
  assert (Hwalk : tree_walk sample_env (vfs_s_resolve_symlink sample_env 3 tree_class)
                    15 1%positive "a/b" tree_state 2%positive tree_state).
  { eapply (walk_more sample_env _ 15 1%positive _ "a/b" 1%positive 1%positive _
              2%positive tree_state tree_state 2%positive tree_state);
      [discriminate | reflexivity | reflexivity | reflexivity | reflexivity
      | reflexivity | discriminate |].
    eapply (walk_last sample_env _ 15 2%positive _ _ 2%positive 2%positive _
              3%positive tree_state tree_state);
      [discriminate | reflexivity | reflexivity | reflexivity | reflexivity
      | reflexivity | reflexivity]. }
  destruct (find_entry_tree_exhausted sample_env 3 0 tree_class 2%positive 15 0
              tree_state) as (Hloop & _).
  destruct (find_entry_tree_exhausted sample_env 3 3 tree_class 1%positive 15 0
              tree_state) as (_ & Hfun & Hacc & Hres & Hroot).
  split; [apply Hloop; reflexivity|].
  split; [apply Hfun; reflexivity|].
  split; [apply (Hacc "a/b" (Some 4%positive) _ _ Hwalk); cbn; lia|].
  split; [apply (Hres "a/b" _ _ Hwalk)|].
  apply (Hroot 1%positive (mk_super (Some "x.tar") (Some 1%positive) 0 0 5));
    reflexivity.
Defined.

Lemma find_entry_tree_missing_segment_witness :
  find_entry_tree_loop sample_env (vfs_s_resolve_symlink sample_env 3 tree_class)
    tree_class 3 (Some 1%positive) "zz/y" None 15 0 tree_state
  = Ret None (set_verrno ENOENT tree_state)
  ∧ ∃ (e : entry_id) (s1 : state),
      vfs_s_automake sample_env tree_class 1%positive "zz/y" 2 tree_state = Ret e s1
      ∧ e_name <$> entries s1 !! e = Some "zz".
Proof.
  assert (Hx : inodes tree_state !! 1%positive
               = Some (mk_inode 1 None [1; 3; 4]%positive (dir_st 1) None None 0))
    by reflexivity.
  assert (Hscan : Forall (λ e, ∃ y, entries tree_state !! e = Some y
                               ∧ e_name y ≠ until_sep (skip_seps "zz/y"))
                    [1; 3; 4]%positive).
  { repeat constructor; eexists; (split; [reflexivity | discriminate]). }
  split.
  - destruct (find_entry_tree_missing_segment sample_env 3 2 tree_class 1%positive _
                "zz/y" None 15 0 tree_state ltac:(discriminate) Hx Hscan)
      as [Hnone _].
    apply Hnone. reflexivity.
  - destruct (find_entry_tree_missing_segment sample_env 3 2 tree_class 1%positive _
                "zz/y" None 15 2 tree_state ltac:(discriminate) Hx Hscan)
      as [_ Hmake].
    destruct Hmake as (e & ino & xi & s1 & Hrun & _ & _ & He & _);
      [discriminate | reflexivity | eexists; reflexivity |].
    exists e, s1. split; [exact Hrun|]. now rewrite He.
Defined.

Lemma dir_uptodate_flush_then_clock_witness :
  vfs_s_dir_uptodate tree_class (Some 1%positive) (set_flush 1 tree_state)
  = Ret 0 (set_flush 0 (set_flush 1 tree_state))
  ∧ vfs_s_dir_uptodate tree_class (Some 1%positive) tree_state = Ret 0 tree_state.
Proof.
  split.
  - destruct (dir_uptodate_flush_then_clock tree_class 1%positive _
                (set_flush 1 tree_state) eq_refl) as [Hset _].
    apply Hset. discriminate.
  - destruct (dir_uptodate_flush_then_clock tree_class 1%positive _
                tree_state eq_refl) as [_ Hclear].
    destruct (Hclear eq_refl) as (r & Hrun & _).
    pose proof Hrun as Hval. vm_compute in Hval.
    injection Hval as <-. exact Hrun.
Defined.

(** ** More fuel never changes a result *)

Lemma refines_refl {A} (m : M A) : refines m m.
Proof. intros s a s' H. exact H. Qed.

Lemma refines_bind {A B} (m1 m2 : M A) (k1 k2 : A → M B) :
  refines m1 m2 → (∀ a, refines (k1 a) (k2 a)) → refines (bind m1 k1) (bind m2 k2).
Proof.
  intros Hm Hk s b s' H. apply bind_inv in H as (a & s1 & H1 & H2).
  unfold bind. rewrite (Hm _ _ _ H1). now apply Hk.
Qed.

Lemma refines_out_of_fuel {A} (m : M A) : refines out_of_fuel m.
Proof. intros s a s' H. discriminate. Qed.

Ltac mono_step :=
  match goal with
  | |- refines ?m ?m => apply refines_refl
  | |- refines out_of_fuel _ => apply refines_out_of_fuel
  | |- refines (bind _ _) (bind _ _) => apply refines_bind; [| intros ?]
  | |- refines (match ?x with _ => _ end) (match ?x with _ => _ end) => destruct x
  | |- refines (let '(_, _) := ?x in _) _ => destruct x
  end.

Ltac mono := repeat mono_step.

Section Fuel.
Variable E : environment.

Lemma fullpath_archive_mono n :
  ∀ m, (n ≤ m)%nat → ∀ ino path,
    refines (fullpath_archive n ino path) (fullpath_archive m ino path).
Proof.
  induction n as [|n IH]; intros m Hle ino path.
  - apply refines_out_of_fuel.
  - destruct m as [|m]; [lia|]. cbn [fullpath_archive]. mono.
    apply IH. lia.
Qed.

Lemma vfs_s_fullpath_mono n m me ino :
  (n ≤ m)%nat → refines (vfs_s_fullpath E n me ino) (vfs_s_fullpath E m me ino).
Proof.
  intros Hle. unfold vfs_s_fullpath. mono. now apply fullpath_archive_mono.
Qed.

Lemma symlink_target_mono n m me dir linkname :
  (n ≤ m)%nat →
  refines (symlink_target E n me dir linkname) (symlink_target E m me dir linkname).
Proof.
  intros Hle. unfold symlink_target. mono. now apply vfs_s_fullpath_mono.
Qed.

Lemma free_mono n :
  ∀ m, (n ≤ m)%nat → ∀ me,
    (∀ ino, refines (vfs_s_free_inode n me ino) (vfs_s_free_inode m me ino))
    ∧ (∀ ino, refines (free_subdir n me ino) (free_subdir m me ino))
    ∧ (∀ ent, refines (vfs_s_free_entry n me ent) (vfs_s_free_entry m me ent)).
Proof.
  induction n as [|n IH]; intros m Hle me.
  - repeat split; intros; apply refines_out_of_fuel.
  - destruct m as [|m]; [lia|].
    destruct (IH m ltac:(lia) me) as (IHi & IHs & IHe).
    repeat split; intros; cbn [vfs_s_free_inode free_subdir vfs_s_free_entry]; mono;
      auto.
Qed.

Lemma find_entry_tree_loop_mono (rs1 rs2 : option entry_id → Z → M (option entry_id)) me :
  (∀ ent follow, refines (rs1 ent follow) (rs2 ent follow)) →
  ∀ rounds root path ent follow flags,
    refines (find_entry_tree_loop E rs1 me rounds root path ent follow flags)
            (find_entry_tree_loop E rs2 me rounds root path ent follow flags).
Proof.
  intros Hrs. induction rounds as [|rounds IH]; intros.
  - apply refines_out_of_fuel.
  - cbn [find_entry_tree_loop]. mono; auto.
Qed.

Lemma find_entry_linear_load_mono n m me root super path :
  (n ≤ m)%nat →
  refines (find_entry_linear_load E n me root super path)
          (find_entry_linear_load E m me root super path).
Proof.
  intros Hle. destruct (free_mono n m Hle me) as (_ & _ & Hfe).
  unfold find_entry_linear_load. mono; auto.
Qed.

Lemma resolver_mono n :
  ∀ m, (n ≤ m)%nat → ∀ me,
    (∀ entry follow,
       refines (vfs_s_resolve_symlink E n me entry follow)
               (vfs_s_resolve_symlink E m me entry follow))
    ∧ (∀ root a_path follow flags,
       refines (vfs_s_find_entry_tree E n me root a_path follow flags)
               (vfs_s_find_entry_tree E m me root a_path follow flags))
    ∧ (∀ root a_path follow flags,
       refines (vfs_s_find_entry_linear E n me root a_path follow flags)
               (vfs_s_find_entry_linear E m me root a_path follow flags))
    ∧ (∀ super path follow flags,
       refines (vfs_s_find_inode E n me super path follow flags)
               (vfs_s_find_inode E m me super path follow flags)).
Proof.
  induction n as [|n IH]; intros m Hle me.
  - repeat split; intros; apply refines_out_of_fuel.
  - destruct m as [|m]; [lia|].
    destruct (IH m ltac:(lia) me) as (IHr & IHt & IHl & IHi).
    destruct (free_mono n m ltac:(lia) me) as (_ & _ & Hfe).
    repeat split; intros;
      cbn [vfs_s_resolve_symlink vfs_s_find_entry_tree vfs_s_find_entry_linear
           vfs_s_find_inode]; mono;
      auto using symlink_target_mono, find_entry_tree_loop_mono,
        find_entry_linear_load_mono with lia.
Qed.
End Fuel.

(** ** The last round of the tree walk *)

Lemma has_sep_advance (path : string) :
  has_sep (advance (segment_length path) path) = false →
  advance (segment_length path) path = EmptyString.
Proof.
  induction path as [|c path IH]; cbn; [reflexivity|].
  destruct (is_sep c) eqn:Hc; cbn.
  - rewrite Hc. discriminate.
  - exact IH.
Qed.

Lemma ends_in_segment_skip (path : string) :
  ends_in_segment path = true → ends_in_segment (skip_seps path) = true.
Proof.
  induction path as [|c path IH]; [discriminate|].
  cbn [skip_seps]. destruct (is_sep c) eqn:Hc; [|auto].
  cbn [ends_in_segment]. rewrite Hc. destruct path; [discriminate | exact IH].
Qed.

Lemma ends_in_segment_nonempty (path : string) :
  ends_in_segment path = true → is_empty path = false.
Proof. destruct path; [discriminate | reflexivity]. Qed.

Lemma ends_in_segment_advance (n : nat) (path : string) :
  ends_in_segment path = true →
  advance n path = EmptyString ∨ ends_in_segment (advance n path) = true.
Proof.
  revert path. induction n as [|n IH]; intros path H; [now right|].
  destruct path as [|c path]; [discriminate|]. cbn [advance].
  destruct path as [|c' path]; [left; now destruct n|].
  apply IH. exact H.
Qed.

Section Hop.
Variable E : environment.

Lemma loop_final_hop (rs : option entry_id → Z → M (option entry_id)) me :
  (∀ e s r s', rs e LINK_NO_FOLLOW s = Ret r s' → r = e ∧ s' = s) →
  ∀ rounds root path ent flags b s e' s',
    ends_in_segment path = true →
    find_entry_tree_loop E rs me rounds root path ent LINK_NO_FOLLOW flags s
      = Ret (Some e') s' →
    find_entry_tree_loop E rs me rounds root path ent b flags s
      = (do r <- rs (Some e') b; after_last_hop r) s'.
Proof.
  intros Hnf. induction rounds as [|rounds IH];
    intros root path ent flags b s e' s' Hend H; [discriminate|].
  cbn [find_entry_tree_loop] in *.
  destruct root as [root|]; [|discriminate].
  apply ends_in_segment_skip in Hend.
  rewrite (ends_in_segment_nonempty _ Hend) in *.
  set (path' := skip_seps path) in *.
  apply bind_inv in H as (x & s0 & Hx & H). rewrite (bind_Ret _ _ _ _ _ Hx).
  apply bind_inv in H as (o1 & s1 & Hscan & H). rewrite (bind_Ret _ _ _ _ _ Hscan).
  apply bind_inv in H as (o2 & s2 & Hmk & H). rewrite (bind_Ret _ _ _ _ _ Hmk).
  destruct o2 as [e|]; [|discriminate].
  set (rest := advance (segment_length path') path') in *.
  destruct (has_sep rest) eqn:Hsep.
  - apply bind_inv in H as (o3 & s3 & Hrs & H). rewrite (bind_Ret _ _ _ _ _ Hrs).
    destruct o3 as [e3|]; [|discriminate].
    apply bind_inv in H as (y & s4 & Hy & H). rewrite (bind_Ret _ _ _ _ _ Hy).
    apply IH; [|exact H].
    destruct (ends_in_segment_advance (segment_length path') path' Hend) as [Hr|Hr];
      [|exact Hr].
    fold rest in Hr. rewrite Hr in Hsep. discriminate.
  - apply has_sep_advance in Hsep. fold rest in Hsep.
    apply bind_inv in H as (o3 & s3 & Hrs & H).
    apply Hnf in Hrs as [-> ->].
    apply bind_inv in H as (y & s4 & Hy & H).
    rewrite Hsep in H. destruct rounds as [|rounds]; [discriminate|].
    cbn [find_entry_tree_loop] in H.
    destruct (e_ino y) as [i|] eqn:Hi; [|discriminate].
    cbn in H. injection H as <- <-.
    unfold get_entry, deref in Hy.
    destruct (entries s2 !! e) as [y'|] eqn:Hlook; [|discriminate].
    injection Hy as -> ->.
    rewrite Hsep. unfold bind, after_last_hop.
    destruct (rs (Some e) b s4) as [r s5| | |]; try reflexivity.
Qed.
End Hop.

(** ** The symlink follower *)

Lemma wrap_int_small (z : Z) : - 2 ^ 31 ≤ z < 2 ^ 31 → wrap_int z = z.
Proof. intros H. unfold wrap_int. rewrite Z.mod_small; lia. Qed.

Lemma resolve_no_follow E fuel me entry s r s' :
  vfs_s_resolve_symlink E fuel me entry LINK_NO_FOLLOW s = Ret r s' →
  r = entry ∧ s' = s.
Proof.
  destruct fuel; [discriminate|]. cbn. intros H. injection H as <- <-. auto.
Qed.

(** In a class bound to the linear resolver a lookup with [FL_DIR] never
    looks at the budget of links. *)
Lemma find_inode_dir_linear E fuel me super path b b' :
  find_entry (MEDATA me) = Some Find_entry_linear →
  FL_DIR E ≠ 0 →
  vfs_s_find_inode E fuel me super path b (Z.lor 0 (FL_DIR E))
  = vfs_s_find_inode E fuel me super path b' (Z.lor 0 (FL_DIR E)).
Proof.
  intros Hlin Hdir.
  destruct fuel as [|fuel]; [reflexivity|]. cbn [vfs_s_find_inode].
  rewrite Hlin. destruct fuel as [|fuel]; [reflexivity|].
  cbn [vfs_s_find_entry_linear]. change (Z.lor 0 (FL_DIR E)) with (FL_DIR E).
  rewrite Z.land_diag. apply Z.eqb_neq in Hdir. rewrite Hdir. reflexivity.
Qed.

(** What the resolver of the class does with the last path component:
    with any budget it does what it does without following, and then
    hands the entry it stopped at to the symlink follower. *)
Lemma class_final_hop E fuel me root target b s ent' s' :
  (find_entry (MEDATA me) = Some Find_entry_linear → FL_DIR E ≠ 0) →
  ends_in_segment (last_hop_path E me target) = true →
  class_find_entry E (S (S fuel)) me root target LINK_NO_FOLLOW 0 s
    = Ret (Some ent') s' →
  class_find_entry E (S (S fuel)) me root target b 0 s
  = (do r <- vfs_s_resolve_symlink E
               (match find_entry (MEDATA me) with
                | Some Find_entry_linear => fuel
                | _ => S fuel
                end) me (Some ent') b;
     after_last_hop r) s'.
Proof.
  intros Hfl Hend H. unfold class_find_entry, last_hop_path in *.
  destruct (find_entry (MEDATA me)) as [[|]|] eqn:Hres; [| |discriminate].
  - cbn [vfs_s_find_entry_tree] in *.
    apply (loop_final_hop E _ me (resolve_no_follow E (S fuel) me) _ _ _ _ _ b _ _ _
             Hend H).
  - specialize (Hfl eq_refl).
    cbn [vfs_s_find_entry_linear] in *.
    apply bind_inv in H as (root' & s0 & Hroot & H). rewrite (bind_Ret _ _ _ _ _ Hroot).
    apply bind_inv in H as (xr & s1 & Hxr & H). rewrite (bind_Ret _ _ _ _ _ Hxr).
    apply bind_inv in H as (r & s2 & Hr & H). rewrite (bind_Ret _ _ _ _ _ Hr).
    destruct (negb (bool_decide (s_root r = Some root'))); [discriminate|].
    rewrite Z.land_0_l in *. change (0 =? 0) with true in *. cbv iota in *.
    destruct (split_dir_name (custom_canonicalize_pathname E target))
      as [dirname name] eqn:Hsplit.
    cbn [snd] in Hend.
    rewrite (find_inode_dir_linear E (S fuel) me (i_super xr) dirname b LINK_NO_FOLLOW
               Hres Hfl).
    apply bind_inv in H as (ino & s3 & Hino & H). rewrite (bind_Ret _ _ _ _ _ Hino).
    cbn [vfs_s_find_entry_tree] in *.
    apply (loop_final_hop E _ me (resolve_no_follow E fuel me) _ _ _ _ _ b _ _ _
             Hend H).
Qed.

Lemma class_find_entry_mono E n m me root path follow flags :
  (n ≤ m)%nat →
  refines (class_find_entry E n me root path follow flags)
          (class_find_entry E m me root path follow flags).
Proof.
  intros Hle. unfold class_find_entry.
  destruct (resolver_mono E n m Hle me) as (_ & Ht & Hl & _).
  destruct (find_entry (MEDATA me)) as [[|]|]; [apply Ht|apply Hl|apply refines_refl].
Qed.

Lemma symlink_chain_ELOOP E me :
  (find_entry (MEDATA me) = Some Find_entry_linear → FL_DIR E ≠ 0) →
  ∀ s ent k, symlink_chain E me s ent k →
  ∀ follow, 0 ≤ follow < Z.of_nat k → follow < 2 ^ 31 →
  ∃ n0, ∀ fuel, (n0 ≤ fuel)%nat →
    ∃ s', vfs_s_resolve_symlink E fuel me (Some ent) follow s = Ret None s'
          ∧ verrno s' = ELOOP.
Proof.
  intros Hfl s ent k Hchain.
  induction Hchain as [s ent | s ent k y ino x linkname dir xd r fuel0 target s1
                                 ent' s2 Hy Hino Hx Hlnk Hln Hdir Htgt Hxd Hr Hend
                                 Hfind Hchain IH];
    intros follow Hrange Hint; [lia|].
  destruct (Z.eq_dec follow 0) as [->|Hnz].
  - exists 1%nat. intros fuel Hfuel. destruct fuel as [|fuel]; [lia|].
    eexists. split; reflexivity.
  - destruct (IH (follow - 1) ltac:(lia) ltac:(lia)) as [n1 Hn1].
    exists (S (S (S (Nat.max fuel0 n1)))). intros fuel Hfuel.
    destruct fuel as [|fuel]; [lia|]. destruct fuel as [|fuel]; [lia|].
    destruct fuel as [|fuel]; [lia|].
    assert (Hres : ∃ s', vfs_s_resolve_symlink E
                           (match find_entry (MEDATA me) with
                            | Some Find_entry_linear => fuel
                            | _ => S fuel
                            end) me (Some ent') (follow - 1) s2 = Ret None s'
                         ∧ verrno s' = ELOOP).
    { destruct (find_entry (MEDATA me)) as [[|]|]; apply Hn1; lia. }
    destruct Hres as (s' & Hres & Herr).
    exists s'. split; [|exact Herr].
    cbn [vfs_s_resolve_symlink].
    assert ((follow =? LINK_NO_FOLLOW) = false) as -> by (apply Z.eqb_neq; unfold LINK_NO_FOLLOW; lia).
    assert ((follow =? 0) = false) as -> by (apply Z.eqb_neq; lia).
    rewrite (bind_Ret _ _ _ _ _ (get_entry_Some _ _ _ Hy)).
    rewrite Hino. unfold deref at 1.
    rewrite (bind_Ret _ _ _ _ _ eq_refl).
    rewrite (bind_Ret _ _ _ _ _ (get_inode_Some _ _ _ Hx)).
    rewrite Hlnk. cbn [negb]. rewrite Hln.
    assert (Htgt' : symlink_target E (S (S fuel)) me (e_dir y) linkname s = Ret target s1)
      by (eapply symlink_target_mono; [|exact Htgt]; lia).
    rewrite (bind_Ret _ _ _ _ _ Htgt').
    rewrite Hdir. unfold deref at 1. rewrite (bind_Ret _ _ _ _ _ eq_refl).
    rewrite (bind_Ret _ _ _ _ _ (get_inode_Some _ _ _ Hxd)).
    rewrite (bind_Ret _ _ _ _ _ (get_super_Some _ _ _ Hr)).
    rewrite (wrap_int_small (follow - 1)) by lia.
    assert (Hfind' : class_find_entry E (S (S fuel)) me (s_root r) target
                       LINK_NO_FOLLOW 0 s1 = Ret (Some ent') s2).
    { eapply class_find_entry_mono; [|exact Hfind]. lia. }
    pose proof (class_final_hop E fuel me (s_root r) target (follow - 1) s1 ent' s2
                  Hfl Hend Hfind') as Hhop.
    unfold class_find_entry in Hhop. rewrite Hhop.
    unfold bind. rewrite Hres. reflexivity.
Qed.

(** C4 (amended). The checks of [resolve_symlink] in the order the code
    makes them: budget [LINK_NO_FOLLOW], the entry comes back unchanged;
    budget 0, [ELOOP], whatever the entry is; then, for any other budget:
    a null entry, [ENOENT]; an entry that is not a symlink comes back
    unchanged; a symlink without target, [EFAULT]; a symlink with a target
    is looked up through the resolver the class is bound to, from the root
    of the superblock of the entry's directory, with budget [follow - 1],
    a relative target first being put under [fullpath (entry->dir)].
    A chain of [k] symlinks in final position (the target of each names
    the next as the last path component that the resolver of the class
    looks up) yields [ELOOP] for every budget [0 <= follow < k].  A
    segment of the tree walk that a separator follows is a leading
    directory: its entry is handed to the symlink follower with
    [LINK_FOLLOW], whatever budget the walk was given. *)
Theorem resolve_symlink_by_priority :
  ∀ (E : environment) (me : vfs_class) (fuel : nat) (s : state),
    (∀ entry, vfs_s_resolve_symlink E (S fuel) me entry LINK_NO_FOLLOW s = Ret entry s)
    ∧ (∀ entry,
         vfs_s_resolve_symlink E (S fuel) me entry 0 s = Ret None (set_verrno ELOOP s))
    ∧ (∀ follow, follow ≠ LINK_NO_FOLLOW → follow ≠ 0 →
         vfs_s_resolve_symlink E (S fuel) me None follow s
           = Ret None (set_verrno ENOENT s)
         ∧ ∀ ent y ino x,
             entries s !! ent = Some y → e_ino y = Some ino → inodes s !! ino = Some x →
             (S_ISLNK (st_mode (i_st x)) = false →
                vfs_s_resolve_symlink E (S fuel) me (Some ent) follow s
                  = Ret (Some ent) s)
             ∧ (S_ISLNK (st_mode (i_st x)) = true → i_linkname x = None →
                vfs_s_resolve_symlink E (S fuel) me (Some ent) follow s
                  = Ret None (set_verrno EFAULT s))
             ∧ (S_ISLNK (st_mode (i_st x)) = true →
                ∀ linkname, i_linkname x = Some linkname →
                  vfs_s_resolve_symlink E (S fuel) me (Some ent) follow s
                  = (do target <- symlink_target E fuel me (e_dir y) linkname;
                     do dir <- deref (e_dir y);
                     do xd <- get_inode dir;
                     do r <- get_super (i_super xd);
                     match find_entry (MEDATA me) with
                     | Some Find_entry_tree =>
                         vfs_s_find_entry_tree E fuel me (s_root r) target
                           (wrap_int (follow - 1)) 0
                     | Some Find_entry_linear =>
                         vfs_s_find_entry_linear E fuel me (s_root r) target
                           (wrap_int (follow - 1)) 0
                     | None => fault
                     end) s
                  ∧ (- 2 ^ 31 < follow < 2 ^ 31 → wrap_int (follow - 1) = follow - 1)
                  ∧ (is_relative linkname = true →
                     ∀ dir fullpath s1,
                       e_dir y = Some dir →
                       vfs_s_fullpath E fuel me dir s = Ret (Some fullpath) s1 →
                       symlink_target E fuel me (e_dir y) linkname s
                         = Ret (fullpath ++ "/" ++ linkname) s1)))
    ∧ ((find_entry (MEDATA me) = Some Find_entry_linear → FL_DIR E ≠ 0) →
       ∀ ent k follow,
         symlink_chain E me s ent k → 0 ≤ follow < Z.of_nat k → follow < 2 ^ 31 →
         ∃ n0, ∀ fuel', (n0 ≤ fuel')%nat →
           ∃ s', vfs_s_resolve_symlink E fuel' me (Some ent) follow s = Ret None s'
                 ∧ verrno s' = ELOOP)
    ∧ (∀ (rounds : nat) (root : inode_id) (x : vfs_s_inode) (path : string)
         (ent : option entry_id) (e0 : entry_id) (follow flags : Z),
         skip_seps path ≠ EmptyString →
         inodes s !! root = Some x →
         scan_subdir (i_subdir x) (skip_seps path) (segment_length (skip_seps path)) s
           = Ret (Some e0) s →
         has_sep (advance (segment_length (skip_seps path)) (skip_seps path)) = true →
         find_entry_tree_loop E (vfs_s_resolve_symlink E fuel me) me (S rounds)
           (Some root) path ent follow flags s
         = (do ent' <- vfs_s_resolve_symlink E fuel me (Some e0) (LINK_FOLLOW E);
            match ent' with
            | None => ret None
            | Some e' =>
                do y <- get_entry e';
                find_entry_tree_loop E (vfs_s_resolve_symlink E fuel me) me rounds
                  (e_ino y) (advance (segment_length (skip_seps path)) (skip_seps path))
                  ent' follow flags
            end) s).
Proof.
  intros E me fuel s. split; [reflexivity|]. split; [reflexivity|]. split; [|split].
  - intros follow Hnf Hnz.
    apply Z.eqb_neq in Hnf, Hnz.
    split; [cbn [vfs_s_resolve_symlink]; now rewrite Hnf, Hnz|].
    intros ent y ino x Hy Hino Hx.
    assert (Hstep : ∀ k : vfs_s_inode → M (option entry_id),
              (do y <- get_entry ent; do ino <- deref (e_ino y);
               do x <- get_inode ino; k x) s = k x s).
    { intros k. rewrite (bind_Ret _ _ _ _ _ (get_entry_Some _ _ _ Hy)).
      rewrite Hino. unfold deref at 1. rewrite (bind_Ret _ _ _ _ _ eq_refl).
      now rewrite (bind_Ret _ _ _ _ _ (get_inode_Some _ _ _ Hx)). }
    split; [|split].
    + intros Hl. cbn [vfs_s_resolve_symlink]. rewrite Hnf, Hnz.
      rewrite (bind_Ret _ _ _ _ _ (get_entry_Some _ _ _ Hy)).
      rewrite Hino. unfold deref at 1. rewrite (bind_Ret _ _ _ _ _ eq_refl).
      rewrite (bind_Ret _ _ _ _ _ (get_inode_Some _ _ _ Hx)).
      now rewrite Hl.
    + intros Hl Hln. cbn [vfs_s_resolve_symlink]. rewrite Hnf, Hnz.
      rewrite (bind_Ret _ _ _ _ _ (get_entry_Some _ _ _ Hy)).
      rewrite Hino. unfold deref at 1. rewrite (bind_Ret _ _ _ _ _ eq_refl).
      rewrite (bind_Ret _ _ _ _ _ (get_inode_Some _ _ _ Hx)).
      now rewrite Hl, Hln.
    + intros Hl linkname Hln. split; [|split].
      * cbn [vfs_s_resolve_symlink]. rewrite Hnf, Hnz.
        rewrite (bind_Ret _ _ _ _ _ (get_entry_Some _ _ _ Hy)).
        rewrite Hino. unfold deref at 1. rewrite (bind_Ret _ _ _ _ _ eq_refl).
        rewrite (bind_Ret _ _ _ _ _ (get_inode_Some _ _ _ Hx)).
        now rewrite Hl, Hln.
      * intros Hr. apply wrap_int_small. lia.
      * intros Hrel dir fullpath s1 Hdir Hfp. unfold symlink_target.
        rewrite Hrel, Hdir. unfold deref at 1.
        rewrite (bind_Ret _ _ _ _ _ eq_refl).
        now rewrite (bind_Ret _ _ _ _ _ Hfp).
  - intros Hfl ent k follow Hchain Hrange Hint.
    exact (symlink_chain_ELOOP E me Hfl s ent k Hchain follow Hrange Hint).
  - intros rounds root x path ent e0 follow flags Hne Hx Hscan Hsep.
    cbn [find_entry_tree_loop]. rewrite (is_empty_false _ Hne).
    rewrite (bind_Ret _ _ _ _ _ (get_inode_Some _ _ _ Hx)).
    rewrite (bind_Ret _ _ _ _ _ Hscan).
    rewrite (bind_Ret _ _ _ _ _ eq_refl).
    rewrite Hsep. reflexivity.
Qed.

(** C4, as stated, fails.  In [hop_state] the entry [t] is a regular file,
    yet with budget 0 it is not returned unchanged: the budget check comes
    first and the call fails with [ELOOP].  And the three symlinks [d1],
    [d2], [d3], each met while the target of the one before is resolved,
    are all followed with budget 2: links met as leading directories are
    followed with a fresh [LINK_FOLLOW], so this chain, longer than the
    budget, resolves to [t] without [ELOOP]. *)
Lemma resolve_symlink_counterexample :
  (∃ y x, entries hop_state !! 6%positive = Some y
          ∧ e_ino y = Some 7%positive
          ∧ inodes hop_state !! 7%positive = Some x
          ∧ S_ISLNK (st_mode (i_st x)) = false)
  ∧ vfs_s_resolve_symlink sample_env 1 tree_class (Some 6%positive) 0 hop_state
    = Ret None (set_verrno ELOOP hop_state)
  ∧ ∃ s', vfs_s_resolve_symlink sample_env 10 tree_class (Some 1%positive) 2 hop_state
          = Ret (Some 6%positive) s'
          ∧ verrno s' ≠ ELOOP.
Proof.
  split; [do 2 eexists; repeat split; reflexivity|].
  split; [reflexivity|].
  eexists. split; [vm_compute; reflexivity|]. vm_compute. discriminate.
Qed.

Lemma resolve_symlink_by_priority_witness :
  ∃ n0, ∀ fuel', (n0 ≤ fuel')%nat →
    ∃ s', vfs_s_resolve_symlink sample_env fuel' tree_class (Some 3%positive) 1
            tree_state = Ret None s'
          ∧ verrno s' = ELOOP.
Proof.
  destruct (resolve_symlink_by_priority sample_env tree_class 0 tree_state)
    as (_ & _ & _ & Hchain & _).
  apply (Hchain ltac:(discriminate) 3%positive 2%nat 1); [|lia|lia].
  eapply chain_hop with (fuel := 4%nat);
    [reflexivity | reflexivity | reflexivity | reflexivity | reflexivity
    | reflexivity | vm_compute; reflexivity | reflexivity | reflexivity
    | reflexivity | vm_compute; reflexivity |].
  eapply chain_hop with (fuel := 4%nat);
    [reflexivity | reflexivity | reflexivity | reflexivity | reflexivity
    | reflexivity | vm_compute; reflexivity | reflexivity | reflexivity
    | reflexivity | vm_compute; reflexivity |].
  apply chain_end.
Defined.

(** ** The directory iterator and [open] *)

Lemma wrap_u64_small (z : Z) : 0 ≤ z < 2 ^ 64 → wrap_u64 z = z.
Proof. intros H. unfold wrap_u64. now rewrite Z.mod_small. Qed.

Lemma set_i_nlink_restore (n : Z) (x : vfs_s_inode) :
  set_i_nlink (i_nlink x) (set_i_nlink n x) = x.
Proof. destruct x as [? ? ? [] ? ? ?]. reflexivity. Qed.

Lemma put_inode_restore (ino : inode_id) (x x' : vfs_s_inode) (s : state) :
  inodes s !! ino = Some x →
  upd_inodes (insert ino x) (upd_inodes (insert ino x') s) = s.
Proof.
  intros H. destruct s. cbn in *. unfold upd_inodes. cbn. f_equal.
  rewrite insert_insert_eq. now apply insert_id.
Qed.

(** C9 (amended). [opendir] resolves the path with [FL_DIR | FL_FOLLOW];
    if the inode found is not a directory it fails with [ENOTDIR]; if it
    is, its [nlink] goes up by one and the handle points at its first
    child.  When the directory had at least one link (and fewer than the
    type holds), [closedir] gives back exactly that hold: the state is
    again the one in which the path was resolved. *)
Theorem opendir_closedir_hold :
  ∀ (E : environment) (fuel fuel' : nat) (me : vfs_class) (dirname : string)
    (s : state) (dir : inode_id) (s0 : state) (x : vfs_s_inode),
    vfs_s_inode_from_path E fuel me dirname (Z.lor (FL_DIR E) (FL_FOLLOW E)) s
      = Ret (Some dir) s0 →
    inodes s0 !! dir = Some x →
    (S_ISDIR (st_mode (i_st x)) = false →
       vfs_s_opendir E fuel me dirname s = Ret None (set_verrno ENOTDIR s0))
    ∧ (S_ISDIR (st_mode (i_st x)) = true →
       let info := mk_dirhandle (head (i_subdir x)) dir in
       let s1 := upd_inodes (insert dir (set_i_nlink (wrap_u64 (i_nlink x + 1)) x)) s0 in
       vfs_s_opendir E fuel me dirname s = Ret (Some info) s1
       ∧ (1 ≤ i_nlink x < NLINK_MAX →
          is_Some (supers_heap s0 !! i_super x) →
          i_nlink <$> inodes s1 !! dir = Some (i_nlink x + 1)
          ∧ vfs_s_closedir (S fuel') me info s1 = Ret 0 s0)).
Proof.
  intros E fuel fuel' me dirname s dir s0 x Hpath Hx. split.
  - intros Hdir. unfold vfs_s_opendir. rewrite (bind_Ret _ _ _ _ _ Hpath).
    rewrite (bind_Ret _ _ _ _ _ (get_inode_Some _ _ _ Hx)). now rewrite Hdir.
  - intros Hdir info s1. split.
    + unfold vfs_s_opendir. rewrite (bind_Ret _ _ _ _ _ Hpath).
      rewrite (bind_Ret _ _ _ _ _ (get_inode_Some _ _ _ Hx)). now rewrite Hdir.
    + intros Hn [r Hr]. unfold NLINK_MAX in Hn.
      assert (Hw : wrap_u64 (i_nlink x + 1) = i_nlink x + 1)
        by (apply wrap_u64_small; lia).
      split.
      { unfold s1. cbn. rewrite lookup_insert_eq. cbn. now rewrite Hw. }
      unfold vfs_s_closedir, s1, info. cbn [vfs_s_free_inode]. msimpl. mlookup.
      mrew Hr. mlookup. rewrite Hw.
      assert ((1 <? i_nlink x + 1) = true) as -> by (apply Z.ltb_lt; lia).
      msimpl. f_equal.
      replace (i_nlink x + 1 - 1) with (i_nlink x) by lia.
      rewrite wrap_u64_small by lia.
      pose proof (set_i_nlink_restore (i_nlink x + 1) x) as Hrest.
      pose proof (put_inode_restore dir x (set_i_nlink (i_nlink x + 1) x) s0 Hx) as Hput.
      rewrite <- Hrest in Hput at 1. exact Hput.
Qed.

(** C9, as stated, fails for a directory without links.  [vfs_s_invalidate]
    installs a fresh root with [nlink] 0; [opendir] of the empty path
    raises it to 1 and [closedir] then frees the inode, which the
    superblock still names as its root. *)
Lemma opendir_closedir_counterexample :
  ∃ (s0 : state) (root : inode_id) (x : vfs_s_inode) (info : dirhandle)
    (s1 s2 : state),
    vfs_s_invalidate sample_env 20 tree_class 1%positive tree_state = Ret tt s0
    ∧ s_root <$> supers_heap s0 !! 1%positive = Some (Some root)
    ∧ inodes s0 !! root = Some x
    ∧ S_ISDIR (st_mode (i_st x)) = true
    ∧ i_nlink x = 0
    ∧ vfs_s_opendir sample_env 20 tree_class "" s0 = Ret (Some info) s1
    ∧ dh_dir info = root
    ∧ vfs_s_closedir 20 tree_class info s1 = Ret 0 s2
    ∧ inodes s2 !! root = None
    ∧ s_root <$> supers_heap s2 !! 1%positive = Some (Some root).
Proof.
  do 6 eexists.
  split; [vm_compute; reflexivity|].
  split; [vm_compute; reflexivity|].
  split; [vm_compute; reflexivity|].
  split; [reflexivity|]. split; [reflexivity|].
  split; [vm_compute; reflexivity|].
  split; [reflexivity|].
  split; [vm_compute; reflexivity|].
  split; reflexivity.
Qed.

Lemma opendir_closedir_hold_witness :
  ∃ (info : dirhandle) (s1 : state),
    vfs_s_opendir sample_env 9 tree_class "a" tree_state = Ret (Some info) s1
    ∧ vfs_s_closedir 1 tree_class info s1 = Ret 0 tree_state.
Proof.
  destruct (opendir_closedir_hold sample_env 9 0 tree_class "a" tree_state
              2%positive tree_state
              (mk_inode 1 (Some 1%positive) [2%positive] (dir_st 1) None None 0))
    as [_ Hdir]; [vm_compute; reflexivity | reflexivity |].
  destruct (Hdir eq_refl) as [Hopen Hclose].
  destruct Hclose as [_ Hclose]; [unfold NLINK_MAX; cbn; lia | eexists; reflexivity |].
  eexists _, _. split; [exact Hopen | exact Hclose].
Defined.

(** C8 (amended). With the path dissected and looked up with
    [LINK_FOLLOW], [FL_NONE]: an inode found while [O_CREAT] and [O_EXCL]
    are both set makes [open] fail with [EEXIST]; no inode found while
    [O_CREAT] is absent or the class has no [write] makes it return null
    and store no errno of its own (the state, with the errno the resolver
    left, is returned as it is); an inode found that is a directory,
    [O_CREAT | O_EXCL] not both set, makes it fail with [EISDIR]. *)
Theorem open_failures :
  ∀ (E : environment) (fuel : nat) (me : vfs_class) (file : string)
    (flags mode : Z) (s : state) (q : string) (super : super_id) (s0 : state)
    (ino : option inode_id) (s1 : state),
    vfs_s_get_path E fuel me file 0 s = Ret (Some (q, super)) s0 →
    vfs_s_find_inode E fuel me super q (LINK_FOLLOW E) (FL_NONE E) s0 = Ret ino s1 →
    (is_Some ino →
       Z.land flags (Z.lor O_CREAT O_EXCL) = Z.lor O_CREAT O_EXCL →
       vfs_s_open E fuel me file flags mode s = Ret None (set_verrno EEXIST s1))
    ∧ (ino = None →
       Z.land flags O_CREAT = 0 ∨ c_write me = None →
       vfs_s_open E fuel me file flags mode s = Ret None s1)
    ∧ (∀ i x, ino = Some i → inodes s1 !! i = Some x →
       S_ISDIR (st_mode (i_st x)) = true →
       Z.land flags (Z.lor O_CREAT O_EXCL) ≠ Z.lor O_CREAT O_EXCL →
       vfs_s_open E fuel me file flags mode s = Ret None (set_verrno EISDIR s1)).
Proof.
  intros E fuel me file flags mode s q super s0 ino s1 Hpath Hfind.
  split; [|split].
  - intros [i ->] Hfl. unfold vfs_s_open.
    rewrite (bind_Ret _ _ _ _ _ Hpath). rewrite (bind_Ret _ _ _ _ _ Hfind).
    rewrite Hfl, Z.eqb_refl. reflexivity.
  - intros -> Hfl. unfold vfs_s_open.
    rewrite (bind_Ret _ _ _ _ _ Hpath). rewrite (bind_Ret _ _ _ _ _ Hfind).
    cbn [bool_decide andb]. rewrite bool_decide_eq_false_2 by (intros [? ?]; discriminate).
    cbn [andb].
    assert (((Z.land flags O_CREAT =? 0)
             || negb (bool_decide (is_Some (c_write me)))) = true) as Hc.
    { destruct Hfl as [Hfl|Hfl].
      - rewrite Hfl. reflexivity.
      - rewrite Hfl. rewrite bool_decide_eq_false_2 by (intros [? ?]; discriminate).
        apply orb_true_r. }
    rewrite Hc. reflexivity.
  - intros i x -> Hx Hdir Hfl. unfold vfs_s_open.
    rewrite (bind_Ret _ _ _ _ _ Hpath). rewrite (bind_Ret _ _ _ _ _ Hfind).
    apply Z.eqb_neq in Hfl. rewrite Hfl, andb_false_r.
    msimpl. mrew Hx. now rewrite Hdir.
Qed.

(** C8, as stated, fails.  A path that does not resolve, opened without
    [O_CREAT], gives null, but an errno is set: the tree resolver has
    stored [ENOENT].  And a path that resolves to a directory, opened with
    [O_CREAT | O_EXCL], fails with [EEXIST], not [EISDIR]. *)
Lemma open_failures_counterexample :
  verrno tree_state = 0
  ∧ vfs_s_open sample_env 5 tree_class "zz" 0 0 tree_state
    = Ret None (set_verrno ENOENT tree_state)
  ∧ vfs_s_open sample_env 5 tree_class "a" (Z.lor O_CREAT O_EXCL) 0 tree_state
    = Ret None (set_verrno EEXIST tree_state).
Proof. repeat split; vm_compute; reflexivity. Qed.

Lemma open_failures_witness :
  vfs_s_open sample_env 5 tree_class "a" (Z.lor O_CREAT O_EXCL) 0 tree_state
    = Ret None (set_verrno EEXIST tree_state)
  ∧ vfs_s_open sample_env 5 tree_class "zz" 0 0 tree_state
    = Ret None (set_verrno ENOENT tree_state)
  ∧ vfs_s_open sample_env 5 tree_class "a" 0 0 tree_state
    = Ret None (set_verrno EISDIR tree_state).
Proof.
  split; [|split].
  - destruct (open_failures sample_env 5 tree_class "a" (Z.lor O_CREAT O_EXCL) 0
                tree_state "a" 1%positive tree_state (Some 2%positive) tree_state)
      as [Hexcl _]; [vm_compute; reflexivity | vm_compute; reflexivity |].
    apply Hexcl; [eexists; reflexivity | reflexivity].
  - destruct (open_failures sample_env 5 tree_class "zz" 0 0
                tree_state "zz" 1%positive tree_state None
                (set_verrno ENOENT tree_state))
      as (_ & Hmiss & _); [vm_compute; reflexivity | vm_compute; reflexivity |].
    apply Hmiss; [reflexivity | left; reflexivity].
  - destruct (open_failures sample_env 5 tree_class "a" 0 0
                tree_state "a" 1%positive tree_state (Some 2%positive) tree_state)
      as (_ & _ & Hdir); [vm_compute; reflexivity | vm_compute; reflexivity |].
    eapply Hdir; [reflexivity | reflexivity | reflexivity | discriminate].
Defined.

(** ** File handles: [open] and [close] *)

Lemma wrap_int_succ_pred (z : Z) :
  - 2 ^ 31 ≤ z < 2 ^ 31 → wrap_int (wrap_int (z + 1) - 1) = z.
Proof.
  intros H. unfold wrap_int.
  destruct (Z.eq_dec z (2 ^ 31 - 1)) as [->|Hne].
  - reflexivity.
  - rewrite (Z.mod_small (z + 1 + 2 ^ 31)) by lia.
    rewrite Z.mod_small; lia.
Qed.

Lemma inode_nlink_restore (x : vfs_s_inode) (n : Z) :
  mk_inode (i_super x) (i_ent x) (i_subdir x)
    (set_st_nlink (i_nlink x) (set_st_nlink n (i_st x)))
    (i_linkname x) (i_localname x) (i_timestamp x) = x.
Proof. destruct x as [? ? ? [] ? ? ?]. reflexivity. Qed.

Lemma free_inode_shared (me : vfs_class) (fuel : nat) (ino : inode_id)
    (x : vfs_s_inode) (s : state) :
  inodes s !! ino = Some x →
  1 < i_nlink x →
  vfs_s_free_inode (S fuel) me (Some ino) s
  = Ret tt (upd_inodes (insert ino (set_i_nlink (wrap_u64 (i_nlink x - 1)) x)) s).
Proof.
  intros Hx Hn. cbn [vfs_s_free_inode].
  rewrite (bind_Ret _ _ _ _ _ (get_inode_Some _ _ _ Hx)).
  apply Z.ltb_lt in Hn. now rewrite Hn.
Qed.










(** ** Freeing a cache tree *)

Lemma agree_refl s Is Es : agree s s Is Es.
Proof. split; reflexivity. Qed.

Lemma agree_inode s s1 Is Es i x :
  agree s s1 Is Es → i ∈ Is → inodes s !! i = Some x →
  ∃ x1, inodes s1 !! i = Some x1
        ∧ i_super x1 = i_super x ∧ i_nlink x1 = i_nlink x
        ∧ i_subdir x1 = i_subdir x ∧ i_localname x1 = i_localname x.
Proof.
  intros [Hi _] Hin Hx. specialize (Hi i Hin). rewrite Hx in Hi.
  destruct (inodes s1 !! i) as [x1|]; [|discriminate].
  exists x1. split; [reflexivity|]. cbn in Hi. injection Hi as H1 H2 H3 H4 H5.
  unfold i_nlink. now rewrite H3.
Qed.

Lemma dec_int_add n m z : dec_int n (dec_int m z) = dec_int (m + n) z.
Proof. unfold dec_int. rewrite Nat.add_comm. now rewrite Nat.iter_add. Qed.

Lemma set_i_subdir_id x : set_i_subdir (i_subdir x) x = x.
Proof. now destruct x. Qed.

Lemma set_s_ino_usage_id r : set_s_ino_usage (s_ino_usage r) r = r.
Proof. now destruct r. Qed.

Lemma g_list_remove_head e l : g_list_remove e (e :: l) = l.
Proof. cbn. now rewrite Pos.eqb_refl. Qed.

Section Free_tree.
Variable me : vfs_class.

Lemma free_inode_last (fuel : nat) (ino : inode_id) (x1 : vfs_s_inode) (s1 s2 : state)
    (r2 : vfs_s_super) :
  inodes s1 !! ino = Some x1 →
  i_nlink x1 ≤ 1 →
  free_subdir fuel me ino s1 = Ret tt s2 →
  inodes s2 !! ino = Some (set_i_subdir [] x1) →
  supers_heap s2 !! i_super x1 = Some r2 →
  vfs_s_free_inode (S fuel) me (Some ino) s1
  = Ret tt
      (upd_inodes (delete ino)
         (upd_supers_heap
            (insert (i_super x1) (set_s_ino_usage (wrap_int (s_ino_usage r2 - 1)) r2))
            (set_total_inodes (wrap_int (total_inodes s2 - 1))
               (log_events (own_events me ino x1) s2)))).
Proof.
  intros Hx Hn Hsub Hx2 Hr2. cbn [vfs_s_free_inode].
  rewrite (bind_Ret _ _ _ _ _ (get_inode_Some _ _ _ Hx)).
  assert ((1 <? i_nlink x1) = false) as -> by (apply Z.ltb_ge; lia).
  rewrite (bind_Ret _ _ _ _ _ Hsub).
  unfold own_events.
  destruct (i_localname x1) as [ln|] eqn:Hln;
    msimpl; mrew Hx2; rewrite Hln; msimpl; mrew Hr2;
    f_equal; unfold upd_inodes, upd_supers_heap, set_total_inodes, log_events;
    cbn; f_equal; rewrite <- ?app_assoc, ?app_nil_r; reflexivity.
Qed.

Lemma free_entry_step (fuel : nat) (ent : entry_id) (y : vfs_s_entry)
    (dir ino : inode_id) (xd xc : vfs_s_inode) (s1 s2 : state) :
  entries s1 !! ent = Some y →
  e_dir y = Some dir →
  e_ino y = Some ino →
  inodes s1 !! dir = Some xd →
  inodes s1 !! ino = Some xc →
  ino ≠ dir →
  vfs_s_free_inode fuel me (Some ino)
    (upd_inodes (insert ino (set_i_ent None xc))
       (upd_inodes (insert dir (set_i_subdir (g_list_remove ent (i_subdir xd)) xd)) s1))
    = Ret tt s2 →
  vfs_s_free_entry (S fuel) me ent s1
  = Ret tt (upd_entries (delete ent)
              (set_total_entries (wrap_int (total_entries s2 - 1)) s2)).
Proof.
  intros Hy Hdir Hino Hxd Hxc Hne Hfree. cbn [vfs_s_free_entry].
  rewrite (bind_Ret _ _ _ _ _ (get_entry_Some _ _ _ Hy)).
  rewrite Hdir, Hino. msimpl. mrew Hxd. mlookup. mrew Hxc.
  rewrite Hfree. reflexivity.
Qed.

Lemma tree_at_head s super ino Is Es : tree_at s super ino Is Es → ino ∈ Is.
Proof. destruct 1. apply elem_of_cons. now left. Qed.

Lemma dec_int_S n z : wrap_int (dec_int n z - 1) = dec_int (S n) z.
Proof. reflexivity. Qed.

Lemma set_i_ent_idem x : set_i_ent None (set_i_ent None x) = set_i_ent None x.
Proof. reflexivity. Qed.

Lemma set_i_subdir_twice l l' x : set_i_subdir l (set_i_subdir l' x) = set_i_subdir l x.
Proof. reflexivity. Qed.

Lemma set_s_ino_usage_twice a b r :
  set_s_ino_usage a (set_s_ino_usage b r) = set_s_ino_usage a r.
Proof. reflexivity. Qed.

Lemma tree_frees_node s super ino x Is Es :
  inodes s !! ino = Some x →
  i_super x = super →
  i_nlink x ≤ 1 →
  kids_free me s super ino (i_subdir x) Is Es →
  ino ∉ Is →
  tree_frees me s super ino (ino :: Is) Es.
Proof.
  intros Hx Hsup Hn IH Hnotin s1 r1 fuel Hag Hr1 Hfuel.
  destruct (agree_inode _ _ _ _ _ _ Hag (list_elem_of_here _ _) Hx)
    as (x1 & Hx1 & Hs1 & Hn1 & Hd1 & Hl1).
  destruct fuel as [|fuel]; [cbn in Hfuel; lia|].
  destruct (IH s1 r1 fuel x1) as (s2 & Hrun & Hfr); auto.
  { destruct Hag as [Ha Hb]. split; intros; [apply Ha; now apply list_elem_of_further|now apply Hb]. }
  { cbn [List.length] in Hfuel. lia. }
  destruct Hfr as (Hi & He & Hsu & Hti & Hte & evs & Htr).
  assert (inodes s2 !! ino = Some (set_i_subdir [] x1)) as Hino2.
  { rewrite Hi. rewrite decide_False by assumption. cbn. now rewrite lookup_insert_eq. }
  assert (supers_heap s2 !! i_super x1
          = Some (set_s_ino_usage (dec_int (List.length Is) (s_ino_usage r1)) r1)) as Hr2.
  { rewrite Hsu, Hs1, Hsup. rewrite decide_True by reflexivity. cbn in *. now rewrite Hr1. }
  eexists. split.
  { eapply free_inode_last; [exact Hx1|lia|exact Hrun|exact Hino2|exact Hr2]. }
  split.
  - repeat split; cbn.
    + intros i. destruct (decide (i = ino)) as [->|Hne].
      * rewrite lookup_delete_eq. rewrite decide_True; [reflexivity|apply list_elem_of_here].
      * rewrite lookup_delete_ne by congruence. rewrite Hi. cbn.
        rewrite lookup_insert_ne by congruence.
        destruct (decide (i ∈ Is)), (decide (i ∈ ino :: Is)); try reflexivity.
        -- exfalso. apply n. now apply list_elem_of_further.
        -- exfalso. apply elem_of_cons in e as [|]; congruence.
    + intros e. rewrite He. reflexivity.
    + intros su. rewrite Hs1, Hsup. destruct (decide (su = super)) as [->|Hne].
      * rewrite lookup_insert_eq, Hr1. reflexivity.
      * rewrite lookup_insert_ne by congruence. rewrite Hsu.
        rewrite decide_False by assumption. reflexivity.
    + rewrite Hti. reflexivity.
    + rewrite Hte. reflexivity.
    + eexists. rewrite Htr. cbn. rewrite <- app_assoc. reflexivity.
  - intros x' Hx'. rewrite Hx in Hx'. injection Hx' as <-.
    exists evs. cbn. rewrite Htr. cbn. rewrite <- app_assoc.
    unfold own_events. now rewrite Hl1.
Qed.

Lemma kids_free_nil s super dir : kids_free me s super dir [] [] [].
Proof.
  intros s1 r1 fuel xd _ Hr1 Hxd Hsub _ Hfuel.
  destruct fuel as [|fuel]; [cbn in Hfuel; lia|].
  exists s1. split.
  - cbn [free_subdir]. rewrite (bind_Ret _ _ _ _ _ (get_inode_Some _ _ _ Hxd)).
    now rewrite Hsub.
  - replace (set_i_subdir [] xd) with xd by (destruct xd; cbn in Hsub; now subst).
    repeat split; cbn; try reflexivity.
    + intros i. rewrite decide_False by apply not_elem_of_nil.
      destruct (decide (i = dir)) as [->|Hne].
      * now rewrite lookup_insert_eq.
      * now rewrite lookup_insert_ne by congruence.
    + intros su. destruct (decide (su = super)); [|reflexivity].
      destruct (supers_heap s1 !! su) as [r|]; [|reflexivity].
      cbn. now rewrite set_s_ino_usage_id.
    + exists []. now rewrite app_nil_r.
Qed.

Lemma kids_free_cons s super dir ent ents y ino Ic Is Ec Es :
  entries s !! ent = Some y →
  e_dir y = Some dir →
  e_ino y = Some ino →
  tree_at s super ino Ic Ec →
  tree_frees me s super ino Ic Ec →
  kids_free me s super dir ents Is Es →
  ent ∉ Ec →
  ent ∉ Es →
  (∀ i, i ∈ Ic → i ∉ Is) →
  (∀ e, e ∈ Ec → e ∉ Es) →
  kids_free me s super dir (ent :: ents) (Ic ++ Is) (ent :: Ec ++ Es).
Proof.
  intros Hy Hdir Hino Htree IHc IHs HentEc HentEs HdisI HdisE
    s1 r1 fuel xd [HagI HagE] Hr1 Hxd Hsub Hdirnot Hfuel.
  apply not_elem_of_app in Hdirnot as [HdirIc HdirIs].
  assert (ino ∈ Ic) as HinoIc by exact (tree_at_head _ _ _ _ _ Htree).
  assert (ino ≠ dir) as Hne by congruence.
  assert (∃ x, inodes s !! ino = Some x) as [x Hx] by (destruct Htree; eauto).
  destruct (agree_inode s s1 (Ic ++ Is) (ent :: Ec ++ Es) ino x) as (xc & Hxc & _);
    [split; assumption|apply elem_of_app; now left|assumption|].
  assert (entries s1 !! ent = Some y) as Hy1.
  { rewrite HagE; [assumption|apply list_elem_of_here]. }
  rewrite length_app in Hfuel. cbn [List.length] in Hfuel. rewrite length_app in Hfuel.
  destruct fuel as [|[|fuel]]; [lia|lia|].
  set (sb := upd_inodes (insert ino (set_i_ent None xc))
               (upd_inodes (insert dir (set_i_subdir ents xd)) s1)).
  destruct (IHc sb r1 fuel) as (s2 & Hrun2 & Hfr2 & _).
  { split.
    - intros i Hi. rewrite <- HagI by (apply elem_of_app; now left).
      subst sb. cbn. destruct (decide (i = ino)) as [->|Hni].
      + rewrite lookup_insert_eq, Hxc. reflexivity.
      + rewrite lookup_insert_ne by congruence.
        rewrite lookup_insert_ne by congruence. reflexivity.
    - intros e He. rewrite <- HagE; [reflexivity|].
      apply list_elem_of_further, elem_of_app. now left. }
  { exact Hr1. }
  { lia. }
  destruct Hfr2 as (Hi2 & He2 & Hsu2 & Hti2 & Hte2 & evs2 & Htr2).
  set (sc := upd_entries (delete ent)
               (set_total_entries (wrap_int (total_entries s2 - 1)) s2)).
  assert (vfs_s_free_entry (S fuel) me ent s1 = Ret tt sc) as Hent.
  { eapply free_entry_step; eauto. rewrite Hsub, g_list_remove_head. exact Hrun2. }
  assert (inodes sc !! dir = Some (set_i_subdir ents xd)) as Hxd2.
  { subst sc. cbn. rewrite Hi2, decide_False by assumption. subst sb. cbn.
    rewrite lookup_insert_ne by congruence. now rewrite lookup_insert_eq. }
  destruct (IHs sc (set_s_ino_usage (dec_int (List.length Ic) (s_ino_usage r1)) r1)
              (S fuel) (set_i_subdir ents xd)) as (s3 & Hrun3 & Hfr3).
  { split.
    - intros i Hi. rewrite <- HagI by (apply elem_of_app; now right).
      subst sc. cbn. rewrite Hi2.
      rewrite decide_False by (intros Hc; exact (HdisI _ Hc Hi)).
      subst sb. cbn.
      rewrite lookup_insert_ne by (intros ->; exact (HdisI _ HinoIc Hi)).
      rewrite lookup_insert_ne by (intros ->; exact (HdirIs Hi)). reflexivity.
    - intros e He. rewrite <- HagE
        by (apply list_elem_of_further, elem_of_app; now right).
      subst sc. cbn. rewrite lookup_delete_ne by (intros ->; exact (HentEs He)).
      rewrite He2. rewrite decide_False by (intros Hc; exact (HdisE _ Hc He)).
      reflexivity. }
  { subst sc. cbn. rewrite Hsu2, decide_True by reflexivity. subst sb. cbn.
    now rewrite Hr1. }
  { exact Hxd2. }
  { reflexivity. }
  { assumption. }
  { lia. }
  destruct Hfr3 as (Hi3 & He3 & Hsu3 & Hti3 & Hte3 & evs3 & Htr3).
  exists s3. split.
  { cbn [free_subdir]. rewrite (bind_Ret _ _ _ _ _ (get_inode_Some _ _ _ Hxd)).
    rewrite Hsub. unfold bind at 1. rewrite Hent. exact Hrun3. }
  repeat split.
  - intros i. rewrite Hi3. cbn. destruct (decide (i = dir)) as [->|Hnd].
    + rewrite !lookup_insert_eq. rewrite decide_False by assumption.
      rewrite decide_False; [reflexivity|].
      intros Hc. apply elem_of_app in Hc as [|]; contradiction.
    + rewrite !lookup_insert_ne by congruence. rewrite Hi2. subst sb. cbn.
      destruct (decide (i ∈ Is)) as [HIs|HIs].
      * rewrite decide_True; [reflexivity|apply elem_of_app; now right].
      * destruct (decide (i ∈ Ic)) as [HIc|HIc].
        -- rewrite decide_True; [reflexivity|apply elem_of_app; now left].
        -- rewrite decide_False
             by (intros Hc; apply elem_of_app in Hc as [|]; contradiction).
           rewrite lookup_insert_ne by (intros ->; contradiction).
           now rewrite lookup_insert_ne by congruence.
  - intros e. rewrite He3. cbn. destruct (decide (e = ent)) as [->|Hne'].
    + rewrite lookup_delete_eq. rewrite (decide_True (P := ent ∈ ent :: _));
        [now destruct (decide (ent ∈ Es))|apply list_elem_of_here].
    + rewrite lookup_delete_ne by congruence. rewrite He2. subst sb. cbn.
      destruct (decide (e ∈ Es)) as [HEs|HEs].
      * rewrite decide_True; [reflexivity|].
        apply list_elem_of_further, elem_of_app. now right.
      * destruct (decide (e ∈ Ec)) as [HEc|HEc].
        -- rewrite decide_True; [reflexivity|].
           apply list_elem_of_further, elem_of_app. now left.
        -- rewrite decide_False; [reflexivity|].
           intros Hc. apply elem_of_cons in Hc as [|Hc]; [congruence|].
           apply elem_of_app in Hc as [|]; contradiction.
  - intros su. rewrite Hsu3. cbn. rewrite Hsu2. subst sb. cbn.
    destruct (decide (su = super)); [|reflexivity].
    destruct (supers_heap s1 !! su) as [r|]; [|reflexivity].
    cbn. rewrite set_s_ino_usage_twice. destruct r; cbn.
    now rewrite dec_int_add, length_app.
  - rewrite Hti3. cbn. rewrite Hti2. subst sb. cbn.
    now rewrite dec_int_add, length_app.
  - rewrite Hte3. cbn. rewrite Hte2. subst sb. cbn.
    rewrite dec_int_S, dec_int_add, length_app. reflexivity.
  - rewrite Htr3. cbn. rewrite Htr2. subst sb. cbn.
    exists (evs2 ++ evs3)%list. now rewrite app_assoc.
Qed.

Lemma tree_kids_free s super :
  (∀ ino Is Es, tree_at s super ino Is Es → tree_frees me s super ino Is Es)
  ∧ (∀ dir ents Is Es, kids_at s super dir ents Is Es →
       kids_free me s super dir ents Is Es).
Proof.
  apply tree_kids_ind.
  - intros. eapply tree_frees_node; eauto.
  - apply kids_free_nil.
  - intros. eapply kids_free_cons; eauto.
Qed.
End Free_tree.

Lemma kids_at_cover s super dir ents Is Es :
  kids_at s super dir ents Is Es → ∀ e, e ∈ ents → e ∈ Es.
Proof.
  induction 1 as [|dir ent ents y ino Ic Is Ec Es _ _ _ _ _ IH _ _ _ _]; intros e He.
  - exact He.
  - apply elem_of_cons in He as [->|He]; [apply list_elem_of_here|].
    apply list_elem_of_further, elem_of_app. right. now apply IH.
Qed.

(** ** Freeing a cache in which inodes are held *)

(** ** Freeing a cache with held inodes *)

Section Free_cache.
Variable me : vfs_class.

Lemma cache_at_head s super ino Is Es Hs : cache_at s super ino Is Es Hs → ino ∈ Is.
Proof. destruct 1. apply elem_of_cons. now left. Qed.

Lemma agree_sub s s1 Is Is' Es Es' :
  agree s s1 Is Es →
  (∀ i, i ∈ Is' → i ∈ Is) → (∀ e, e ∈ Es' → e ∈ Es) →
  agree s s1 Is' Es'.
Proof. intros [Ha Hb] HI HE. split; intros; [apply Ha|apply Hb]; auto. Qed.

Lemma cache_frees_node s super ino x Is Es Hs :
  inodes s !! ino = Some x →
  i_super x = super →
  i_nlink x ≤ 1 →
  ckids_free me s super ino (i_subdir x) Is Es Hs →
  ino ∉ Is →
  ino ∉ Hs →
  cache_frees me s super ino (ino :: Is) Es Hs.
Proof.
  intros Hx Hsup Hn IH Hnotin HnotH s1 r1 fuel Hag Hr1 Hfuel.
  destruct (agree_inode _ _ _ _ _ _ Hag (list_elem_of_here _ _) Hx)
    as (x1 & Hx1 & Hs1 & Hn1 & Hd1 & Hl1).
  destruct fuel as [|fuel]; [cbn in Hfuel; lia|].
  destruct (IH s1 r1 fuel x1) as (s2 & Hrun & Hfr); auto.
  { apply (agree_sub _ _ _ _ _ _ Hag); [|auto]. intros i Hi.
    now apply list_elem_of_further. }
  { cbn [List.length] in Hfuel. lia. }
  destruct Hfr as (Hi & He & Hsu & Hti & Hte & evs & Htr).
  assert (inodes s2 !! ino = Some (set_i_subdir [] x1)) as Hino2.
  { rewrite Hi. rewrite !decide_False by assumption. cbn. now rewrite lookup_insert_eq. }
  assert (supers_heap s2 !! i_super x1
          = Some (set_s_ino_usage (dec_int (List.length Is) (s_ino_usage r1)) r1)) as Hr2.
  { rewrite Hsu, Hs1, Hsup. rewrite decide_True by reflexivity. cbn in *. now rewrite Hr1. }
  eexists. split.
  { eapply free_inode_last; [exact Hx1|lia|exact Hrun|exact Hino2|exact Hr2]. }
  split.
  - repeat split; cbn.
    + intros i. destruct (decide (i = ino)) as [->|Hne].
      * rewrite lookup_delete_eq. rewrite decide_True; [reflexivity|apply list_elem_of_here].
      * rewrite lookup_delete_ne by congruence. rewrite Hi. cbn.
        rewrite lookup_insert_ne by congruence.
        destruct (decide (i ∈ Is)), (decide (i ∈ ino :: Is)); try reflexivity.
        -- exfalso. apply n. now apply list_elem_of_further.
        -- exfalso. apply elem_of_cons in e as [|]; congruence.
    + intros e. rewrite He. reflexivity.
    + intros su. rewrite Hs1, Hsup. destruct (decide (su = super)) as [->|Hne].
      * rewrite lookup_insert_eq, Hr1. reflexivity.
      * rewrite lookup_insert_ne by congruence. rewrite Hsu.
        rewrite decide_False by assumption. reflexivity.
    + rewrite Hti. reflexivity.
    + rewrite Hte. reflexivity.
    + eexists. rewrite Htr. cbn. rewrite <- app_assoc. reflexivity.
  - intros x' Hx'. rewrite Hx in Hx'. injection Hx' as <-.
    exists evs. cbn. rewrite Htr. cbn. rewrite <- app_assoc.
    unfold own_events. now rewrite Hl1.
Qed.

Lemma ckids_free_nil s super dir : ckids_free me s super dir [] [] [] [].
Proof.
  intros s1 r1 fuel xd _ Hr1 Hxd Hsub _ _ Hfuel.
  destruct fuel as [|fuel]; [cbn in Hfuel; lia|].
  exists s1. split.
  - cbn [free_subdir]. rewrite (bind_Ret _ _ _ _ _ (get_inode_Some _ _ _ Hxd)).
    now rewrite Hsub.
  - replace (set_i_subdir [] xd) with xd by (destruct xd; cbn in Hsub; now subst).
    repeat split; cbn; try reflexivity.
    + intros i. rewrite !decide_False by apply not_elem_of_nil.
      destruct (decide (i = dir)) as [->|Hne].
      * now rewrite lookup_insert_eq.
      * now rewrite lookup_insert_ne by congruence.
    + intros su. destruct (decide (su = super)); [|reflexivity].
      destruct (supers_heap s1 !! su) as [r|]; [|reflexivity].
      cbn. now rewrite set_s_ino_usage_id.
    + exists []. now rewrite app_nil_r.
Qed.

Lemma dec_int_one n z : dec_int n (wrap_int (z - 1)) = dec_int (S n) z.
Proof. change (wrap_int (z - 1)) with (dec_int 1 z). now rewrite dec_int_add. Qed.

Lemma ckids_free_held s super dir ent ents y ino x Is Es Hs :
  entries s !! ent = Some y →
  e_dir y = Some dir →
  e_ino y = Some ino →
  inodes s !! ino = Some x →
  1 < i_nlink x →
  ckids_free me s super dir ents Is Es Hs →
  ent ∉ Es →
  ino ∉ Is →
  ino ∉ Hs →
  ckids_free me s super dir (ent :: ents) Is (ent :: Es) (ino :: Hs).
Proof.
  intros Hy Hdir Hino Hx Hn IHs HentEs HinoIs HinoHs
    s1 r1 fuel xd Hag Hr1 Hxd Hsub HdirIs HdirHs Hfuel.
  apply not_elem_of_cons in HdirHs as [Hne HdirHs].
  assert (ino ≠ dir) as Hne' by congruence.
  destruct (agree_inode s s1 _ _ ino x Hag) as (xc & Hxc & _ & Hnc & _);
    [apply elem_of_app; right; apply list_elem_of_here|assumption|].
  destruct Hag as [HagI HagE].
  assert (entries s1 !! ent = Some y) as Hy1.
  { rewrite HagE; [assumption|apply list_elem_of_here]. }
  cbn [List.length] in Hfuel.
  destruct fuel as [|[|[|fuel]]]; [lia|lia|lia|].
  set (sb := upd_inodes (insert ino (set_i_ent None xc))
               (upd_inodes (insert dir (set_i_subdir ents xd)) s1)).
  assert (Hrun2 : vfs_s_free_inode (S fuel) me (Some ino) sb
                  = Ret tt (upd_inodes (insert ino (kept xc)) sb)).
  { apply (free_inode_shared me fuel ino (set_i_ent None xc) sb).
    - subst sb. cbn. apply lookup_insert_eq.
    - change (i_nlink (set_i_ent None xc)) with (i_nlink xc). lia. }
  set (s2 := upd_inodes (insert ino (kept xc)) sb) in *.
  set (sc := upd_entries (delete ent)
               (set_total_entries (wrap_int (total_entries s2 - 1)) s2)).
  assert (vfs_s_free_entry (S (S fuel)) me ent s1 = Ret tt sc) as Hent.
  { eapply free_entry_step; eauto. rewrite Hsub, g_list_remove_head. exact Hrun2. }
  assert (inodes sc !! dir = Some (set_i_subdir ents xd)) as Hxd2.
  { subst sc s2 sb. cbn. rewrite !lookup_insert_ne by congruence.
    now rewrite lookup_insert_eq. }
  destruct (IHs sc r1 (S (S fuel)) (set_i_subdir ents xd)) as (s3 & Hrun3 & Hfr3).
  { split.
    - intros i Hi. rewrite <- HagI.
      + subst sc s2 sb. cbn.
        assert (i ≠ ino) by (intros ->; apply elem_of_app in Hi as [|]; contradiction).
        assert (i ≠ dir) by (intros ->; apply elem_of_app in Hi as [|]; contradiction).
        now rewrite !lookup_insert_ne by congruence.
      + apply elem_of_app in Hi as [Hi|Hi]; apply elem_of_app; [now left|right].
        now apply list_elem_of_further.
    - intros e He. rewrite <- HagE by (now apply list_elem_of_further).
      subst sc. cbn. now rewrite lookup_delete_ne by (intros ->; contradiction). }
  { exact Hr1. }
  { exact Hxd2. }
  { reflexivity. }
  { assumption. }
  { assumption. }
  { lia. }
  destruct Hfr3 as (Hi3 & He3 & Hsu3 & Hti3 & Hte3 & evs3 & Htr3).
  exists s3. split.
  { cbn [free_subdir]. rewrite (bind_Ret _ _ _ _ _ (get_inode_Some _ _ _ Hxd)).
    rewrite Hsub. unfold bind at 1. rewrite Hent. exact Hrun3. }
  repeat split.
  - intros i. rewrite Hi3. cbn. destruct (decide (i = dir)) as [->|Hnd].
    + rewrite !lookup_insert_eq.
      repeat case_decide; try contradiction; try reflexivity.
      exfalso. match goal with H : dir ∈ ino :: Hs |- _ =>
        apply elem_of_cons in H as [|]; contradiction end.
    + rewrite !(lookup_insert_ne _ dir) by congruence.
      destruct (decide (i ∈ Is)) as [HIs|HIs]; [reflexivity|].
      destruct (decide (i = ino)) as [->|Hni].
      * rewrite lookup_insert_eq. rewrite decide_False by assumption.
        rewrite decide_True by apply list_elem_of_here. now rewrite Hxc.
      * rewrite !lookup_insert_ne by congruence.
        destruct (decide (i ∈ Hs)) as [HHs|HHs].
        -- rewrite decide_True by (now apply list_elem_of_further). reflexivity.
        -- rewrite decide_False; [reflexivity|].
           intros Hc. apply elem_of_cons in Hc as [|]; contradiction.
  - intros e. rewrite He3. cbn. destruct (decide (e = ent)) as [->|Hne''].
    + rewrite lookup_delete_eq. rewrite (decide_True (P := ent ∈ ent :: _));
        [now destruct (decide (ent ∈ Es))|apply list_elem_of_here].
    + rewrite lookup_delete_ne by congruence.
      destruct (decide (e ∈ Es)) as [HEs|HEs].
      * rewrite decide_True; [reflexivity|now apply list_elem_of_further].
      * rewrite decide_False; [reflexivity|].
        intros Hc. apply elem_of_cons in Hc as [|Hc]; contradiction.
  - intros su. rewrite Hsu3. reflexivity.
  - rewrite Hti3. reflexivity.
  - rewrite Hte3. cbn. apply dec_int_one.
  - rewrite Htr3. cbn. exists evs3. reflexivity.
Qed.

Lemma ckids_free_tree s super dir ent ents y ino Ic Is Ec Es Hc Hs :
  entries s !! ent = Some y →
  e_dir y = Some dir →
  e_ino y = Some ino →
  cache_at s super ino Ic Ec Hc →
  cache_frees me s super ino Ic Ec Hc →
  ckids_free me s super dir ents Is Es Hs →
  ent ∉ Ec →
  ent ∉ Es →
  (∀ i, i ∈ Ic → i ∉ Is) →
  (∀ e, e ∈ Ec → e ∉ Es) →
  (∀ i, i ∈ Ic → i ∉ Hs) →
  (∀ i, i ∈ Hc → i ∉ Is) →
  (∀ i, i ∈ Hc → i ∉ Hs) →
  ckids_free me s super dir (ent :: ents) (Ic ++ Is) (ent :: Ec ++ Es) (Hc ++ Hs).
Proof.
  intros Hy Hdir Hino Htree IHc IHs HentEc HentEs HdisI HdisE HdisIH HdisHI HdisHH
    s1 r1 fuel xd [HagI HagE] Hr1 Hxd Hsub Hdirnot HdirH Hfuel.
  apply not_elem_of_app in Hdirnot as [HdirIc HdirIs].
  apply not_elem_of_app in HdirH as [HdirHc HdirHs].
  assert (ino ∈ Ic) as HinoIc by exact (cache_at_head _ _ _ _ _ _ Htree).
  assert (ino ≠ dir) as Hne by congruence.
  assert (ino ∉ Hc) as HinoHc by (destruct Htree; assumption).
  assert (∃ x, inodes s !! ino = Some x) as [x Hx] by (destruct Htree; eauto).
  destruct (agree_inode s s1 _ _ ino x (conj HagI HagE)) as (xc & Hxc & _);
    [apply elem_of_app; left; apply elem_of_app; now left|assumption|].
  assert (entries s1 !! ent = Some y) as Hy1.
  { rewrite HagE; [assumption|apply list_elem_of_here]. }
  rewrite length_app in Hfuel. cbn [List.length] in Hfuel. rewrite length_app in Hfuel.
  destruct fuel as [|[|fuel]]; [lia|lia|].
  set (sb := upd_inodes (insert ino (set_i_ent None xc))
               (upd_inodes (insert dir (set_i_subdir ents xd)) s1)).
  destruct (IHc sb r1 fuel) as (s2 & Hrun2 & Hfr2 & _).
  { split.
    - intros i Hi. rewrite <- HagI.
      + subst sb. cbn. destruct (decide (i = ino)) as [->|Hni].
        * rewrite lookup_insert_eq, Hxc. reflexivity.
        * assert (i ≠ dir)
            by (intros ->; apply elem_of_app in Hi as [|]; contradiction).
          now rewrite !lookup_insert_ne by congruence.
      + apply elem_of_app in Hi as [Hi|Hi]; apply elem_of_app;
          [left|right]; apply elem_of_app; now left.
    - intros e He. rewrite <- HagE; [reflexivity|].
      apply list_elem_of_further, elem_of_app. now left. }
  { exact Hr1. }
  { lia. }
  destruct Hfr2 as (Hi2 & He2 & Hsu2 & Hti2 & Hte2 & evs2 & Htr2).
  set (sc := upd_entries (delete ent)
               (set_total_entries (wrap_int (total_entries s2 - 1)) s2)).
  assert (vfs_s_free_entry (S fuel) me ent s1 = Ret tt sc) as Hent.
  { eapply free_entry_step; eauto. rewrite Hsub, g_list_remove_head. exact Hrun2. }
  assert (inodes sc !! dir = Some (set_i_subdir ents xd)) as Hxd2.
  { subst sc. cbn. rewrite Hi2, !decide_False by assumption. subst sb. cbn.
    rewrite lookup_insert_ne by congruence. now rewrite lookup_insert_eq. }
  assert (Hrest : ∀ i, i ∈ (Is ++ Hs)%list → inodes sc !! i = inodes s1 !! i).
  { intros i Hi. subst sc. cbn. rewrite Hi2.
    assert (i ∉ Ic)
      by (intros Hc'; apply elem_of_app in Hi as [Hi|Hi];
          [exact (HdisI _ Hc' Hi)|exact (HdisIH _ Hc' Hi)]).
    assert (i ∉ Hc)
      by (intros Hc'; apply elem_of_app in Hi as [Hi|Hi];
          [exact (HdisHI _ Hc' Hi)|exact (HdisHH _ Hc' Hi)]).
    rewrite !decide_False by assumption. subst sb. cbn.
    assert (i ≠ ino) by congruence.
    assert (i ≠ dir)
      by (intros ->; apply elem_of_app in Hi as [|]; contradiction).
    now rewrite !lookup_insert_ne by congruence. }
  destruct (IHs sc (set_s_ino_usage (dec_int (List.length Ic) (s_ino_usage r1)) r1)
              (S fuel) (set_i_subdir ents xd)) as (s3 & Hrun3 & Hfr3).
  { split.
    - intros i Hi. rewrite (Hrest i Hi). apply HagI.
      apply elem_of_app in Hi as [Hi|Hi]; apply elem_of_app;
        [left|right]; apply elem_of_app; now right.
    - intros e He. rewrite <- HagE
        by (apply list_elem_of_further, elem_of_app; now right).
      subst sc. cbn. rewrite lookup_delete_ne by (intros ->; exact (HentEs He)).
      rewrite He2. rewrite decide_False by (intros Hc'; exact (HdisE _ Hc' He)).
      reflexivity. }
  { subst sc. cbn. rewrite Hsu2, decide_True by reflexivity. subst sb. cbn.
    now rewrite Hr1. }
  { exact Hxd2. }
  { reflexivity. }
  { assumption. }
  { assumption. }
  { lia. }
  destruct Hfr3 as (Hi3 & He3 & Hsu3 & Hti3 & Hte3 & evs3 & Htr3).
  exists s3. split.
  { cbn [free_subdir]. rewrite (bind_Ret _ _ _ _ _ (get_inode_Some _ _ _ Hxd)).
    rewrite Hsub. unfold bind at 1. rewrite Hent. exact Hrun3. }
  repeat split.
  - intros i. rewrite Hi3. cbn. destruct (decide (i = dir)) as [->|Hnd].
    + rewrite !lookup_insert_eq.
      repeat case_decide; try contradiction; try reflexivity;
        exfalso;
        repeat match goal with
               | H : _ ∈ (_ ++ _)%list |- _ => apply elem_of_app in H as [|]
               end; contradiction.
    + rewrite !(lookup_insert_ne _ dir) by congruence. rewrite Hi2. subst sb. cbn.
      destruct (decide (i ∈ Is)) as [HIs|HIs].
      { rewrite decide_True; [reflexivity|apply elem_of_app; now right]. }
      destruct (decide (i ∈ Ic)) as [HIc|HIc].
      { rewrite (decide_True (P := i ∈ (Ic ++ Is)%list))
          by (apply elem_of_app; now left).
        destruct (decide (i ∈ Hs)) as [HHs|]; [|reflexivity].
        exfalso. exact (HdisIH _ HIc HHs). }
      rewrite (decide_False (P := i ∈ (Ic ++ Is)%list))
        by (intros Hc'; apply elem_of_app in Hc' as [|]; contradiction).
      assert (i ≠ ino) by congruence.
      rewrite !lookup_insert_ne by congruence.
      destruct (decide (i ∈ Hs)) as [HHs|HHs].
      { rewrite (decide_True (P := i ∈ (Hc ++ Hs)%list))
          by (apply elem_of_app; now right).
        rewrite (decide_False (P := i ∈ Hc)); [reflexivity|].
        intros Hc'. exact (HdisHH _ Hc' HHs). }
      destruct (decide (i ∈ Hc)) as [HHc|HHc].
      { rewrite (decide_True (P := i ∈ (Hc ++ Hs)%list))
          by (apply elem_of_app; now left).
        reflexivity. }
      rewrite (decide_False (P := i ∈ (Hc ++ Hs)%list)); [reflexivity|].
      intros Hc'. apply elem_of_app in Hc' as [|]; contradiction.
  - intros e. rewrite He3. cbn. destruct (decide (e = ent)) as [->|Hne'].
    + rewrite lookup_delete_eq. rewrite (decide_True (P := ent ∈ ent :: _));
        [now destruct (decide (ent ∈ Es))|apply list_elem_of_here].
    + rewrite lookup_delete_ne by congruence. rewrite He2. subst sb. cbn.
      destruct (decide (e ∈ Es)) as [HEs|HEs].
      * rewrite decide_True; [reflexivity|].
        apply list_elem_of_further, elem_of_app. now right.
      * destruct (decide (e ∈ Ec)) as [HEc|HEc].
        -- rewrite decide_True; [reflexivity|].
           apply list_elem_of_further, elem_of_app. now left.
        -- rewrite decide_False; [reflexivity|].
           intros Hc'. apply elem_of_cons in Hc' as [|Hc']; [congruence|].
           apply elem_of_app in Hc' as [|]; contradiction.
  - intros su. rewrite Hsu3. cbn. rewrite Hsu2. subst sb. cbn.
    destruct (decide (su = super)); [|reflexivity].
    destruct (supers_heap s1 !! su) as [r|]; [|reflexivity].
    cbn. rewrite set_s_ino_usage_twice. destruct r; cbn.
    now rewrite dec_int_add, length_app.
  - rewrite Hti3. cbn. rewrite Hti2. subst sb. cbn.
    now rewrite dec_int_add, length_app.
  - rewrite Hte3. cbn. rewrite Hte2. subst sb. cbn.
    rewrite dec_int_S, dec_int_add, length_app. reflexivity.
  - rewrite Htr3. cbn. rewrite Htr2. subst sb. cbn.
    exists (evs2 ++ evs3)%list. now rewrite app_assoc.
Qed.

Lemma cache_kids_free s super :
  (∀ ino Is Es Hs, cache_at s super ino Is Es Hs → cache_frees me s super ino Is Es Hs)
  ∧ (∀ dir ents Is Es Hs, ckids_at s super dir ents Is Es Hs →
       ckids_free me s super dir ents Is Es Hs).
Proof.
  apply cache_kids_ind.
  - intros. eapply cache_frees_node; eauto.
  - apply ckids_free_nil.
  - intros. eapply ckids_free_tree; eauto.
  - intros. eapply ckids_free_held; eauto.
Qed.
End Free_cache.

Lemma ckids_at_cover s super dir ents Is Es Hs :
  ckids_at s super dir ents Is Es Hs → ∀ e, e ∈ ents → e ∈ Es.
Proof.
  induction 1; intros e He.
  - exact He.
  - apply elem_of_cons in He as [->|He]; [apply list_elem_of_here|].
    apply list_elem_of_further, elem_of_app. right. auto.
  - apply elem_of_cons in He as [->|He]; [apply list_elem_of_here|].
    apply list_elem_of_further. auto.
Qed.

Lemma cache_kids_disjoint s super :
  (∀ ino Is Es Hs, cache_at s super ino Is Es Hs → ∀ i, i ∈ Is → i ∉ Hs)
  ∧ (∀ dir ents Is Es Hs, ckids_at s super dir ents Is Es Hs →
       ∀ i, i ∈ Is → i ∉ Hs).
Proof.
  apply cache_kids_ind.
  - intros ino x Is Es Hs _ _ _ _ IH _ HnH i Hi.
    apply elem_of_cons in Hi as [->|Hi]; [exact HnH|exact (IH i Hi)].
  - intros dir i Hi. now apply not_elem_of_nil in Hi.
  - intros dir ent ents y ino Ic Is Ec Es Hc Hs _ _ _ _ IHc _ IHs _ _ _ _
      HdisIH HdisHI _ i Hi Hh.
    apply elem_of_app in Hi as [Hi|Hi]; apply elem_of_app in Hh as [Hh|Hh].
    + exact (IHc i Hi Hh).
    + exact (HdisIH i Hi Hh).
    + exact (HdisHI i Hh Hi).
    + exact (IHs i Hi Hh).
  - intros dir ent ents y ino x Is Es Hs _ _ _ _ _ _ IH _ HinoIs _ i Hi Hh.
    apply elem_of_cons in Hh as [->|Hh]; [exact (HinoIs Hi)|exact (IH i Hi Hh)].
Qed.

(** A cache tree is a cache in which no inode is held. *)
Lemma tree_kids_cache s super :
  (∀ ino Is Es, tree_at s super ino Is Es → cache_at s super ino Is Es [])
  ∧ (∀ dir ents Is Es, kids_at s super dir ents Is Es →
       ckids_at s super dir ents Is Es []).
Proof.
  apply tree_kids_ind.
  - intros ino x Is Es Hx Hsup Hn _ IH Hni.
    apply (cache_node s super ino x Is Es []); try assumption.
    apply not_elem_of_nil.
  - constructor.
  - intros dir ent ents y ino Ic Is Ec Es Hy Hd Hi _ IHc _ IHs HentEc HentEs HdI HdE.
    apply (ckids_tree s super dir ent ents y ino Ic Is Ec Es [] []);
      try assumption;
      intros i Hc; first [apply not_elem_of_nil | now apply not_elem_of_nil in Hc].
Qed.

(** C1 (amended).  [vfs_s_free_inode] on a live inode.  With more than
    one link it only takes one link away: the inode, its children and the
    counters stay.  With one link or none, over the part of the cache that the
    free walks (no inode or entry in it is reached twice) and with fuel
    for the recursion, it returns after it has freed every child entry in
    [subdir] and, with each entry, the entry's inode: in the same way,
    with its own children, when that inode has one link at most, while an
    inode that other links hold only loses one link and its back pointer
    and keeps its own children.  It has then called the [free_inode] hook
    and unlinked the local copy as its last events, has taken the freed
    inodes off the superblock's [ino_usage] and off the global inode
    count, and has deallocated the inode; nothing else changes. *)
Theorem free_inode_releases (me : vfs_class) (s : state) (ino : inode_id)
    (x : vfs_s_inode) :
  inodes s !! ino = Some x →
  (1 < i_nlink x →
   ∀ fuel,
     vfs_s_free_inode (S fuel) me (Some ino) s
     = Ret tt (upd_inodes (insert ino (set_i_nlink (wrap_u64 (i_nlink x - 1)) x)) s))
  ∧ (i_nlink x ≤ 1 →
     ∀ (Is : list inode_id) (Es : list entry_id) (Hs : list inode_id)
       (r : vfs_s_super) (fuel : nat),
       cache_at s (i_super x) ino Is Es Hs →
       supers_heap s !! i_super x = Some r →
       (2 * (List.length Is + List.length Es) ≤ fuel)%nat →
       ∃ s2 evs,
         vfs_s_free_inode fuel me (Some ino) s = Ret tt s2
         ∧ released s s2 (i_super x) Is Es Hs
         ∧ inodes s2 !! ino = None
         ∧ (∀ e, e ∈ i_subdir x → entries s2 !! e = None)
         ∧ (∀ h, h ∈ Hs → inodes s2 !! h = kept <$> inodes s !! h)
         ∧ supers_heap s2 !! i_super x
           = Some (set_s_ino_usage (dec_int (List.length Is) (s_ino_usage r)) r)
         ∧ (1 ≤ List.length Is)%nat
         ∧ trace s2 = (trace s ++ evs ++ own_events me ino x)%list).
Proof.
  intros Hx. split.
  - intros Hn fuel. now apply free_inode_shared.
  - intros _ Is Es Hs r fuel Htree Hr Hfuel.
    destruct (proj1 (cache_kids_free me s (i_super x)) _ _ _ _ Htree s r fuel)
      as (s2 & Hrun & Hfr & Htr); [apply agree_refl|assumption|assumption|].
    destruct (Htr x Hx) as [evs Hevs].
    exists s2, evs.
    pose proof Hfr as (Hi & He & Hsu & _).
    pose proof (cache_at_head _ _ _ _ _ _ Htree) as Hin.
    split; [exact Hrun|]. split; [exact Hfr|].
    split; [rewrite Hi; now rewrite decide_True|].
    split.
    { intros e Hin'. rewrite He. rewrite decide_True; [reflexivity|].
      inversion Htree as [? x' ? ? ? Hx' _ _ Hkids _ _]; subst.
      rewrite Hx in Hx'. injection Hx' as <-.
      exact (ckids_at_cover _ _ _ _ _ _ _ Hkids e Hin'). }
    split.
    { intros h Hh. rewrite Hi.
      rewrite (decide_False (P := h ∈ Is)); [now rewrite decide_True|].
      intros Hc. exact (proj1 (cache_kids_disjoint s (i_super x)) _ _ _ _ Htree h Hc Hh). }
    split; [rewrite Hsu, decide_True by reflexivity; now rewrite Hr|].
    split; [destruct Htree; cbn; lia|exact Hevs].
Qed.

(** C1, as stated, fails below an inode that is held.  The root of an
    archive whose directory [a] is open has one link: its free frees the
    root and its three entries, but the inode of [a] stays with one link
    fewer, and so do its child entry [b] and the inode of [b]. *)
Lemma free_inode_releases_counterexample :
  ∃ (info : dirhandle) (x : vfs_s_inode) (s2 : state),
    vfs_s_opendir sample_env 9 tree_class "a" tree_state
    = Ret (Some info) open_dir_state
    ∧ inodes open_dir_state !! 1%positive = Some x
    ∧ i_nlink x = 1
    ∧ i_subdir x = [1; 3; 4]%positive
    ∧ vfs_s_free_inode 12 tree_class (Some 1%positive) open_dir_state = Ret tt s2
    ∧ inodes s2 !! 1%positive = None
    ∧ entries s2 !! 1%positive = None
    ∧ inodes s2 !! 2%positive
      = Some (mk_inode 1 None [2%positive] (dir_st 1) None None 0)
    ∧ entries s2 !! 2%positive = Some (mk_entry (Some 2%positive) "b" (Some 3%positive))
    ∧ inodes s2 !! 3%positive
      = Some (mk_inode 1 (Some 2%positive) [] (reg_st 1) None None 0).
Proof.
  do 3 eexists.
  split; [vm_compute; reflexivity|].
  split; [reflexivity|].
  split; [reflexivity|].
  split; [reflexivity|].
  split; [vm_compute; reflexivity|].
  repeat split; vm_compute; reflexivity.
Qed.

Lemma open_dir_cache :
  cache_at open_dir_state 1%positive 1%positive [1; 4; 5]%positive
    [1; 3; 4]%positive [2%positive].
Proof.
  assert (Hleaf : ∀ ino x,
            inodes open_dir_state !! ino = Some x → i_super x = 1%positive →
            i_nlink x ≤ 1 → i_subdir x = [] →
            cache_at open_dir_state 1%positive ino [ino] [] []).
  { intros ino x Hx Hsup Hn Hsub.
    apply (cache_node open_dir_state 1 ino x [] [] []); try assumption.
    - rewrite Hsub. constructor.
    - apply not_elem_of_nil.
    - apply not_elem_of_nil. }
  eapply (cache_node open_dir_state 1 1 _ [4; 5]%positive [1; 3; 4]%positive
            [2%positive]); [reflexivity|reflexivity|cbn; lia| | |].
  - apply (ckids_held open_dir_state 1 1 1 [3; 4]%positive
             (mk_entry (Some 1%positive) "a" (Some 2%positive)) 2
             (mk_inode 1 (Some 1%positive) [2%positive] (dir_st 2) None None 0)
             [4; 5]%positive [3; 4]%positive []);
      try reflexivity; try (cbn; lia).
    + apply (ckids_tree open_dir_state 1 1 3 [4%positive]
               (mk_entry (Some 1%positive) "l1" (Some 4%positive)) 4
               [4%positive] [5%positive] [] [4%positive] [] []);
        try reflexivity.
      * eapply Hleaf; [reflexivity|reflexivity|cbn; lia|reflexivity].
      * apply (ckids_tree open_dir_state 1 1 4 []
                 (mk_entry (Some 1%positive) "l2" (Some 5%positive)) 5
                 [5%positive] [] [] [] [] []);
          try reflexivity; try apply not_elem_of_nil;
          try (intros ? _; apply not_elem_of_nil).
        -- eapply Hleaf; [reflexivity|reflexivity|cbn; lia|reflexivity].
        -- constructor.
      * apply not_elem_of_nil.
      * intros Hc. apply list_elem_of_singleton in Hc. discriminate.
      * intros i Hi Hc. apply list_elem_of_singleton in Hi, Hc. congruence.
      * intros e Hc. now apply not_elem_of_nil in Hc.
      * intros i _. apply not_elem_of_nil.
      * intros i Hc. now apply not_elem_of_nil in Hc.
      * intros i Hc. now apply not_elem_of_nil in Hc.
    + intros Hc. repeat (apply elem_of_cons in Hc as [Hc|Hc]; [discriminate|]).
      now apply not_elem_of_nil in Hc.
    + intros Hc. repeat (apply elem_of_cons in Hc as [Hc|Hc]; [discriminate|]).
      now apply not_elem_of_nil in Hc.
    + apply not_elem_of_nil.
  - intros Hc. repeat (apply elem_of_cons in Hc as [Hc|Hc]; [discriminate|]).
    now apply not_elem_of_nil in Hc.
  - intros Hc. apply list_elem_of_singleton in Hc. discriminate.
Defined.

Lemma free_inode_releases_witness :
  let x2 := mk_inode 1 (Some 1%positive) [2%positive] (dir_st 2) None None 0 in
  let x1 := mk_inode 1 None [1; 3; 4]%positive (dir_st 1) None None 0 in
  let r := mk_super (Some "x.tar") (Some 1%positive) 0 0 5 in
  vfs_s_free_inode 1 tree_class (Some 2%positive) open_dir_state
  = Ret tt (upd_inodes (insert 2%positive (set_i_nlink (wrap_u64 (i_nlink x2 - 1)) x2))
              open_dir_state)
  ∧ ∃ s2 evs,
      vfs_s_free_inode 12 tree_class (Some 1%positive) open_dir_state = Ret tt s2
      ∧ released open_dir_state s2 1%positive [1; 4; 5]%positive [1; 3; 4]%positive
          [2%positive]
      ∧ inodes s2 !! 1%positive = None
      ∧ (∀ e, e ∈ i_subdir x1 → entries s2 !! e = None)
      ∧ (∀ h, h ∈ [2%positive] → inodes s2 !! h = kept <$> inodes open_dir_state !! h)
      ∧ supers_heap s2 !! 1%positive
        = Some (set_s_ino_usage (dec_int 3 (s_ino_usage r)) r)
      ∧ (1 ≤ 3)%nat
      ∧ trace s2 = (trace open_dir_state ++ evs ++ own_events tree_class 1%positive x1)%list.
Proof.
  intros x2 x1 r. split.
  - apply (free_inode_releases tree_class open_dir_state 2%positive x2).
    + reflexivity.
    + vm_compute. reflexivity.
  - apply (free_inode_releases tree_class open_dir_state 1%positive x1).
    + reflexivity.
    + vm_compute. discriminate.
    + exact open_dir_cache.
    + reflexivity.
    + vm_compute. lia.
Defined.

(** ** The linear resolver *)

Section Linear.
Variable E : environment.
Variable me : vfs_class.









Lemma find_custom_pure l path s v s' :
  g_list_find_custom l path s = Ret v s' → s' = s.
Proof.
  induction l as [|e l IH]; cbn.
  - now intros [= _ <-].
  - unfold bind, get_entry, get_state, deref. cbn.
    destruct (entries s !! e) as [y|]; cbn; [|discriminate].
    destruct (String.eqb (e_name y) path); [now intros [= _ <-]|exact IH].
Qed.





End Linear.





(** * The line readers *)

Lemma store_ok (k : nat) (c : ascii) (buf : list ascii) (s : state) :
  (k < List.length buf)%nat →
  store (Z.of_nat k) c buf s = Ret (<[k := c]> buf) s.
Proof.
  intros Hk. unfold store.
  assert ((0 <=? Z.of_nat k) && (Z.of_nat k <? Z.of_nat (List.length buf)) = true) as ->.
  { apply andb_true_intro. split; [apply Z.leb_le|apply Z.ltb_lt]; lia. }
  now rewrite Nat2Z.id.
Qed.

Lemma store_outside (i : Z) (c : ascii) (buf : list ascii) (s : state) :
  i < 0 ∨ Z.of_nat (List.length buf) ≤ i → store i c buf s = Fault.
Proof.
  intros Hi. unfold store.
  assert ((0 <=? i) && (i <? Z.of_nat (List.length buf)) = false) as ->; [|reflexivity].
  apply andb_false_iff. destruct Hi; [left; apply Z.leb_gt|right; apply Z.ltb_ge]; lia.
Qed.

Lemma get_line_discard_spec (logging : bool) (sock : list read_result)
    (buf log : list ascii) :
  let res := get_line_discard logging sock buf log in
  lr_buf res = buf
  ∧ (lr_value res = 0 ∨ lr_value res = 1)
  ∧ lr_sock res `suffix_of` sock.
Proof.
  revert log. induction sock as [|r sock IH]; intros log; cbn.
  - repeat split; [now left|reflexivity].
  - destruct r as [c| | |]; cbn;
      try (repeat split; [now left|apply suffix_cons_r; reflexivity]).
    destruct (Ascii.eqb c NL); cbn.
    + repeat split; [now right|apply suffix_cons_r; reflexivity].
    + destruct (IH (log_byte logging c log)) as (Hb & Hv & Hs).
      repeat split; [exact Hb|exact Hv|now apply suffix_cons_r].
Qed.

Lemma get_line_fill_safe (logging : bool) (term : ascii) (s : state) :
  ∀ (rounds k : nat) (sock : list read_result) (buf log : list ascii),
    (k + rounds < List.length buf)%nat →
    ∃ res,
      get_line_fill logging rounds (Z.of_nat k) sock buf term log s = Ret res s
      ∧ List.length (lr_buf res) = List.length buf
      ∧ take k (lr_buf res) = take k buf
      ∧ drop (S (k + rounds)) (lr_buf res) = drop (S (k + rounds)) buf
      ∧ (lr_value res = 0 ∨ lr_value res = 1)
      ∧ lr_sock res `suffix_of` sock.
Proof.
  induction rounds as [|rounds IH]; intros k sock buf log Hk; cbn [get_line_fill].
  - rewrite (bind_Ret _ _ _ _ _ (store_ok k NUL buf s ltac:(lia))).
    destruct (get_line_discard_spec logging sock (<[k:=NUL]> buf) log) as (Hb & Hv & Hs).
    eexists. split; [reflexivity|]. rewrite Hb.
    repeat split; try assumption.
    + apply length_insert.
    + apply take_insert_ge. lia.
    + rewrite Nat.add_0_r. apply drop_insert_lt. lia.
  - destruct sock as [|r sock]; cbn [next_read].
    + eexists. split; [reflexivity|]. cbn. repeat split; [now left|reflexivity].
    + destruct r as [c| | |];
        try (eexists; split; [reflexivity|]; cbn;
             repeat split; [now left|apply suffix_cons_r; reflexivity]).
      rewrite (bind_Ret _ _ _ _ _ (store_ok k c buf s ltac:(lia))).
      destruct (Ascii.eqb c term).
      * rewrite (bind_Ret _ _ _ _ _ (store_ok k NUL (<[k:=c]> buf) s
                   ltac:(rewrite length_insert; lia))).
        eexists. split; [reflexivity|]. cbn.
        repeat split.
        -- now rewrite !length_insert.
        -- rewrite !take_insert_ge by lia. reflexivity.
        -- rewrite !drop_insert_lt by lia. reflexivity.
        -- now right.
        -- apply suffix_cons_r; reflexivity.
      * replace (Z.of_nat k + 1) with (Z.of_nat (S k)) by lia.
        destruct (IH (S k) sock (<[k:=c]> buf) (log_byte logging c log))
          as (res & Hrun & Hlen & Htake & Hdrop & Hv & Hs).
        { rewrite length_insert. lia. }
        exists res. split; [exact Hrun|].
        rewrite length_insert in Hlen.
        repeat split; try assumption.
        -- replace (take k (lr_buf res)) with (take k (take (S k) (lr_buf res)))
             by (rewrite take_take; f_equal; lia).
           rewrite Htake, take_take, Nat.min_l by lia.
           apply take_insert_ge. lia.
        -- replace (S (k + S rounds)) with (S (S k + rounds)) by lia.
           rewrite Hdrop. apply drop_insert_lt. lia.
        -- now apply suffix_cons_r.
Qed.

Lemma take_S_insert {A} (k : nat) (c : A) (buf : list A) :
  (k < List.length buf)%nat → take (S k) (<[k := c]> buf) = (take k buf ++ [c])%list.
Proof.
  revert k. induction buf as [|a buf IH]; intros k Hk; cbn in Hk; [lia|].
  destruct k as [|k]; cbn; [now rewrite take_0|].
  f_equal. apply IH. lia.
Qed.

Lemma log_bytes (logging : bool) (cs log : list ascii) :
  fold_left (λ l c, log_byte logging c l) cs log
  = (log ++ if logging then cs else [])%list.
Proof.
  revert log. induction cs as [|c cs IH]; intros log; cbn.
  - destruct logging; now rewrite app_nil_r.
  - rewrite IH. unfold log_byte. destruct logging; [|reflexivity].
    now rewrite <- app_assoc.
Qed.

Lemma get_line_fill_line (logging : bool) (term : ascii) (s : state)
    (rest : list read_result) :
  ∀ (line : list ascii) (rounds k : nat) (buf log : list ascii),
    term ∉ line →
    (List.length line < rounds)%nat →
    (k + List.length line < List.length buf)%nat →
    get_line_fill logging rounds (Z.of_nat k)
      (map Read_byte line ++ Read_byte term :: rest) buf term log s
    = Ret (mk_line_read 1
             (take k buf ++ line ++ NUL :: drop (S (k + List.length line)) buf)
             rest
             (fold_left (λ l c, log_byte logging c l) (line ++ [term]) log)) s.
Proof.
  induction line as [|c line IH]; intros rounds k buf log Hterm Hrounds Hk;
    (destruct rounds as [|rounds]; [exfalso; clear -Hrounds; lia|]); cbn [get_line_fill].
  - cbn [map app next_read List.length] in *.
    rewrite (bind_Ret _ _ _ _ _ (store_ok k term buf s ltac:(lia))).
    rewrite Ascii.eqb_refl.
    rewrite (bind_Ret _ _ _ _ _ (store_ok k NUL (<[k:=term]> buf) s
               ltac:(rewrite length_insert; lia))).
    unfold ret. do 2 f_equal. rewrite list_insert_insert_eq.
    rewrite insert_take_drop by lia. now rewrite Nat.add_0_r.
  - cbn [map app next_read List.length] in *.
    apply not_elem_of_cons in Hterm as [Hne Hterm].
    rewrite (bind_Ret _ _ _ _ _ (store_ok k c buf s ltac:(lia))).
    assert (Ascii.eqb c term = false) as -> by (apply Ascii.eqb_neq; congruence).
    replace (Z.of_nat k + 1) with (Z.of_nat (S k)) by lia.
    rewrite IH; [|assumption|lia|rewrite length_insert; lia].
    do 2 f_equal. rewrite take_S_insert by lia.
    rewrite drop_insert_lt by lia. rewrite <- app_assoc. cbn.
    repeat f_equal; lia.
Qed.

Lemma get_line_fill_stop (logging : bool) (term : ascii) (s : state)
    (tail rest : list read_result) (r : read_result) :
  next_read tail = (r, rest) →
  (∀ c, r ≠ Read_byte c) →
  ∀ (pre : list ascii) (rounds k : nat) (buf log : list ascii),
    term ∉ pre →
    (List.length pre < rounds)%nat →
    (k + List.length pre < List.length buf)%nat →
    get_line_fill logging rounds (Z.of_nat k) (map Read_byte pre ++ tail) buf term log s
    = Ret (mk_line_read 0
             (take k buf ++ pre ++ drop (k + List.length pre) buf)
             rest
             (fold_left (λ l c, log_byte logging c l) pre log)) s.
Proof.
  intros Hnext Hr.
  induction pre as [|c pre IH]; intros rounds k buf log Hterm Hrounds Hk;
    (destruct rounds as [|rounds]; [exfalso; clear -Hrounds; lia|]); cbn [get_line_fill].
  - cbn [map app]. rewrite Hnext. rewrite Nat.add_0_r. cbn [app fold_left].
    rewrite take_drop.
    destruct r as [c| | |]; [now destruct (Hr c)|reflexivity..].
  - cbn [map app next_read List.length] in *.
    apply not_elem_of_cons in Hterm as [Hne Hterm].
    rewrite (bind_Ret _ _ _ _ _ (store_ok k c buf s ltac:(lia))).
    assert (Ascii.eqb c term = false) as -> by (apply Ascii.eqb_neq; congruence).
    replace (Z.of_nat k + 1) with (Z.of_nat (S k)) by lia.
    rewrite IH; [|assumption|lia|rewrite length_insert; lia].
    do 2 f_equal. rewrite take_S_insert by lia.
    rewrite drop_insert_lt by lia. rewrite <- app_assoc. cbn.
    repeat f_equal; lia.
Qed.

Lemma get_line_fill_long (logging : bool) (term : ascii) (s : state)
    (rest : list read_result) :
  ∀ (pre : list ascii) (k : nat) (buf log : list ascii),
    term ∉ pre →
    (k + List.length pre < List.length buf)%nat →
    get_line_fill logging (List.length pre) (Z.of_nat k) (map Read_byte pre ++ rest)
      buf term log s
    = Ret (get_line_discard logging rest
             (take k buf ++ pre ++ NUL :: drop (S (k + List.length pre)) buf)
             (fold_left (λ l c, log_byte logging c l) pre log)) s.
Proof.
  induction pre as [|c pre IH]; intros k buf log Hterm Hk; cbn [List.length get_line_fill].
  - cbn [map app List.length fold_left] in *.
    rewrite (bind_Ret _ _ _ _ _ (store_ok k NUL buf s ltac:(lia))).
    unfold ret. do 2 f_equal.
    rewrite insert_take_drop by lia. now rewrite Nat.add_0_r.
  - cbn [map app next_read List.length] in *.
    apply not_elem_of_cons in Hterm as [Hne Hterm].
    rewrite (bind_Ret _ _ _ _ _ (store_ok k c buf s ltac:(lia))).
    assert (Ascii.eqb c term = false) as -> by (apply Ascii.eqb_neq; congruence).
    replace (Z.of_nat k + 1) with (Z.of_nat (S k)) by lia.
    rewrite IH; [|assumption|rewrite length_insert; lia].
    do 2 f_equal. rewrite take_S_insert by lia.
    rewrite drop_insert_lt by lia. rewrite <- app_assoc. cbn.
    repeat f_equal; lia.
Qed.

Lemma get_line_discard_line (logging : bool) (rest : list read_result)
    (buf : list ascii) :
  ∀ (junk log : list ascii),
    NL ∉ junk →
    get_line_discard logging (map Read_byte junk ++ Read_byte NL :: rest) buf log
    = mk_line_read 1 buf rest
        (fold_left (λ l c, log_byte logging c l) (junk ++ [NL]) log).
Proof.
  induction junk as [|c junk IH]; intros log Hnl; cbn.
  - reflexivity.
  - apply not_elem_of_cons in Hnl as [Hne Hnl].
    assert (Ascii.eqb c NL = false) as -> by (apply Ascii.eqb_neq; congruence).
    now rewrite IH.
Qed.

Lemma rounds_of_len (n : Z) :
  - 2 ^ 31 < n < 2 ^ 31 → Z.to_nat (wrap_int (n - 1)) = Z.to_nat (n - 1).
Proof. intros Hn. rewrite wrap_int_small by lia. reflexivity. Qed.

(** X1.  [vfs_s_get_line] with room for at least the terminator
    ([1 <= buf_len], the buffer at least [buf_len] long) always returns,
    with 0 or 1; it writes inside the first [buf_len] bytes of the buffer
    only, changes nothing of the cache and leaves a tail of the
    descriptor to be read. *)
Theorem get_line_in_bounds (me : vfs_class) (sock : list read_result)
    (buf : list ascii) (buf_len : Z) (term : ascii) (s : state) :
  1 ≤ buf_len ≤ Z.of_nat (List.length buf) →
  buf_len < 2 ^ 31 →
  ∃ res,
    vfs_s_get_line me sock buf buf_len term s = Ret res s
    ∧ List.length (lr_buf res) = List.length buf
    ∧ drop (Z.to_nat buf_len) (lr_buf res) = drop (Z.to_nat buf_len) buf
    ∧ (lr_value res = 0 ∨ lr_value res = 1)
    ∧ lr_sock res `suffix_of` sock.
Proof.
  intros Hlen Hint. unfold vfs_s_get_line, bind, get_state.
  rewrite rounds_of_len by lia.
  destruct (get_line_fill_safe (bool_decide (is_Some (logfile s))) term s
              (Z.to_nat (buf_len - 1)) 0 sock buf [])
    as (res & Hrun & Hl & _ & Hdrop & Hv & Hs); [lia|].
  exists res. change (Z.of_nat 0) with 0 in Hrun. rewrite Hrun.
  replace (S (0 + Z.to_nat (buf_len - 1))) with (Z.to_nat buf_len) in Hdrop by lia.
  auto.
Qed.

Lemma get_line_in_bounds_witness :
  ∃ res,
    vfs_s_get_line tree_class [Read_byte "a"%char; Read_byte NL]
      ["x"; "x"; "x"; "x"]%char 3 NL empty_state = Ret res empty_state
    ∧ List.length (lr_buf res) = 4%nat
    ∧ drop 3 (lr_buf res) = ["x"%char]
    ∧ (lr_value res = 0 ∨ lr_value res = 1)
    ∧ lr_sock res `suffix_of` [Read_byte "a"%char; Read_byte NL].
Proof.
  apply (get_line_in_bounds tree_class [Read_byte "a"%char; Read_byte NL]
           ["x"; "x"; "x"; "x"]%char 3 NL empty_state); cbn; lia.
Defined.

Lemma get_line_discard_stop (logging : bool) (tail rest : list read_result)
    (r : read_result) (buf : list ascii) :
  next_read tail = (r, rest) →
  (∀ c, r ≠ Read_byte c) →
  ∀ (junk log : list ascii),
    NL ∉ junk →
    get_line_discard logging (map Read_byte junk ++ tail) buf log
    = mk_line_read 0 buf rest (fold_left (λ l c, log_byte logging c l) junk log).
Proof.
  intros Hnext Hr. induction junk as [|c junk IH]; intros log Hnl; cbn.
  - destruct tail as [|r' tail]; cbn in Hnext.
    + now injection Hnext as <- <-.
    + injection Hnext as -> ->.
      destruct r as [c| | |]; [now destruct (Hr c)|reflexivity..].
  - apply not_elem_of_cons in Hnl as [Hne Hnl].
    assert (Ascii.eqb c NL = false) as -> by (apply Ascii.eqb_neq; congruence).
    now rewrite IH.
Qed.

(** X2.  Without room ([buf_len <= 0]) [vfs_s_get_line] reads no byte
    into the buffer but still stores the terminating NUL at [buf[0]]: in
    an empty buffer that is a write outside of it; in any other buffer
    the first byte is lost, and the call then reads, logs and drops the
    descriptor up to the next newline, as for a line that is too long: it
    returns 1 after the newline, and 0 when the read ends without
    one. *)
Theorem get_line_no_room (me : vfs_class) (sock : list read_result)
    (buf : list ascii) (buf_len : Z) (term : ascii) (s : state) :
  - 2 ^ 31 < buf_len ≤ 0 →
  (buf = [] → vfs_s_get_line me sock buf buf_len term s = Fault)
  ∧ (∀ c buf' junk rest,
       buf = c :: buf' →
       NL ∉ junk →
       sock = (map Read_byte junk ++ Read_byte NL :: rest)%list →
       vfs_s_get_line me sock buf buf_len term s
       = Ret (mk_line_read 1 (NUL :: buf') rest
                (if bool_decide (is_Some (logfile s)) then junk ++ [NL] else [])%list) s)
  ∧ (∀ c buf' junk tail r rest,
       buf = c :: buf' →
       NL ∉ junk →
       next_read tail = (r, rest) →
       (∀ c', r ≠ Read_byte c') →
       sock = (map Read_byte junk ++ tail)%list →
       vfs_s_get_line me sock buf buf_len term s
       = Ret (mk_line_read 0 (NUL :: buf') rest
                (if bool_decide (is_Some (logfile s)) then junk else [])) s).
Proof.
  intros Hlen. unfold vfs_s_get_line, bind, get_state.
  rewrite rounds_of_len by lia.
  replace (Z.to_nat (buf_len - 1)) with 0%nat by lia. cbn [get_line_fill].
  assert (Hst : ∀ c buf', store 0 NUL (c :: buf') s = Ret (NUL :: buf') s)
    by reflexivity.
  split; [|split].
  - intros ->. reflexivity.
  - intros c buf' junk rest -> Hnl ->. unfold bind. rewrite Hst. unfold ret.
    rewrite get_line_discard_line by assumption. rewrite log_bytes. reflexivity.
  - intros c buf' junk tail r rest -> Hnl Hnext Hr ->. unfold bind. rewrite Hst.
    unfold ret.
    rewrite (get_line_discard_stop _ tail rest r _ Hnext Hr) by assumption.
    rewrite log_bytes. reflexivity.
Qed.

Lemma get_line_no_room_witness :
  vfs_s_get_line tree_class [Read_byte "a"%char] [] 0 NL empty_state = Fault
  ∧ vfs_s_get_line tree_class
      [Read_byte "a"%char; Read_byte "b"%char; Read_byte NL; Read_byte "c"%char]
      ["x"; "y"]%char 0 NL empty_state
    = Ret (mk_line_read 1 [NUL; "y"%char] [Read_byte "c"%char] []) empty_state
  ∧ vfs_s_get_line tree_class [Read_byte "a"%char; Read_eintr; Read_byte NL]
      ["x"; "y"]%char 0 NL empty_state
    = Ret (mk_line_read 0 [NUL; "y"%char] [Read_byte NL] []) empty_state.
Proof.
  split; [|split].
  - apply (proj1 (get_line_no_room tree_class [Read_byte "a"%char] [] 0 NL empty_state
                    ltac:(lia))).
    reflexivity.
  - apply (proj1 (proj2 (get_line_no_room tree_class
                    [Read_byte "a"%char; Read_byte "b"%char; Read_byte NL;
                     Read_byte "c"%char]
                    ["x"; "y"]%char 0 NL empty_state ltac:(lia)))
             "x"%char ["y"%char] ["a"; "b"]%char [Read_byte "c"%char]).
    + reflexivity.
    + intros Hc. repeat (apply elem_of_cons in Hc as [Hc|Hc]; [discriminate|]).
      now apply not_elem_of_nil in Hc.
    + reflexivity.
  - apply (proj2 (proj2 (get_line_no_room tree_class
                    [Read_byte "a"%char; Read_eintr; Read_byte NL]
                    ["x"; "y"]%char 0 NL empty_state ltac:(lia)))
             "x"%char ["y"%char] ["a"%char] [Read_eintr; Read_byte NL]
             Read_eintr [Read_byte NL]).
    + reflexivity.
    + intros Hc. repeat (apply elem_of_cons in Hc as [Hc|Hc]; [discriminate|]).
      now apply not_elem_of_nil in Hc.
    + reflexivity.
    + discriminate.
    + reflexivity.
Defined.

(** X3.  A line that fits: when the descriptor delivers [line], free of
    the terminator and shorter than [buf_len - 1], and then the
    terminator, [vfs_s_get_line] returns 1 with the line in the buffer,
    NUL in place of the terminator and the bytes behind untouched; the
    descriptor is left just after the terminator, so the next call reads
    the next line; with a log file every byte read is logged, the
    terminator too. *)
Theorem get_line_reads_line (me : vfs_class) (line : list ascii)
    (rest : list read_result) (buf : list ascii) (buf_len : Z) (term : ascii)
    (s : state) :
  term ∉ line →
  Z.of_nat (List.length line) < buf_len - 1 →
  buf_len ≤ Z.of_nat (List.length buf) →
  buf_len < 2 ^ 31 →
  vfs_s_get_line me (map Read_byte line ++ Read_byte term :: rest) buf buf_len term s
  = Ret (mk_line_read 1
           (line ++ NUL :: drop (S (List.length line)) buf)
           rest
           (if bool_decide (is_Some (logfile s)) then line ++ [term] else [])%list) s.
Proof.
  intros Hterm Hfit Hbuf Hint. unfold vfs_s_get_line, bind, get_state.
  rewrite rounds_of_len by lia.
  pose proof (get_line_fill_line (bool_decide (is_Some (logfile s))) term s rest line
                (Z.to_nat (buf_len - 1)) 0 buf [] Hterm ltac:(lia) ltac:(lia)) as Hrun.
  change (Z.of_nat 0) with 0 in Hrun. rewrite Hrun.
  rewrite log_bytes. reflexivity.
Qed.

Lemma get_line_reads_line_witness :
  vfs_s_get_line tree_class
    (map Read_byte ["o"; "k"]%char ++ Read_byte NL :: [Read_byte "z"%char])
    ["x"; "x"; "x"; "x"; "x"]%char 5 NL empty_state
  = Ret (mk_line_read 1 (["o"; "k"]%char ++ NUL :: ["x"; "x"]%char)
           [Read_byte "z"%char] []) empty_state.
Proof.
  apply (get_line_reads_line tree_class ["o"; "k"]%char [Read_byte "z"%char]
           ["x"; "x"; "x"; "x"; "x"]%char 5 NL empty_state).
  - intros H. repeat (apply elem_of_cons in H as [H|H]; [discriminate|]).
    now apply not_elem_of_nil in H.
  - cbn. lia.
  - cbn. lia.
  - lia.
Defined.

(** X4.  A line that does not fit: after [buf_len - 1] bytes without the
    terminator the buffer holds them and a NUL, and the descriptor is
    read on up to the next newline, whatever [term] is: bytes [junk]
    without a newline and the newline are dropped (and logged), also when
    [term] occurs among them; the value is 1. *)
Theorem get_line_too_long (me : vfs_class) (pre junk : list ascii)
    (rest : list read_result) (buf : list ascii) (buf_len : Z) (term : ascii)
    (s : state) :
  term ∉ pre →
  Z.of_nat (List.length pre) = buf_len - 1 →
  buf_len ≤ Z.of_nat (List.length buf) →
  buf_len < 2 ^ 31 →
  NL ∉ junk →
  vfs_s_get_line me
    (map Read_byte pre ++ map Read_byte junk ++ Read_byte NL :: rest) buf buf_len term s
  = Ret (mk_line_read 1
           (pre ++ NUL :: drop (S (List.length pre)) buf)
           rest
           (if bool_decide (is_Some (logfile s)) then pre ++ junk ++ [NL] else [])%list) s.
Proof.
  intros Hterm Hfit Hbuf Hint Hnl. unfold vfs_s_get_line, bind, get_state.
  rewrite rounds_of_len by lia.
  replace (Z.to_nat (buf_len - 1)) with (List.length pre) by lia.
  pose proof (get_line_fill_long (bool_decide (is_Some (logfile s))) term s
                (map Read_byte junk ++ Read_byte NL :: rest) pre 0 buf [] Hterm
                ltac:(lia)) as Hrun.
  change (Z.of_nat 0) with 0 in Hrun. rewrite Hrun.
  rewrite get_line_discard_line by assumption.
  rewrite !log_bytes. cbn [app take].
  do 2 f_equal. destruct (bool_decide (is_Some (logfile s))); reflexivity.
Qed.

Lemma get_line_too_long_witness :
  vfs_s_get_line tree_class
    (map Read_byte ["a"; "b"]%char ++ map Read_byte [";"; "c"]%char
     ++ Read_byte NL :: [Read_byte "z"%char])
    ["x"; "x"; "x"; "x"]%char 3 ";"%char empty_state
  = Ret (mk_line_read 1 (["a"; "b"]%char ++ NUL :: ["x"%char])
           [Read_byte "z"%char] []) empty_state.
Proof.
  apply (get_line_too_long tree_class ["a"; "b"]%char [";"; "c"]%char
           [Read_byte "z"%char] ["x"; "x"; "x"; "x"]%char 3 ";"%char empty_state).
  - intros H. repeat (apply elem_of_cons in H as [H|H]; [discriminate|]).
    now apply not_elem_of_nil in H.
  - cbn. lia.
  - cbn. lia.
  - lia.
  - intros H. repeat (apply elem_of_cons in H as [H|H]; [discriminate|]).
    now apply not_elem_of_nil in H.
Defined.

(** X5.  End of file or a failed read before the terminator:
    [vfs_s_get_line] returns 0 and leaves the bytes read so far in the
    buffer without a terminating NUL; the bytes of the buffer behind them
    are the old ones. *)
Theorem get_line_end_of_file (me : vfs_class) (pre : list ascii)
    (tail rest : list read_result) (r : read_result) (buf : list ascii)
    (buf_len : Z) (term : ascii) (s : state) :
  next_read tail = (r, rest) →
  (∀ c, r ≠ Read_byte c) →
  term ∉ pre →
  Z.of_nat (List.length pre) < buf_len - 1 →
  buf_len ≤ Z.of_nat (List.length buf) →
  buf_len < 2 ^ 31 →
  vfs_s_get_line me (map Read_byte pre ++ tail) buf buf_len term s
  = Ret (mk_line_read 0
           (pre ++ drop (List.length pre) buf)
           rest
           (if bool_decide (is_Some (logfile s)) then pre else [])) s.
Proof.
  intros Hnext Hr Hterm Hfit Hbuf Hint. unfold vfs_s_get_line, bind, get_state.
  rewrite rounds_of_len by lia.
  pose proof (get_line_fill_stop (bool_decide (is_Some (logfile s))) term s tail rest r
                Hnext Hr pre (Z.to_nat (buf_len - 1)) 0 buf [] Hterm ltac:(lia)
                ltac:(lia)) as Hrun.
  change (Z.of_nat 0) with 0 in Hrun. rewrite Hrun.
  rewrite log_bytes. reflexivity.
Qed.

Lemma get_line_end_of_file_witness :
  vfs_s_get_line tree_class (map Read_byte ["a"; "b"]%char ++ [])
    ["x"; "y"; "z"; "w"]%char 4 NL empty_state
  = Ret (mk_line_read 0 (["a"; "b"]%char ++ ["z"; "w"]%char) [] []) empty_state.
Proof.
  apply (get_line_end_of_file tree_class ["a"; "b"]%char [] [] Read_eof
           ["x"; "y"; "z"; "w"]%char 4 NL empty_state).
  - reflexivity.
  - discriminate.
  - intros H. repeat (apply elem_of_cons in H as [H|H]; [discriminate|]).
    now apply not_elem_of_nil in H.
  - cbn. lia.
  - cbn. lia.
  - lia.
Defined.

Lemma load_ok (k : nat) (c : ascii) (buf : list ascii) (s : state) :
  buf !! k = Some c → load (Z.of_nat k) buf s = Ret c s.
Proof.
  intros Hk. unfold load.
  assert ((0 <=? Z.of_nat k) = true) as -> by (apply Z.leb_le; lia).
  rewrite Nat2Z.id, Hk. reflexivity.
Qed.

Lemma replicate_snoc {A} (n : nat) (x : A) :
  (replicate n x ++ [x])%list = replicate (S n) x.
Proof. induction n as [|n IH]; cbn; [reflexivity|now rewrite IH]. Qed.

Lemma get_line_interruptible_loop_safe (size : Z) (s : state) :
  ∀ (rounds k : nat) (fd : list read_result) (buffer : list ascii)
    (tty : list tty_call),
    Z.of_nat (k + rounds) = size - 1 →
    size ≤ Z.of_nat (List.length buffer) →
    ∃ res m j,
      get_line_interruptible_loop rounds (Z.of_nat k) size fd buffer tty s = Ret res s
      ∧ List.length (lt_buf res) = List.length buffer
      ∧ take k (lt_buf res) = take k buffer
      ∧ drop (Z.to_nat size) (lt_buf res) = drop (Z.to_nat size) buffer
      ∧ (k ≤ j)%nat ∧ Z.of_nat j < size ∧ lt_buf res !! j = Some NUL
      ∧ (lt_value res = 0 ∨ lt_value res = 1 ∨ lt_value res = EINTR)
      ∧ lt_tty res = (tty ++ replicate m Tty_disable)%list
      ∧ (m ≤ rounds)%nat
      ∧ lt_fd res `suffix_of` fd.
Proof.
  induction rounds as [|rounds IH]; intros k fd buffer tty Hsize Hbuf;
    cbn [get_line_interruptible_loop].
  - replace (size - 1) with (Z.of_nat k) by lia.
    rewrite (bind_Ret _ _ _ _ _ (store_ok k NUL buffer s ltac:(lia))).
    eexists _, 0%nat, k. split; [reflexivity|]. cbn.
    repeat split; try lia.
    + apply length_insert.
    + apply take_insert_ge. lia.
    + apply drop_insert_lt. lia.
    + apply list_lookup_insert_eq. lia.
    + now rewrite app_nil_r.
    + reflexivity.
  - assert (∀ (c : ascii) (buf : list ascii) (fd' : list read_result) (v : Z),
              List.length buf = List.length buffer →
              take k buf = take k buffer →
              drop (Z.to_nat size) buf = drop (Z.to_nat size) buffer →
              v = 0 ∨ v = 1 ∨ v = EINTR →
              fd' `suffix_of` fd →
              ∃ res m j,
                (do b <- store (Z.of_nat k) NUL buf;
                 ret (mk_line_read_tty v b fd' (tty ++ [Tty_disable])%list)) s
                = Ret res s
                ∧ List.length (lt_buf res) = List.length buffer
                ∧ take k (lt_buf res) = take k buffer
                ∧ drop (Z.to_nat size) (lt_buf res) = drop (Z.to_nat size) buffer
                ∧ (k ≤ j)%nat ∧ Z.of_nat j < size ∧ lt_buf res !! j = Some NUL
                ∧ (lt_value res = 0 ∨ lt_value res = 1 ∨ lt_value res = EINTR)
                ∧ lt_tty res = (tty ++ replicate m Tty_disable)%list
                ∧ (m ≤ S rounds)%nat
                ∧ lt_fd res `suffix_of` fd) as Hend.
    { intros c buf fd' v Hl Ht Hd Hv Hs.
      rewrite (bind_Ret _ _ _ _ _ (store_ok k NUL buf s ltac:(lia))).
      eexists _, 1%nat, k. split; [reflexivity|]. cbn.
      repeat split; try lia; try assumption.
      - now rewrite length_insert.
      - rewrite take_insert_ge by lia. exact Ht.
      - rewrite drop_insert_lt by lia. exact Hd.
      - apply list_lookup_insert_eq. lia. }
    assert (∀ (c : ascii) (buf : list ascii) (fd' : list read_result),
              List.length buf = List.length buffer →
              take k buf = take k buffer →
              drop (Z.to_nat size) buf = drop (Z.to_nat size) buffer →
              buf !! k = Some c →
              fd' `suffix_of` fd →
              ∃ res m j,
                (do c <- load (Z.of_nat k) buf;
                 if Ascii.eqb c NL then
                   do b <- store (Z.of_nat k) NUL buf;
                   ret (mk_line_read_tty 1 b fd' (tty ++ [Tty_disable])%list)
                 else get_line_interruptible_loop rounds (Z.of_nat k + 1) size fd' buf
                        (tty ++ [Tty_disable])%list) s
                = Ret res s
                ∧ List.length (lt_buf res) = List.length buffer
                ∧ take k (lt_buf res) = take k buffer
                ∧ drop (Z.to_nat size) (lt_buf res) = drop (Z.to_nat size) buffer
                ∧ (k ≤ j)%nat ∧ Z.of_nat j < size ∧ lt_buf res !! j = Some NUL
                ∧ (lt_value res = 0 ∨ lt_value res = 1 ∨ lt_value res = EINTR)
                ∧ lt_tty res = (tty ++ replicate m Tty_disable)%list
                ∧ (m ≤ S rounds)%nat
                ∧ lt_fd res `suffix_of` fd) as Hgo.
    { intros c buf fd' Hl Ht Hd Hc Hs.
      rewrite (bind_Ret _ _ _ _ _ (load_ok k c buf s Hc)).
      destruct (Ascii.eqb c NL).
      - apply (Hend c); auto.
      - replace (Z.of_nat k + 1) with (Z.of_nat (S k)) by lia.
        destruct (IH (S k) fd' buf (tty ++ [Tty_disable])%list)
          as (res & m & j & Hrun & Hl' & Ht' & Hd' & Hj1 & Hj2 & Hj3 & Hv & Htty & Hm & Hs');
          [lia|lia|].
        exists res, (S m), j. split; [exact Hrun|].
        repeat split; try assumption; try lia.
        + replace (take k (lt_buf res)) with (take k (take (S k) (lt_buf res)))
            by (rewrite take_take; f_equal; lia).
          rewrite Ht', take_take, Nat.min_l by lia. exact Ht.
        + congruence.
        + rewrite Htty, <- app_assoc. reflexivity.
        + etransitivity; eassumption. }
    destruct fd as [|r fd']; cbn [next_read].
    + cbn [bind ret]. unfold ret at 1. unfold bind at 1.
      apply (Hend NUL); auto; reflexivity.
    + destruct r as [c| | |].
      * rewrite (bind_Ret _ _ _ _ _ (store_ok k c buffer s ltac:(lia))).
        apply (Hgo c).
        -- apply length_insert.
        -- apply take_insert_ge. lia.
        -- apply drop_insert_lt. lia.
        -- apply list_lookup_insert_eq. lia.
        -- apply suffix_cons_r. reflexivity.
      * unfold ret at 1. unfold bind at 1.
        apply (Hend NUL); auto; apply suffix_cons_r; reflexivity.
      * unfold ret at 1. unfold bind at 1.
        apply (Hend NUL); auto; apply suffix_cons_r; reflexivity.
      * unfold ret at 1. unfold bind at 1.
        destruct (lookup_lt_is_Some_2 buffer k ltac:(lia)) as [c Hc].
        apply (Hgo c); auto; apply suffix_cons_r; reflexivity.
Qed.

Lemma get_line_interruptible_loop_bytes (size : Z) (s : state)
    (tail : list read_result) :
  ∀ (pre : list ascii) (rounds k : nat) (buffer : list ascii) (tty : list tty_call),
    NL ∉ pre →
    (k + List.length pre < List.length buffer)%nat →
    get_line_interruptible_loop (List.length pre + rounds) (Z.of_nat k) size
      (map Read_byte pre ++ tail) buffer tty s
    = get_line_interruptible_loop rounds (Z.of_nat (k + List.length pre)) size tail
        (take k buffer ++ pre ++ drop (k + List.length pre) buffer)
        (tty ++ replicate (List.length pre) Tty_disable)%list s.
Proof.
  induction pre as [|c pre IH]; intros rounds k buffer tty Hnl Hk.
  - cbn [List.length map app Nat.add replicate]. rewrite Nat.add_0_r, app_nil_r.
    now rewrite take_drop.
  - cbn [List.length map app Nat.add get_line_interruptible_loop next_read] in *.
    apply not_elem_of_cons in Hnl as [Hne Hnl].
    rewrite (bind_Ret _ _ _ _ _ (store_ok k c buffer s ltac:(lia))).
    rewrite (bind_Ret _ _ _ _ _ (load_ok k c (<[k:=c]> buffer) s
               ltac:(apply list_lookup_insert_eq; lia))).
    assert (Ascii.eqb c NL = false) as -> by (apply Ascii.eqb_neq; congruence).
    replace (Z.of_nat k + 1) with (Z.of_nat (S k)) by lia.
    rewrite IH; [|assumption|rewrite length_insert; lia].
    rewrite take_S_insert by lia. rewrite drop_insert_lt by lia.
    rewrite <- !app_assoc. cbn [app replicate].
    replace (S k + List.length pre)%nat with (k + S (List.length pre))%nat by lia.
    reflexivity.
Qed.

Lemma get_line_interruptible_loop_stale (size : Z) (s : state)
    (rest : list read_result) (rounds k : nat) (c : ascii) (buffer : list ascii)
    (tty : list tty_call) :
  buffer !! k = Some c →
  get_line_interruptible_loop (S rounds) (Z.of_nat k) size (Read_error :: rest) buffer
    tty s
  = get_line_interruptible_loop (S rounds) (Z.of_nat k) size (Read_byte c :: rest)
      buffer tty s.
Proof.
  intros Hc.
  cbn [get_line_interruptible_loop next_read].
  rewrite (bind_Ret _ _ _ _ _ (store_ok k c buffer s
             ltac:(apply lookup_lt_is_Some; eauto))).
  rewrite list_insert_id by assumption. reflexivity.
Qed.

Lemma insert_after_prefix {A} (l buf : list A) (x : A) :
  (List.length l < List.length buf)%nat →
  <[List.length l := x]> (l ++ drop (List.length l) buf)%list
  = (l ++ x :: drop (S (List.length l)) buf)%list.
Proof.
  intros Hl. rewrite insert_app_r_alt by lia. rewrite Nat.sub_diag.
  destruct (lookup_lt_is_Some_2 buf (List.length l) Hl) as [c Hc].
  rewrite (drop_S _ _ _ Hc). reflexivity.
Qed.

(** X6.  [vfs_s_get_line_interruptible] with [1 <= size] and a buffer of
    at least [size] bytes always returns, with 0, 1 or [EINTR], and on
    every path the buffer is terminated: some byte before [buffer + size]
    is NUL.  It writes inside the first [size] bytes only, enables the
    interrupt key once, at the start, and only disables it afterwards. *)
Theorem get_line_interruptible_terminated (me : vfs_class) (buffer : list ascii)
    (size : Z) (fd : list read_result) (s : state) :
  1 ≤ size ≤ Z.of_nat (List.length buffer) →
  size < 2 ^ 31 →
  ∃ res m j,
    vfs_s_get_line_interruptible me buffer size fd s = Ret res s
    ∧ List.length (lt_buf res) = List.length buffer
    ∧ drop (Z.to_nat size) (lt_buf res) = drop (Z.to_nat size) buffer
    ∧ Z.of_nat j < size ∧ lt_buf res !! j = Some NUL
    ∧ (lt_value res = 0 ∨ lt_value res = 1 ∨ lt_value res = EINTR)
    ∧ lt_tty res = Tty_enable :: replicate m Tty_disable
    ∧ lt_fd res `suffix_of` fd.
Proof.
  intros Hsize Hint. unfold vfs_s_get_line_interruptible.
  rewrite rounds_of_len by lia.
  destruct (get_line_interruptible_loop_safe size s (Z.to_nat (size - 1)) 0 fd buffer
              [Tty_enable])
    as (res & m & j & Hrun & Hl & _ & Hd & _ & Hj & Hnul & Hv & Htty & _ & Hs);
    [lia|lia|].
  exists res, m, j. change (Z.of_nat 0) with 0 in Hrun. auto 10.
Qed.

Lemma get_line_interruptible_terminated_witness :
  ∃ res m j,
    vfs_s_get_line_interruptible tree_class ["x"; "x"; "x"]%char 3
      [Read_byte "a"%char; Read_error] empty_state = Ret res empty_state
    ∧ List.length (lt_buf res) = 3%nat
    ∧ drop 3 (lt_buf res) = []
    ∧ Z.of_nat j < 3 ∧ lt_buf res !! j = Some NUL
    ∧ (lt_value res = 0 ∨ lt_value res = 1 ∨ lt_value res = EINTR)
    ∧ lt_tty res = Tty_enable :: replicate m Tty_disable
    ∧ lt_fd res `suffix_of` [Read_byte "a"%char; Read_error].
Proof.
  apply (get_line_interruptible_terminated tree_class ["x"; "x"; "x"]%char 3
           [Read_byte "a"%char; Read_error] empty_state); cbn; lia.
Defined.

(** X7.  What [vfs_s_get_line_interruptible] makes of a line shorter than
    [size - 1]: after the bytes [line] (no newline among them) a newline
    gives 1, end of file gives 0 and an interrupted read gives [EINTR];
    each time the line is in the buffer with a NUL behind it and the
    descriptor is left after the read that ended the line. *)
Theorem get_line_interruptible_outcomes (me : vfs_class) (buffer line : list ascii)
    (size : Z) (tail rest : list read_result) (r : read_result) (v : Z)
    (s : state) :
  NL ∉ line →
  Z.of_nat (List.length line) < size - 1 →
  size ≤ Z.of_nat (List.length buffer) →
  size < 2 ^ 31 →
  next_read tail = (r, rest) →
  (r = Read_byte NL ∧ v = 1) ∨ (r = Read_eof ∧ v = 0) ∨ (r = Read_eintr ∧ v = EINTR) →
  vfs_s_get_line_interruptible me buffer size (map Read_byte line ++ tail) s
  = Ret (mk_line_read_tty v
           (line ++ NUL :: drop (S (List.length line)) buffer)
           rest
           (Tty_enable :: replicate (S (List.length line)) Tty_disable)) s.
Proof.
  intros Hnl Hfit Hbuf Hint Hnext Hr. unfold vfs_s_get_line_interruptible.
  rewrite rounds_of_len by lia.
  replace (Z.to_nat (size - 1))
    with (List.length line + S (Z.to_nat (size - 1) - S (List.length line)))%nat by lia.
  pose proof (get_line_interruptible_loop_bytes size s tail line
                (S (Z.to_nat (size - 1) - S (List.length line))) 0 buffer [Tty_enable]
                Hnl ltac:(lia)) as Hrun.
  change (Z.of_nat 0) with 0 in Hrun. rewrite Hrun. clear Hrun.
  rewrite take_0. cbn [Nat.add app get_line_interruptible_loop].
  rewrite Hnext.
  assert (List.length (line ++ drop (List.length line) buffer) = List.length buffer)
    as Hlen.
  { rewrite length_app, length_drop. lia. }
  assert (<[List.length line := NUL]> (line ++ drop (List.length line) buffer)%list
          = (line ++ NUL :: drop (S (List.length line)) buffer)%list) as Hins.
  { apply insert_after_prefix. lia. }
  assert (∀ c, <[List.length line := NUL]>
                 (<[List.length line := c]>
                    (line ++ drop (List.length line) buffer)%list)
               = (line ++ NUL :: drop (S (List.length line)) buffer)%list) as Hins2.
  { intros c. now rewrite list_insert_insert_eq. }
  set (b0 := (line ++ drop (List.length line) buffer)%list) in *.
  set (n := List.length line) in *.
  destruct Hr as [[-> ->] | [[-> ->] | [-> ->]]].
  - rewrite (bind_Ret _ _ _ _ _ (store_ok n NL b0 s ltac:(lia))).
    rewrite (bind_Ret _ _ _ _ _ (load_ok n NL (<[n:=NL]> b0) s
               ltac:(apply list_lookup_insert_eq; lia))).
    rewrite Ascii.eqb_refl.
    rewrite (bind_Ret _ _ _ _ _ (store_ok n NUL (<[n:=NL]> b0) s
               ltac:(rewrite length_insert; lia))).
    rewrite Hins2. unfold ret. do 2 f_equal. cbn. f_equal. apply replicate_snoc.
  - unfold ret at 1. unfold bind at 1.
    rewrite (bind_Ret _ _ _ _ _ (store_ok n NUL b0 s ltac:(lia))).
    rewrite Hins. unfold ret. do 2 f_equal. cbn. f_equal. apply replicate_snoc.
  - unfold ret at 1. unfold bind at 1.
    rewrite (bind_Ret _ _ _ _ _ (store_ok n NUL b0 s ltac:(lia))).
    rewrite Hins. unfold ret. do 2 f_equal. cbn. f_equal. apply replicate_snoc.
Qed.

Lemma get_line_interruptible_outcomes_witness :
  vfs_s_get_line_interruptible tree_class ["x"; "x"; "x"; "x"]%char 4
    (map Read_byte ["o"; "k"]%char ++ [Read_eintr; Read_byte "z"%char]) empty_state
  = Ret (mk_line_read_tty EINTR (["o"; "k"]%char ++ NUL :: ["x"%char])
           [Read_byte "z"%char] (Tty_enable :: replicate 3 Tty_disable)) empty_state.
Proof.
  apply (get_line_interruptible_outcomes tree_class ["x"; "x"; "x"; "x"]%char
           ["o"; "k"]%char 4 [Read_eintr; Read_byte "z"%char] [Read_byte "z"%char]
           Read_eintr EINTR empty_state).
  - intros H. repeat (apply elem_of_cons in H as [H|H]; [discriminate|]).
    now apply not_elem_of_nil in H.
  - cbn. lia.
  - cbn. lia.
  - lia.
  - reflexivity.
  - right. right. split; reflexivity.
Defined.

(** X8.  A line of [size - 1] bytes or more: [vfs_s_get_line_interruptible]
    keeps the first [size - 1] bytes, terminates them and returns 0, the
    value it also has for end of file; the rest of the line stays in the
    descriptor, nothing is dropped. *)
Theorem get_line_interruptible_full (me : vfs_class) (buffer pre : list ascii)
    (size : Z) (rest : list read_result) (s : state) :
  NL ∉ pre →
  Z.of_nat (List.length pre) = size - 1 →
  size ≤ Z.of_nat (List.length buffer) →
  size < 2 ^ 31 →
  vfs_s_get_line_interruptible me buffer size (map Read_byte pre ++ rest) s
  = Ret (mk_line_read_tty 0
           (pre ++ NUL :: drop (S (List.length pre)) buffer)
           rest
           (Tty_enable :: replicate (List.length pre) Tty_disable)) s.
Proof.
  intros Hnl Hfit Hbuf Hint. unfold vfs_s_get_line_interruptible.
  rewrite rounds_of_len by lia.
  replace (Z.to_nat (size - 1)) with (List.length pre + 0)%nat by lia.
  pose proof (get_line_interruptible_loop_bytes size s rest pre 0 0 buffer [Tty_enable]
                Hnl ltac:(lia)) as Hrun.
  change (Z.of_nat 0) with 0 in Hrun. rewrite Hrun. clear Hrun.
  rewrite take_0. cbn [Nat.add app get_line_interruptible_loop].
  replace (size - 1) with (Z.of_nat (List.length pre)) by lia.
  assert (List.length (pre ++ drop (List.length pre) buffer) = List.length buffer)
    as Hlen.
  { rewrite length_app, length_drop. lia. }
  rewrite (bind_Ret _ _ _ _ _ (store_ok (List.length pre) NUL
             (pre ++ drop (List.length pre) buffer)%list s ltac:(lia))).
  unfold ret. do 2 f_equal.
  apply insert_after_prefix. lia.
Qed.

Lemma get_line_interruptible_full_witness :
  vfs_s_get_line_interruptible tree_class ["x"; "x"; "x"]%char 3
    (map Read_byte ["a"; "b"]%char ++ [Read_byte "c"%char; Read_byte NL]) empty_state
  = Ret (mk_line_read_tty 0 (["a"; "b"]%char ++ NUL :: [])
           [Read_byte "c"%char; Read_byte NL]
           (Tty_enable :: replicate 2 Tty_disable)) empty_state.
Proof.
  apply (get_line_interruptible_full tree_class ["x"; "x"; "x"]%char ["a"; "b"]%char 3
           [Read_byte "c"%char; Read_byte NL] empty_state).
  - intros H. repeat (apply elem_of_cons in H as [H|H]; [discriminate|]).
    now apply not_elem_of_nil in H.
  - cbn. lia.
  - cbn. lia.
  - lia.
Defined.

(** X9.  A read that fails with another error than [EINTR] does not end
    [vfs_s_get_line_interruptible]: the byte that was in the buffer at
    that place is taken for the byte read, so the call goes on exactly as
    if the descriptor had delivered it. *)
Theorem get_line_interruptible_failed_read (me : vfs_class)
    (buffer pre : list ascii) (size : Z) (rest : list read_result) (c : ascii)
    (s : state) :
  NL ∉ pre →
  Z.of_nat (List.length pre) < size - 1 →
  size ≤ Z.of_nat (List.length buffer) →
  size < 2 ^ 31 →
  buffer !! List.length pre = Some c →
  vfs_s_get_line_interruptible me buffer size
    (map Read_byte pre ++ Read_error :: rest) s
  = vfs_s_get_line_interruptible me buffer size
      (map Read_byte pre ++ Read_byte c :: rest) s.
Proof.
  intros Hnl Hfit Hbuf Hint Hc. unfold vfs_s_get_line_interruptible.
  rewrite rounds_of_len by lia.
  replace (Z.to_nat (size - 1))
    with (List.length pre + S (Z.to_nat (size - 1) - S (List.length pre)))%nat by lia.
  pose proof (λ tail, get_line_interruptible_loop_bytes size s tail pre
                (S (Z.to_nat (size - 1) - S (List.length pre))) 0 buffer [Tty_enable]
                Hnl ltac:(lia)) as Hrun.
  change (Z.of_nat 0) with 0 in Hrun. rewrite !Hrun.
  apply get_line_interruptible_loop_stale.
  rewrite take_0. cbn [Nat.add app]. rewrite lookup_app_r by lia. rewrite Nat.sub_diag.
  rewrite lookup_drop, Nat.add_0_r. exact Hc.
Qed.

Lemma get_line_interruptible_failed_read_witness :
  vfs_s_get_line_interruptible tree_class ["x"; NL; "x"]%char 3
    (map Read_byte ["a"%char] ++ Read_error :: []) empty_state
  = vfs_s_get_line_interruptible tree_class ["x"; NL; "x"]%char 3
      (map Read_byte ["a"%char] ++ Read_byte NL :: []) empty_state.
Proof.
  apply (get_line_interruptible_failed_read tree_class ["x"; NL; "x"]%char ["a"%char]
           3 [] NL empty_state).
  - intros H. repeat (apply elem_of_cons in H as [H|H]; [discriminate|]).
    now apply not_elem_of_nil in H.
  - cbn. lia.
  - cbn. lia.
  - lia.
  - reflexivity.
Defined.

(** * Seeking *)

Lemma wrap_off_small (z : Z) : - 2 ^ 63 ≤ z < 2 ^ 63 → wrap_off z = z.
Proof. intros Hz. unfold wrap_off. rewrite Z.mod_small; lia. Qed.

(** The position [vfs_s_lseek] computes for a handle without a local
    file. *)
Lemma lseek_cached (H : host_io) (fh : vfs_file_handler_t) (offset whence : Z)
    (x : vfs_s_inode) (s : state) :
  inodes s !! fh_ino fh = Some x →
  is_linear_open (fh_linear fh) = false →
  fh_handle fh = -1 →
  let target :=
    if whence =? SEEK_CUR then wrap_off (offset + fh_pos fh)
    else if whence =? SEEK_END then wrap_off (offset + st_size (i_st x))
    else offset in
  let pos :=
    if target <? 0 then 0
    else if target <? st_size (i_st x) then target else st_size (i_st x) in
  vfs_s_lseek H fh offset whence s = Ret (pos, set_fh_pos pos fh) s.
Proof.
  intros Hx Hlin Hh target pos. unfold vfs_s_lseek.
  rewrite (bind_Ret _ _ _ _ _ (get_inode_Some _ _ _ Hx)).
  rewrite Hlin, Hh. reflexivity.
Qed.

(** X10.  [vfs_s_lseek] on a handle without a local file and not in a
    linear read: the position asked for ([offset] itself, or counted from
    the current position for [SEEK_CUR], or from the size for [SEEK_END];
    any other [whence] counts as absolute) is cut to the file: negative
    gives 0, beyond the end gives the size.  The value returned is the
    new position of the handle; nothing else changes. *)
Theorem lseek_clamps (H : host_io) (fh : vfs_file_handler_t) (offset whence : Z)
    (x : vfs_s_inode) (s : state) :
  inodes s !! fh_ino fh = Some x →
  is_linear_open (fh_linear fh) = false →
  fh_handle fh = -1 →
  0 ≤ st_size (i_st x) →
  let target :=
    if whence =? SEEK_CUR then offset + fh_pos fh
    else if whence =? SEEK_END then offset + st_size (i_st x)
    else offset in
  - 2 ^ 63 ≤ target < 2 ^ 63 →
  let pos := Z.max 0 (Z.min target (st_size (i_st x))) in
  vfs_s_lseek H fh offset whence s = Ret (pos, set_fh_pos pos fh) s
  ∧ 0 ≤ pos ≤ st_size (i_st x).
Proof.
  intros Hx Hlin Hh Hsize target Hrange pos. split; [|subst pos; lia].
  rewrite (lseek_cached H fh offset whence x s Hx Hlin Hh).
  assert ((if whence =? SEEK_CUR then wrap_off (offset + fh_pos fh)
           else if whence =? SEEK_END then wrap_off (offset + st_size (i_st x))
           else offset) = target) as ->.
  { subst target. destruct (whence =? SEEK_CUR); [now apply wrap_off_small|].
    destruct (whence =? SEEK_END); [now apply wrap_off_small|reflexivity]. }
  assert ((if target <? 0 then 0
           else if target <? st_size (i_st x) then target else st_size (i_st x)) = pos)
    as ->; [|reflexivity].
  subst pos. destruct (Z.ltb_spec target 0); [lia|].
  destruct (Z.ltb_spec target (st_size (i_st x))); lia.
Qed.

Lemma lseek_clamps_witness :
  vfs_s_lseek (mk_host_io 4096 (λ _ _ _ _, (0, 0)))
    (mk_fh 3 5 (-1) 0 LS_NOT_LINEAR) 10 SEEK_CUR
    (upd_inodes (insert 3%positive
       (mk_inode 1 (Some 2%positive) [] (mk_stat 33188 1 0 0 0 0 0 12 0 0 0) None None 0))
       tree_state)
  = Ret (12, set_fh_pos 12 (mk_fh 3 5 (-1) 0 LS_NOT_LINEAR))
      (upd_inodes (insert 3%positive
         (mk_inode 1 (Some 2%positive) [] (mk_stat 33188 1 0 0 0 0 0 12 0 0 0) None None 0))
         tree_state)
  ∧ 0 ≤ 12 ≤ 12.
Proof.
  apply (lseek_clamps (mk_host_io 4096 (λ _ _ _ _, (0, 0)))
           (mk_fh 3 5 (-1) 0 LS_NOT_LINEAR) 10 SEEK_CUR
           (mk_inode 1 (Some 2%positive) [] (mk_stat 33188 1 0 0 0 0 0 12 0 0 0)
              None None 0)).
  - reflexivity.
  - reflexivity.
  - reflexivity.
  - cbn. lia.
  - cbn. lia.
Defined.

(** X11.  Seeks compose inside the file: an absolute seek to [k] within
    [0 .. size] followed by a relative seek by [d] ends where the
    absolute seek to [k + d] ends, with the same handle. *)
Theorem lseek_absolute_then_relative (H : host_io) (fh : vfs_file_handler_t)
    (k d whence : Z) (x : vfs_s_inode) (s : state) :
  inodes s !! fh_ino fh = Some x →
  is_linear_open (fh_linear fh) = false →
  fh_handle fh = -1 →
  whence ≠ SEEK_CUR →
  whence ≠ SEEK_END →
  0 ≤ k ≤ st_size (i_st x) →
  - 2 ^ 63 ≤ k + d < 2 ^ 63 →
  (do r <- vfs_s_lseek H fh k whence; vfs_s_lseek H (snd r) d SEEK_CUR) s
  = vfs_s_lseek H fh (k + d) whence s.
Proof.
  intros Hx Hlin Hh Hcur Hend Hk Hrange.
  apply Z.eqb_neq in Hcur, Hend.
  rewrite (bind_Ret _ _ _ _ _ (lseek_cached H fh k whence x s Hx Hlin Hh)).
  rewrite !Hcur, !Hend. cbn [snd].
  assert ((if k <? 0 then 0 else if k <? st_size (i_st x) then k else st_size (i_st x))
          = k) as ->.
  { destruct (Z.ltb_spec k 0); [lia|].
    destruct (Z.ltb_spec k (st_size (i_st x))); lia. }
  rewrite (lseek_cached H (set_fh_pos k fh) d SEEK_CUR x s Hx Hlin Hh).
  rewrite (lseek_cached H fh (k + d) whence x s Hx Hlin Hh).
  rewrite Hcur, Hend. change (SEEK_CUR =? SEEK_CUR) with true. cbv iota.
  cbn [fh_pos set_fh_pos]. rewrite wrap_off_small by lia.
  replace (d + k) with (k + d) by lia. reflexivity.
Qed.

Lemma lseek_absolute_then_relative_witness :
  let s := upd_inodes (insert 3%positive
       (mk_inode 1 (Some 2%positive) [] (mk_stat 33188 1 0 0 0 0 0 12 0 0 0) None None 0))
       tree_state in
  let H := mk_host_io 4096 (λ _ _ _ _, (0, 0)) in
  let fh := mk_fh 3 5 (-1) 0 LS_NOT_LINEAR in
  (do r <- vfs_s_lseek H fh 4 0; vfs_s_lseek H (snd r) 20 SEEK_CUR) s
  = vfs_s_lseek H fh (4 + 20) 0 s.
Proof.
  intros s H fh.
  apply (lseek_absolute_then_relative H fh 4 20 0
           (mk_inode 1 (Some 2%positive) [] (mk_stat 33188 1 0 0 0 0 0 12 0 0 0)
              None None 0) s).
  - reflexivity.
  - reflexivity.
  - reflexivity.
  - discriminate.
  - discriminate.
  - cbn. lia.
  - lia.
Defined.

(** * readlink, fstat and the directory iterator *)

Lemma str_length_app (a b : string) :
  String.length (a ++ b) = (String.length a + String.length b)%nat.
Proof. induction a as [|c a IH]; simpl; [reflexivity|now rewrite IH]. Qed.

Lemma str_length_substring (s : string) :
  ∀ a n, (a + n ≤ String.length s)%nat → String.length (substring a n s) = n.
Proof.
  induction s as [|c s IH]; intros a n Hn; cbn in Hn.
  - destruct a, n; cbn; lia.
  - destruct a as [|a]; cbn.
    + destruct n as [|n]; cbn; [reflexivity|]. f_equal. apply IH. lia.
    + apply IH. lia.
Qed.

Lemma substring_0_app (a b : string) : substring 0 (String.length a) (a ++ b) = a.
Proof. induction a as [|c a IH]; simpl; [now destruct b|now rewrite IH]. Qed.

Lemma substring_app_skip (a b : string) (m : nat) :
  substring (String.length a) m (a ++ b) = substring 0 m b.
Proof. induction a as [|c a IH]; simpl; [reflexivity|exact IH]. Qed.

Lemma memcpy_spec (dest src : string) (n : nat) :
  (n ≤ String.length src)%nat →
  (n ≤ String.length dest)%nat →
  String.length (memcpy dest src n) = String.length dest
  ∧ substring 0 n (memcpy dest src n) = substring 0 n src
  ∧ substring n (String.length dest - n) (memcpy dest src n)
    = substring n (String.length dest - n) dest.
Proof.
  intros Hsrc Hdest. unfold memcpy.
  assert (String.length (substring 0 n src) = n) as Ha
    by (apply str_length_substring; lia).
  assert (String.length (substring n (String.length dest - n) dest)
          = (String.length dest - n)%nat) as Hb
    by (apply str_length_substring; lia).
  repeat split.
  - rewrite str_length_app, Ha, Hb. lia.
  - rewrite <- Ha at 1. apply substring_0_app.
  - rewrite <- Ha at 1. rewrite substring_app_skip.
    rewrite <- Hb at 1. apply substring_0_length.
Qed.

(** X12.  [vfs_s_readlink] after the path has been resolved without
    following the last link: it answers -1 and stores no errno of its
    own when the path does not resolve, -1 with [EINVAL] for an inode
    that is not a symlink, -1 with [EFAULT] for a symlink without a
    target; otherwise it returns the smaller of [size] and the length of
    the target and copies that many characters of the target to the
    front of the buffer: no NUL is added, the buffer keeps its length
    and its bytes behind the copy. *)
Theorem readlink_copies_prefix (E : environment) (fuel : nat) (me : vfs_class)
    (path buf : string) (size : Z) (s s1 : state) (o : option inode_id) :
  vfs_s_inode_from_path E fuel me path 0 s = Ret o s1 →
  match o with
  | None => vfs_s_readlink E fuel me path buf size s = Ret (-1, buf) s1
  | Some ino =>
      ∀ x, inodes s1 !! ino = Some x →
        (S_ISLNK (st_mode (i_st x)) = false →
         vfs_s_readlink E fuel me path buf size s
         = Ret (-1, buf) (set_verrno EINVAL s1))
        ∧ (S_ISLNK (st_mode (i_st x)) = true →
           i_linkname x = None →
           vfs_s_readlink E fuel me path buf size s
           = Ret (-1, buf) (set_verrno EFAULT s1))
        ∧ (∀ l, S_ISLNK (st_mode (i_st x)) = true →
             i_linkname x = Some l →
             0 ≤ size ≤ Z.of_nat (String.length buf) →
             size < 2 ^ 31 →
             let n := Z.min size (Z.of_nat (String.length l)) in
             ∃ buf',
               vfs_s_readlink E fuel me path buf size s = Ret (n, buf') s1
               ∧ String.length buf' = String.length buf
               ∧ substring 0 (Z.to_nat n) buf' = substring 0 (Z.to_nat n) l
               ∧ substring (Z.to_nat n) (String.length buf - Z.to_nat n) buf'
                 = substring (Z.to_nat n) (String.length buf - Z.to_nat n) buf)
  end.
Proof.
  intros Hres. unfold vfs_s_readlink. rewrite (bind_Ret _ _ _ _ _ Hres).
  destruct o as [ino|]; [|reflexivity].
  intros x Hx. rewrite (bind_Ret _ _ _ _ _ (get_inode_Some _ _ _ Hx)).
  split; [|split].
  - intros ->. reflexivity.
  - intros -> ->. reflexivity.
  - intros l -> -> Hsize Hint. cbn [negb].
    set (n := Z.min size (Z.of_nat (String.length l))).
    assert ((if size <? Z.of_nat (String.length l) then size
             else Z.of_nat (String.length l)) = n) as ->.
    { subst n. destruct (Z.ltb_spec size (Z.of_nat (String.length l))); lia. }
    rewrite wrap_int_small by (subst n; lia).
    destruct (memcpy_spec buf l (Z.to_nat n)) as (H1 & H2 & H3);
      [subst n; lia|subst n; lia|].
    eexists. split; [reflexivity|]. auto.
Qed.

Lemma readlink_copies_prefix_witness :
  ∃ buf',
    vfs_s_readlink sample_env 9 tree_class "l1" "xxxxx" 1 tree_state
    = Ret (Z.min 1 (Z.of_nat (String.length "l2")), buf') tree_state
    ∧ String.length buf' = String.length "xxxxx"
    ∧ substring 0 (Z.to_nat (Z.min 1 (Z.of_nat (String.length "l2")))) buf'
      = substring 0 (Z.to_nat (Z.min 1 (Z.of_nat (String.length "l2")))) "l2"
    ∧ substring (Z.to_nat (Z.min 1 (Z.of_nat (String.length "l2"))))
        (String.length "xxxxx" - Z.to_nat (Z.min 1 (Z.of_nat (String.length "l2")))) buf'
      = substring (Z.to_nat (Z.min 1 (Z.of_nat (String.length "l2"))))
          (String.length "xxxxx" - Z.to_nat (Z.min 1 (Z.of_nat (String.length "l2"))))
          "xxxxx".
Proof.
  pose proof (readlink_copies_prefix sample_env 9 tree_class "l1" "xxxxx" 1
                tree_state tree_state (Some 4%positive)
                ltac:(vm_compute; reflexivity)
                (mk_inode 1 (Some 3%positive) [] (lnk_st 1) (Some "l2") None 0)
                eq_refl) as (_ & _ & Hcopy).
  apply (Hcopy "l2"); [reflexivity|reflexivity|cbn; lia|lia].
Defined.










(** * What a call leaves alone *)

Section Preserves.
Context {R : state → state → Prop} `{!Reflexive R} `{!Transitive R}.

Lemma preserves_ret {A} (a : A) : preserves R (ret a).
Proof. intros s a' s' [= _ <-]. reflexivity. Qed.

Lemma preserves_bind {A B} (m : M A) (k : A → M B) :
  preserves R m → (∀ a, preserves R (k a)) → preserves R (bind m k).
Proof.
  intros Hm Hk s b s2 Hrun.
  destruct (bind_inv _ _ _ _ _ Hrun) as (a & s1 & H1 & H2).
  etransitivity; [exact (Hm _ _ _ H1)|exact (Hk _ _ _ _ H2)].
Qed.

Lemma preserves_get_state : preserves R get_state.
Proof. intros s a s' [= _ <-]. reflexivity. Qed.

Lemma preserves_deref {A} (o : option A) : preserves R (deref o).
Proof. intros s a s' Hrun. destruct o; [|discriminate]. injection Hrun as _ <-. reflexivity. Qed.

Lemma preserves_get_inode ino : preserves R (get_inode ino).
Proof. intros s. apply preserves_deref. Qed.

Lemma preserves_get_entry ent : preserves R (get_entry ent).
Proof. intros s. apply preserves_deref. Qed.

Lemma preserves_get_super super : preserves R (get_super super).
Proof. intros s. apply preserves_deref. Qed.

Lemma preserves_fault {A} : preserves R (@fault A).
Proof. intros s a s' Hrun. discriminate. Qed.

Lemma preserves_die {A} msg : preserves R (@vfs_die A msg).
Proof. intros s a s' Hrun. discriminate. Qed.

Lemma preserves_out_of_fuel {A} : preserves R (@out_of_fuel A).
Proof. intros s a s' Hrun. discriminate. Qed.

Lemma preserves_modify (f : state → state) :
  (∀ s, R s (f s)) → preserves R (modify f).
Proof. intros Hf s a s' [= _ <-]. apply Hf. Qed.
End Preserves.

Ltac pres_step :=
  match goal with
  | |- preserves _ (bind _ _) => apply preserves_bind; [|intros ?]
  | |- preserves _ (ret _) => apply preserves_ret
  | |- preserves _ get_state => apply preserves_get_state
  | |- preserves _ (deref _) => apply preserves_deref
  | |- preserves _ (get_inode _) => apply preserves_get_inode
  | |- preserves _ (get_entry _) => apply preserves_get_entry
  | |- preserves _ (get_super _) => apply preserves_get_super
  | |- preserves _ fault => apply preserves_fault
  | |- preserves _ (vfs_die _) => apply preserves_die
  | |- preserves _ out_of_fuel => apply preserves_out_of_fuel
  | |- preserves _ (match ?x with _ => _ end) => destruct x
  | |- preserves _ (let '(_, _) := ?x in _) => destruct x
  end.

Ltac pres := repeat pres_step.

#[local] Instance same_class_data_refl : Reflexive same_class_data.
Proof. intros s. repeat split. Qed.

#[local] Instance same_class_data_trans : Transitive same_class_data.
Proof.
  intros s1 s2 s3 H12 H23. unfold same_class_data in *.
  destruct H12 as (?&?&?&?&?&?&?&?&?&?), H23 as (?&?&?&?&?&?&?&?&?&?).
  repeat split; congruence.
Qed.

#[local] Instance same_but_verrno_refl : Reflexive same_but_verrno.
Proof. intros s. unfold same_but_verrno. now destruct s. Qed.

#[local] Instance same_but_verrno_trans : Transitive same_but_verrno.
Proof.
  intros s1 s2 s3 H12 H23. unfold same_but_verrno in *.
  rewrite H23 at 1. rewrite H12. reflexivity.
Qed.

Lemma free_same_class_data (me : vfs_class) (fuel : nat) :
  (∀ ino, preserves same_class_data (vfs_s_free_inode fuel me ino))
  ∧ (∀ ino, preserves same_class_data (free_subdir fuel me ino))
  ∧ (∀ ent, preserves same_class_data (vfs_s_free_entry fuel me ent)).
Proof.
  induction fuel as [|fuel (IHi & IHs & IHe)].
  - split; [|split]; intros; apply preserves_out_of_fuel.
  - split; [|split]; intros; cbn [vfs_s_free_inode free_subdir vfs_s_free_entry];
      unfold put_inode, put_entry, put_super, emit, CALL, free_inode_mem,
        free_entry_mem;
      pres; auto; try (apply preserves_modify; intros; repeat split).
Qed.

Ltac solve_notin :=
  let H := fresh "H" in
  intros H; repeat (apply elem_of_cons in H as [H|H]; [discriminate|]);
  now apply not_elem_of_nil in H.

Ltac solve_apart :=
  let i := fresh "i" in
  let Hi := fresh "Hi" in
  intros i Hi;
  repeat (apply elem_of_cons in Hi as [->|Hi]; [solve_notin|]);
  now apply not_elem_of_nil in Hi.

(** The whole of [tree_state] is a cache tree below its root. *)
Lemma tree_state_tree :
  tree_at tree_state 1%positive 1%positive [1; 2; 3; 4; 5]%positive [1; 2; 3; 4]%positive.
Proof.
  eapply (tree_node tree_state 1 1 _ [2; 3; 4; 5]%positive [1; 2; 3; 4]%positive);
    [reflexivity|reflexivity|cbn; lia| |solve_notin].
  apply (kids_cons tree_state 1 1 1 [3; 4]%positive
           (mk_entry (Some 1%positive) "a" (Some 2%positive)) 2
           [2; 3]%positive [4; 5]%positive [2%positive] [3; 4]%positive);
    [reflexivity|reflexivity|reflexivity| | |solve_notin|solve_notin|solve_apart
    |solve_apart].
  - eapply (tree_node tree_state 1 2 _ [3%positive] [2%positive]);
      [reflexivity|reflexivity|cbn; lia| |solve_notin].
    apply (kids_cons tree_state 1 2 2 []
             (mk_entry (Some 2%positive) "b" (Some 3%positive)) 3
             [3%positive] [] [] []);
      [reflexivity|reflexivity|reflexivity| |constructor|solve_notin|solve_notin
      |solve_apart|solve_apart].
    eapply (tree_node tree_state 1 3 _ [] []);
      [reflexivity|reflexivity|cbn; lia|constructor|solve_notin].
  - apply (kids_cons tree_state 1 1 3 [4%positive]
             (mk_entry (Some 1%positive) "l1" (Some 4%positive)) 4
             [4%positive] [5%positive] [] [4%positive]);
      [reflexivity|reflexivity|reflexivity| | |solve_notin|solve_notin|solve_apart
      |solve_apart].
    + eapply (tree_node tree_state 1 4 _ [] []);
        [reflexivity|reflexivity|cbn; lia|constructor|solve_notin].
    + apply (kids_cons tree_state 1 1 4 []
               (mk_entry (Some 1%positive) "l2" (Some 5%positive)) 5
               [5%positive] [] [] []);
        [reflexivity|reflexivity|reflexivity| |constructor|solve_notin|solve_notin
        |solve_apart|solve_apart].
      eapply (tree_node tree_state 1 5 _ [] []);
        [reflexivity|reflexivity|cbn; lia|constructor|solve_notin].
Defined.

(** * Superblocks *)

Lemma scan_supers_found (same : super_id → Z) (l : list super_id) (super : super_id) :
  scan_supers same l = Some super → super ∈ l ∧ same super = 1.
Proof.
  induction l as [|a l IH]; cbn; [discriminate|].
  destruct (same a =? 0) eqn:H0; cbn [negb].
  - intros Hs. destruct (IH Hs). split; [now apply list_elem_of_further|assumption].
  - destruct (same a =? 1) eqn:H1; [|discriminate].
    intros [= <-]. apply Z.eqb_eq in H1. split; [apply list_elem_of_here|assumption].
Qed.

(** What [vfs_s_get_path_mangle] does when it may not open an archive. *)
Lemma get_path_mangle_no_open (E : environment) (fuel : nat) (me : vfs_class)
    (inname : string) (flags : Z) (s : state)
    (same : super_id → string → option string → option Z → state → Z) :
  archive_same (MEDATA me) = Some same →
  Z.land flags (FL_NO_OPEN E) ≠ 0 →
  ∃ res s',
    vfs_s_get_path_mangle E fuel me inname flags s = Ret res s'
    ∧ match res with
      | Some (_, super) =>
          s' = s ∧ super ∈ supers s
          ∧ ∃ name op cookie, same super name op cookie s = 1
      | None => s' = s ∨ s' = set_verrno EIO s
      end.
Proof.
  intros Hsame Hflag. unfold vfs_s_get_path_mangle.
  destruct (vfs_split E inname) as [[archive_name local] op].
  unfold bind at 1. unfold get_state at 1.
  destruct (match archive_check (MEDATA me) with
            | Some check =>
                match check archive_name op s with
                | Some cookie => Some (Some cookie)
                | None => None
                end
            | None => Some None
            end) as [cookie|].
  2:{ exists None, s. split; [reflexivity|now left]. }
  assert ((match supers s with
           | [] => ret None
           | _ :: _ =>
               do same <- deref (archive_same (MEDATA me));
               ret (scan_supers (λ super, same super archive_name op cookie s) (supers s))
           end) s
          = Ret (scan_supers (λ super, same super archive_name op cookie s) (supers s)) s)
    as Hscan.
  { destruct (supers s); [reflexivity|]. rewrite Hsame. reflexivity. }
  rewrite (bind_Ret _ _ _ _ _ Hscan).
  destruct (scan_supers (λ super, same super archive_name op cookie s) (supers s))
    as [super|] eqn:Hfound.
  - eexists (Some (_, super)), s. split; [reflexivity|].
    destruct (scan_supers_found _ _ _ Hfound) as [Hin H1].
    split; [reflexivity|]. split; [exact Hin|]. eauto.
  - apply Z.eqb_neq in Hflag. rewrite Hflag. cbn [negb].
    exists None, (set_verrno EIO s). split; [reflexivity|now right].
Qed.

(** X15.  [vfs_s_getid] never opens an archive.  In a class with an
    [archive_same] hook it always returns; it answers a superblock only
    if that superblock is on the list of the class and [archive_same]
    said 1 for it, and then nothing is changed; otherwise it answers
    null and the only thing that may change is [verrno], set to
    [EIO]. *)
Theorem getid_never_opens (E : environment) (fuel : nat) (me : vfs_class)
    (path : string) (s : state)
    (same : super_id → string → option string → option Z → state → Z) :
  archive_same (MEDATA me) = Some same →
  FL_NO_OPEN E ≠ 0 →
  ∃ res s',
    vfs_s_getid E fuel me path s = Ret res s'
    ∧ match res with
      | Some super =>
          s' = s ∧ super ∈ supers s
          ∧ ∃ name op cookie, same super name op cookie s = 1
      | None => s' = s ∨ s' = set_verrno EIO s
      end.
Proof.
  intros Hsame Hflag.
  destruct (get_path_mangle_no_open E fuel me path (FL_NO_OPEN E) s same Hsame)
    as (res & s' & Hrun & Hres).
  { now rewrite Z.land_diag. }
  unfold vfs_s_getid, vfs_s_get_path. rewrite (bind_Ret _ _ _ _ _ Hrun).
  destruct res as [[q super]|].
  - exists (Some super), s'. split; [reflexivity|exact Hres].
  - exists None, s'. split; [reflexivity|exact Hres].
Qed.

Lemma getid_never_opens_witness :
  ∃ res s',
    vfs_s_getid sample_env 5 tree_class "x.tar" tree_state = Ret res s'
    ∧ match res with
      | Some super =>
          s' = tree_state ∧ super ∈ supers tree_state
          ∧ ∃ name op cookie,
              (λ (_ : super_id) (_ : string) (_ : option string) (_ : option Z)
                 (_ : state), 1) super name op cookie tree_state = 1
      | None => s' = tree_state ∨ s' = set_verrno EIO tree_state
      end.
Proof.
  apply (getid_never_opens sample_env 5 tree_class "x.tar" tree_state
           (λ _ _ _ _ _, 1)).
  - reflexivity.
  - vm_compute. discriminate.
Defined.

Lemma g_list_remove_notin (x : positive) (l : list positive) :
  x ∉ l → g_list_remove x l = l.
Proof.
  induction l as [|a l IH]; intros Hx; cbn; [reflexivity|].
  apply not_elem_of_cons in Hx as [Hne Hx].
  destruct (Pos.eqb_spec a x); [congruence|]. now rewrite IH.
Qed.

(** X16.  [vfs_s_free] of a superblock whose cache is a tree below its
    root: with fuel for the recursion it returns after every inode and
    entry of the tree has been freed and taken off the global counts,
    the superblock has left the list of the class, the [free_archive]
    hook has been called as the last event and the superblock has been
    deallocated; inodes and entries outside the tree are untouched. *)
Theorem free_releases_archive (me : vfs_class) (fuel : nat) (super : super_id)
    (r : vfs_s_super) (root : inode_id) (Is : list inode_id) (Es : list entry_id)
    (s : state) :
  supers_heap s !! super = Some r →
  s_root r = Some root →
  tree_at s super root Is Es →
  (2 * (List.length Is + List.length Es) ≤ fuel)%nat →
  ∃ s2 evs,
    vfs_s_free fuel me super s = Ret tt s2
    ∧ supers_heap s2 !! super = None
    ∧ (∀ su, su ≠ super → supers_heap s2 !! su = supers_heap s !! su)
    ∧ supers s2 = g_list_remove super (supers s)
    ∧ (∀ i, inodes s2 !! i = if decide (i ∈ Is) then None else inodes s !! i)
    ∧ (∀ e, entries s2 !! e = if decide (e ∈ Es) then None else entries s !! e)
    ∧ total_inodes s2 = dec_int (List.length Is) (total_inodes s)
    ∧ total_entries s2 = dec_int (List.length Es) (total_entries s)
    ∧ trace s2
      = (trace s ++ evs
         ++ (if free_archive (MEDATA me) then [Call_free_archive super] else []))%list.
Proof.
  intros Hr Hroot Htree Hfuel.
  destruct (proj1 (tree_kids_free me s super) _ _ _ Htree s r fuel)
    as (s1 & Hrun & (Hi & He & Hsu & Hti & Hte & evs & Htr) & _);
    [apply agree_refl|assumption|assumption|].
  assert (supers_heap s1 !! super
          = Some (set_s_ino_usage (dec_int (List.length Is) (s_ino_usage r)) r)) as Hr1.
  { rewrite Hsu, decide_True by reflexivity. now rewrite Hr. }
  eexists _, evs. split.
  { unfold vfs_s_free, vfs_s_free_super.
    rewrite (bind_Ret _ _ _ _ _ (get_super_Some _ _ _ Hr)).
    rewrite (bind_Ret _ _ _ _ _ (get_super_Some _ _ _ Hr)).
    rewrite Hroot. unfold bind. rewrite Hrun.
    unfold get_super, deref. rewrite Hr1. msimpl. reflexivity. }
  pose proof (proj1 (free_same_class_data me fuel) _ _ _ _ Hrun) as (Hsupers & _).
  mproj. repeat split.
  - now rewrite lookup_delete_eq.
  - intros su Hne. rewrite lookup_delete_ne by congruence.
    rewrite lookup_insert_ne by congruence. rewrite Hsu.
    now rewrite decide_False by assumption.
  - now rewrite Hsupers.
  - exact Hi.
  - exact He.
  - exact Hti.
  - exact Hte.
  - rewrite Htr. now rewrite <- app_assoc.
Qed.

Lemma free_releases_archive_witness :
  ∃ s2 evs,
    vfs_s_free 20 tree_class 1 tree_state = Ret tt s2
    ∧ supers_heap s2 !! 1%positive = None
    ∧ (∀ su, su ≠ 1%positive → supers_heap s2 !! su = supers_heap tree_state !! su)
    ∧ supers s2 = g_list_remove 1 (supers tree_state)
    ∧ (∀ i, inodes s2 !! i
            = if decide (i ∈ [1; 2; 3; 4; 5]%positive) then None
              else inodes tree_state !! i)
    ∧ (∀ e, entries s2 !! e
            = if decide (e ∈ [1; 2; 3; 4]%positive) then None
              else entries tree_state !! e)
    ∧ total_inodes s2 = dec_int 5 (total_inodes tree_state)
    ∧ total_entries s2 = dec_int 4 (total_entries tree_state)
    ∧ trace s2
      = (trace tree_state ++ evs
         ++ (if free_archive (MEDATA tree_class) then [Call_free_archive 1] else []))%list.
Proof.
  apply (free_releases_archive tree_class 20 1
           (mk_super (Some "x.tar") (Some 1%positive) 0 0 5) 1
           [1; 2; 3; 4; 5]%positive [1; 2; 3; 4]%positive tree_state).
  - reflexivity.
  - reflexivity.
  - exact tree_state_tree.
  - cbn. lia.
Defined.

(** The run of [vfs_s_get_path_mangle] up to the answer of
    [open_archive], when no superblock on the list is the same. *)
Lemma get_path_mangle_opens (E : environment) (fuel : nat) (me : vfs_class)
    (inname archive_name : string) (local op : option string) (flags : Z)
    (cookie : option Z) (s s' : state) (rc : Z)
    (same : super_id → string → option string → option Z → state → Z)
    (open : super_id → string → option string → state → Z * state) :
  vfs_split E inname = (archive_name, local, op) →
  match archive_check (MEDATA me) with
  | Some check =>
      match check archive_name op s with
      | Some cookie => Some (Some cookie)
      | None => None
      end
  | None => Some None
  end = Some cookie →
  archive_same (MEDATA me) = Some same →
  scan_supers (λ super, same super archive_name op cookie s) (supers s) = None →
  Z.land flags (FL_NO_OPEN E) = 0 →
  open_archive (MEDATA me) = Some open →
  let super := fresh (dom (supers_heap s)) in
  open super archive_name op
    (upd_supers_heap (insert super (mk_super None None 0 0 0)) s) = (rc, s') →
  vfs_s_get_path_mangle E fuel me inname flags s
  = (if rc =? -1 then
       vfs_s_free_super fuel me super ;; ERRNOR EIO None
     else
       do r <- get_super super;
       if negb (bool_decide (is_Some (s_name r))) then
         vfs_die "You have to fill name"
       else if negb (bool_decide (is_Some (s_root r))) then
         vfs_die "You have to fill root inode"
       else
         vfs_s_insert_super me super ;;
         emit (Stamp_create super) ;;
         ret (Some (match local with Some l => l | None => EmptyString end, super))) s'.
Proof.
  intros Hsplit Hcheck Hsame Hscan Hflag Hopen super Hrun.
  unfold vfs_s_get_path_mangle. rewrite Hsplit.
  unfold bind at 1. unfold get_state at 1. rewrite Hcheck.
  assert ((match supers s with
           | [] => ret None
           | _ :: _ =>
               do same <- deref (archive_same (MEDATA me));
               ret (scan_supers (λ super, same super archive_name op cookie s) (supers s))
           end) s = Ret None s) as Hnone.
  { destruct (supers s); [reflexivity|]. rewrite Hsame. cbn in *.
    unfold bind, ret. now rewrite Hscan. }
  rewrite (bind_Ret _ _ _ _ _ Hnone).
  rewrite Hflag. cbn [Z.eqb negb]. rewrite Hopen.
  unfold vfs_s_new_super. msimpl. fold super. rewrite Hrun. reflexivity.
Qed.

(** X17.  An archive that cannot be opened leaves nothing behind: when
    no superblock on the list is the same and [open_archive] answers -1
    without touching the fresh superblock, [vfs_s_get_path_mangle] frees
    that superblock again, calls the [free_archive] hook, stores [EIO]
    and returns null; heap, counts and the list of superblocks are as
    before the call. *)
Theorem failed_open_leaves_nothing (E : environment) (fuel : nat) (me : vfs_class)
    (inname archive_name : string) (local op : option string) (flags : Z)
    (cookie : option Z) (s : state)
    (same : super_id → string → option string → option Z → state → Z)
    (open : super_id → string → option string → state → Z * state) :
  vfs_split E inname = (archive_name, local, op) →
  match archive_check (MEDATA me) with
  | Some check =>
      match check archive_name op s with
      | Some cookie => Some (Some cookie)
      | None => None
      end
  | None => Some None
  end = Some cookie →
  archive_same (MEDATA me) = Some same →
  scan_supers (λ super, same super archive_name op cookie s) (supers s) = None →
  Z.land flags (FL_NO_OPEN E) = 0 →
  open_archive (MEDATA me) = Some open →
  (∀ su, su ∈ supers s → is_Some (supers_heap s !! su)) →
  let super := fresh (dom (supers_heap s)) in
  let s0 := upd_supers_heap (insert super (mk_super None None 0 0 0)) s in
  open super archive_name op s0 = (-1, s0) →
  vfs_s_get_path_mangle E fuel me inname flags s
  = Ret None
      (set_verrno EIO
         (log_events (if free_archive (MEDATA me) then [Call_free_archive super] else [])
            s)).
Proof.
  intros Hsplit Hcheck Hsame Hscan Hflag Hopen Hlive super s0 Hrun.
  rewrite (get_path_mangle_opens E fuel me inname archive_name local op flags cookie s
             s0 (-1) same open Hsplit Hcheck Hsame Hscan Hflag Hopen Hrun).
  change (-1 =? -1) with true. cbv iota. unfold bind at 1. unfold vfs_s_free_super.
  assert (supers_heap s0 !! super = Some (mk_super None None 0 0 0)) as Hr
    by (subst s0; mproj; apply lookup_insert_eq).
  rewrite (bind_Ret _ _ _ _ _ (get_super_Some _ _ _ Hr)).
  assert (g_list_remove super (supers s) = supers s) as Hrm.
  { apply g_list_remove_notin. intros Hin. destruct (Hlive _ Hin) as [r Hsu].
    subst super. rewrite lookup_fresh in Hsu. discriminate. }
  cbn [s_root]. subst s0 super. msimpl. rewrite Hrm.
  unfold upd_supers_heap, set_supers, log_events, set_verrno. mproj.
  rewrite delete_insert_id by apply lookup_fresh.
  destruct s. reflexivity.
Qed.

Lemma failed_open_leaves_nothing_witness :
  vfs_s_get_path_mangle sample_env 5 refusing_class "y.tar" 0 tree_state
  = Ret None
      (set_verrno EIO
         (log_events
            (if free_archive (MEDATA refusing_class)
             then [Call_free_archive (fresh (dom (supers_heap tree_state)))] else [])
            tree_state)).
Proof.
  apply (failed_open_leaves_nothing sample_env 5 refusing_class "y.tar" "" (Some "y.tar")
           None 0 None tree_state (λ _ _ _ _ _, 0) (λ _ _ _ s, (-1, s)));
    try reflexivity.
  intros su Hsu. apply list_elem_of_singleton in Hsu as ->. now eexists.
Defined.

Lemma fill_names_loop_ext (me : vfs_class) (l : list super_id) (s s2 : state)
    (names : list (option string)) :
  supers_heap s2 = supers_heap s →
  fill_names_loop me l s = Ret names s →
  fill_names_loop me l s2 = Ret names s2.
Proof.
  intros Heq. revert names. induction l as [|super l IH]; intros names; cbn.
  - intros [= <-]. reflexivity.
  - unfold bind at 1 3. unfold get_super, deref. rewrite Heq.
    destruct (supers_heap s !! super) as [r|]; [|discriminate].
    unfold ret at 1 3. unfold bind at 1 2.
    destruct (fill_names_loop me l s) as [names' s1| | |] eqn:Hl; try discriminate.
    intros [= <- ->]. rewrite (IH names' eq_refl). reflexivity.
Qed.

Lemma fill_names_loop_cons (me : vfs_class) (super : super_id) (r : vfs_s_super)
    (l : list super_id) (s : state) (names : list (option string)) :
  supers_heap s !! super = Some r →
  fill_names_loop me l s = Ret names s →
  fill_names_loop me (super :: l) s
  = Ret (match s_name r with
         | Some n => Some (n ++ "#" ++ c_prefix me ++ "/")
         | None => None
         end :: names) s.
Proof.
  intros Hr Hl. cbn [fill_names_loop].
  rewrite (bind_Ret _ _ _ _ _ (get_super_Some _ _ _ Hr)).
  rewrite (bind_Ret _ _ _ _ _ Hl). reflexivity.
Qed.

(** X18.  An archive that opens is registered: when no superblock on the
    list is the same and [open_archive] succeeds and has filled in name
    and root, [vfs_s_get_path_mangle] puts the new superblock at the head
    of the list of the class, creates its stamp and returns it with the
    local part of the path; [vfs_s_fill_names] then reports
    [name#prefix/] for it first, before the names it reported for the
    older superblocks.  A superblock left without a name or without a
    root by [open_archive] ends the program. *)
Theorem open_archive_registers (E : environment) (fuel : nat) (me : vfs_class)
    (inname archive_name : string) (local op : option string) (flags : Z)
    (cookie : option Z) (s s' : state) (rc : Z) (r' : vfs_s_super)
    (same : super_id → string → option string → option Z → state → Z)
    (open : super_id → string → option string → state → Z * state) :
  vfs_split E inname = (archive_name, local, op) →
  match archive_check (MEDATA me) with
  | Some check =>
      match check archive_name op s with
      | Some cookie => Some (Some cookie)
      | None => None
      end
  | None => Some None
  end = Some cookie →
  archive_same (MEDATA me) = Some same →
  scan_supers (λ super, same super archive_name op cookie s) (supers s) = None →
  Z.land flags (FL_NO_OPEN E) = 0 →
  open_archive (MEDATA me) = Some open →
  let super := fresh (dom (supers_heap s)) in
  open super archive_name op
    (upd_supers_heap (insert super (mk_super None None 0 0 0)) s) = (rc, s') →
  rc ≠ -1 →
  supers_heap s' !! super = Some r' →
  (s_name r' = None →
   vfs_s_get_path_mangle E fuel me inname flags s = Die "You have to fill name")
  ∧ (is_Some (s_name r') → s_root r' = None →
     vfs_s_get_path_mangle E fuel me inname flags s = Die "You have to fill root inode")
  ∧ (∀ n root, s_name r' = Some n → s_root r' = Some root →
       let s2 := log_event (Stamp_create super) (set_supers (super :: supers s') s') in
       vfs_s_get_path_mangle E fuel me inname flags s
       = Ret (Some (match local with Some l => l | None => EmptyString end, super)) s2
       ∧ ∀ names,
           vfs_s_fill_names me s' = Ret names s' →
           vfs_s_fill_names me s2
           = Ret (Some (n ++ "#" ++ c_prefix me ++ "/") :: names) s2).
Proof.
  intros Hsplit Hcheck Hsame Hscan Hflag Hopen super Hrun Hrc Hr'.
  rewrite (get_path_mangle_opens E fuel me inname archive_name local op flags cookie s
             s' rc same open Hsplit Hcheck Hsame Hscan Hflag Hopen Hrun).
  apply Z.eqb_neq in Hrc. rewrite Hrc.
  rewrite (bind_Ret _ _ _ _ _ (get_super_Some _ _ _ Hr')).
  split; [|split].
  - intros ->. reflexivity.
  - intros [n ->] ->. reflexivity.
  - intros n root Hn Hroot s2. rewrite Hn, Hroot. split; [reflexivity|].
    intros names Hnames. unfold vfs_s_fill_names, bind, get_state in *.
    change (supers s2) with (super :: supers s').
    rewrite (fill_names_loop_cons me super r' (supers s') s2 names Hr').
    + now rewrite Hn.
    + exact (fill_names_loop_ext me (supers s') s' s2 names eq_refl Hnames).
Qed.

Lemma open_archive_registers_witness :
  let super := fresh (dom (supers_heap tree_state)) in
  let s' := upd_supers_heap
              (insert super (mk_super (Some "new.tar") (Some 9%positive) 0 0 0))
              (upd_supers_heap (insert super (mk_super None None 0 0 0)) tree_state) in
  let s2 := log_event (Stamp_create super) (set_supers (super :: supers s') s') in
  vfs_s_get_path_mangle sample_env 5 opening_class "new.tar" 0 tree_state
  = Ret (Some ("new.tar", super)) s2
  ∧ ∀ names,
      vfs_s_fill_names opening_class s' = Ret names s' →
      vfs_s_fill_names opening_class s2
      = Ret (Some ("new.tar" ++ "#" ++ c_prefix opening_class ++ "/") :: names) s2.
Proof.
  intros super s' s2.
  pose proof (open_archive_registers sample_env 5 opening_class "new.tar" ""
                (Some "new.tar") None 0 None tree_state s' 0
                (mk_super (Some "new.tar") (Some 9%positive) 0 0 0)
                (λ _ _ _ _ _, 0) sample_open_archive
                eq_refl eq_refl eq_refl eq_refl eq_refl eq_refl eq_refl
                ltac:(discriminate) ltac:(vm_compute; reflexivity)) as (_ & _ & Hreg).
  exact (Hreg "new.tar" 9%positive eq_refl eq_refl).
Defined.

(** * Invalidation, control and chdir *)

(** X19.  [vfs_s_invalidate] on a superblock that wants stale data does
    nothing.  Otherwise, the cache being a tree below the root, it frees
    every inode and entry of the tree and gives the superblock a fresh
    root: an empty directory of mode [(S_IFDIR | 0755) & ~umask] without
    a link and without an entry; entries and inodes outside the tree are
    untouched. *)
Theorem invalidate_replaces_root (E : environment) (me : vfs_class) (fuel : nat)
    (super : super_id) (r : vfs_s_super) (s : state) :
  supers_heap s !! super = Some r →
  (s_want_stale r ≠ 0 → vfs_s_invalidate E fuel me super s = Ret tt s)
  ∧ (∀ root Is Es,
       s_want_stale r = 0 →
       s_root r = Some root →
       tree_at s super root Is Es →
       (∀ s', g_try_new0_ok E s' = true) →
       (2 * (List.length Is + List.length Es) ≤ fuel)%nat →
       ∃ s2 root',
         vfs_s_invalidate E fuel me super s = Ret tt s2
         ∧ supers_heap s2 !! super
           = Some (set_s_root (Some root')
                     (set_s_ino_usage
                        (wrap_int (dec_int (List.length Is) (s_ino_usage r) + 1)) r))
         ∧ inodes s2 !! root' = Some (new_dir_inode super None s)
         ∧ (inodes s !! root' = None ∨ root' ∈ Is)
         ∧ (∀ i, i ≠ root' →
              inodes s2 !! i = if decide (i ∈ Is) then None else inodes s !! i)
         ∧ (∀ e, entries s2 !! e = if decide (e ∈ Es) then None else entries s !! e)).
Proof.
  intros Hr. unfold vfs_s_invalidate.
  rewrite (bind_Ret _ _ _ _ _ (get_super_Some _ _ _ Hr)). split.
  - intros Hst. apply Z.eqb_neq in Hst. now rewrite Hst.
  - intros root Is Es Hst Hroot Htree Hmem Hfuel. rewrite Hst, Hroot.
    change (0 =? 0) with true. cbv iota.
    destruct (proj1 (tree_kids_free me s super) _ _ _ Htree s r fuel)
      as (s1 & Hrun & (Hi & He & Hsu & Hti & Hte & evs & Htr) & _);
      [apply agree_refl|assumption|assumption|].
    pose proof (proj1 (free_same_class_data me fuel) _ _ _ _ Hrun)
      as (_ & _ & Hc & Hrd & _ & _ & Hum & Hui & Hgi & Hti').
    assert (supers_heap s1 !! super
            = Some (set_s_ino_usage (dec_int (List.length Is) (s_ino_usage r)) r)) as Hr1.
    { rewrite Hsu, decide_True by reflexivity. now rewrite Hr. }
    rewrite (bind_Ret _ _ _ _ _ Hrun).
    unfold vfs_s_default_stat, vfs_s_new_inode. msimpl. rewrite (Hmem s1). msimpl.
    mrew Hr1. mlookup.
    eexists _, (fresh (dom (inodes s1))). split; [reflexivity|]. mproj.
    split; [now rewrite lookup_insert_eq|].
    split.
    { rewrite lookup_insert_eq. unfold new_dir_inode.
      now rewrite Hc, Hrd, Hum, Hui, Hgi, Hti'. }
    split.
    { pose proof (lookup_fresh (inodes s1)) as Hf. rewrite Hi in Hf.
      destruct (decide (fresh (dom (inodes s1)) ∈ Is)); [now right|now left]. }
    split.
    + intros i Hne. rewrite lookup_insert_ne by congruence. apply Hi.
    + exact He.
Qed.

Lemma invalidate_replaces_root_witness :
  vfs_s_invalidate sample_env 20 tree_class 1
    (upd_supers_heap
       (insert 1%positive (mk_super (Some "x.tar") (Some 1%positive) 1 0 5)) tree_state)
  = Ret tt
      (upd_supers_heap
         (insert 1%positive (mk_super (Some "x.tar") (Some 1%positive) 1 0 5)) tree_state)
  ∧ ∃ s2 root',
      vfs_s_invalidate sample_env 20 tree_class 1 tree_state = Ret tt s2
      ∧ supers_heap s2 !! 1%positive
        = Some (set_s_root (Some root')
                  (set_s_ino_usage (wrap_int (dec_int 5 5 + 1))
                     (mk_super (Some "x.tar") (Some 1%positive) 0 0 5)))
      ∧ inodes s2 !! root' = Some (new_dir_inode 1 None tree_state)
      ∧ (inodes tree_state !! root' = None ∨ root' ∈ [1; 2; 3; 4; 5]%positive)
      ∧ (∀ i, i ≠ root' →
           inodes s2 !! i
           = if decide (i ∈ [1; 2; 3; 4; 5]%positive) then None
             else inodes tree_state !! i)
      ∧ (∀ e, entries s2 !! e
              = if decide (e ∈ [1; 2; 3; 4]%positive) then None
                else entries tree_state !! e).
Proof.
  split.
  - apply (invalidate_replaces_root sample_env tree_class 20 1
             (mk_super (Some "x.tar") (Some 1%positive) 1 0 5)).
    + reflexivity.
    + discriminate.
  - apply (proj2 (invalidate_replaces_root sample_env tree_class 20 1
                    (mk_super (Some "x.tar") (Some 1%positive) 0 0 5) tree_state eq_refl)
             1%positive [1; 2; 3; 4; 5]%positive [1; 2; 3; 4]%positive).
    + reflexivity.
    + reflexivity.
    + exact tree_state_tree.
    + reflexivity.
    + cbn. lia.
Defined.

(** X20.  [vfs_s_setctl]: an operation it does not know answers 0 and
    changes nothing.  [VFS_SETCTL_STALE_DATA] with an argument, for a
    path that resolves, marks the superblock of the inode as wanting
    stale data and answers 1, and from then on [vfs_s_invalidate] leaves
    the cache of that superblock as it is. *)
Theorem setctl_stale_data_keeps_cache (E : environment) (fuel : nat)
    (me : vfs_class) (path : string) (ctlop : Z) (arg : option string) (s : state) :
  (ctlop ≠ VFS_SETCTL_STALE_DATA E →
   ctlop ≠ VFS_SETCTL_LOGFILE E →
   ctlop ≠ VFS_SETCTL_FLUSH E →
   vfs_s_setctl E fuel me path ctlop arg s = Ret 0 s)
  ∧ (∀ ino s1 x r a,
       ctlop = VFS_SETCTL_STALE_DATA E →
       arg = Some a →
       vfs_s_inode_from_path E fuel me path 0 s = Ret (Some ino) s1 →
       inodes s1 !! ino = Some x →
       supers_heap s1 !! i_super x = Some r →
       let s2 := upd_supers_heap (insert (i_super x) (set_s_want_stale 1 r)) s1 in
       vfs_s_setctl E fuel me path ctlop arg s = Ret 1 s2
       ∧ ∀ fuel', vfs_s_invalidate E fuel' me (i_super x) s2 = Ret tt s2).
Proof.
  split.
  - intros H1 H2 H3. apply Z.eqb_neq in H1, H2, H3.
    unfold vfs_s_setctl. now rewrite H1, H2, H3.
  - intros ino s1 x r a -> -> Hres Hx Hr s2.
    unfold vfs_s_setctl. rewrite Z.eqb_refl.
    rewrite (bind_Ret _ _ _ _ _ Hres).
    rewrite (bind_Ret _ _ _ _ _ (get_inode_Some _ _ _ Hx)).
    rewrite (bind_Ret _ _ _ _ _ (get_super_Some _ _ _ Hr)).
    split; [reflexivity|].
    intros fuel'. unfold vfs_s_invalidate.
    assert (supers_heap s2 !! i_super x = Some (set_s_want_stale 1 r)) as Hr2
      by (subst s2; mproj; apply lookup_insert_eq).
    rewrite (bind_Ret _ _ _ _ _ (get_super_Some _ _ _ Hr2)). reflexivity.
Qed.

Lemma setctl_stale_data_keeps_cache_witness :
  vfs_s_setctl sample_env 9 tree_class "a" 77 (Some "on") tree_state = Ret 0 tree_state
  ∧ let s2 := upd_supers_heap
                (insert 1%positive
                   (set_s_want_stale 1 (mk_super (Some "x.tar") (Some 1%positive) 0 0 5)))
                tree_state in
    vfs_s_setctl sample_env 9 tree_class "a" 1 (Some "on") tree_state = Ret 1 s2
    ∧ ∀ fuel', vfs_s_invalidate sample_env fuel' tree_class 1 s2 = Ret tt s2.
Proof.
  split.
  - apply (setctl_stale_data_keeps_cache sample_env 9 tree_class "a" 77 (Some "on")
             tree_state); discriminate.
  - apply (proj2 (setctl_stale_data_keeps_cache sample_env 9 tree_class "a" 1 (Some "on")
                    tree_state) 2%positive tree_state
             (mk_inode 1 (Some 1%positive) [2%positive] (dir_st 1) None None 0)
             (mk_super (Some "x.tar") (Some 1%positive) 0 0 5) "on");
      first [reflexivity | vm_compute; reflexivity].
Defined.

Lemma opendir_resolved (E : environment) (fuel : nat) (me : vfs_class)
    (path : string) (s s1 : state) (o : option inode_id) :
  vfs_s_inode_from_path E fuel me path (Z.lor (FL_DIR E) (FL_FOLLOW E)) s = Ret o s1 →
  vfs_s_opendir E fuel me path s
  = match o with
    | None => Ret None s1
    | Some dir =>
        match inodes s1 !! dir with
        | None => Fault
        | Some x =>
            if S_ISDIR (st_mode (i_st x)) then
              Ret (Some (mk_dirhandle (head (i_subdir x)) dir))
                (upd_inodes (insert dir (set_i_nlink (wrap_u64 (i_nlink x + 1)) x)) s1)
            else Ret None (set_verrno ENOTDIR s1)
        end
    end.
Proof.
  intros Hres. unfold vfs_s_opendir. rewrite (bind_Ret _ _ _ _ _ Hres).
  destruct o as [dir|]; [|reflexivity].
  unfold bind, get_inode, get_state, deref.
  destruct (inodes s1 !! dir) as [x|]; [|reflexivity].
  cbn. destruct (S_ISDIR (st_mode (i_st x))); reflexivity.
Qed.

(** X21.  [vfs_s_chdir] is an [opendir] followed at once by a [closedir]:
    it answers -1 when the path does not resolve, -1 with [ENOTDIR] when
    it resolves to something that is not a directory, and 0 for a
    directory; for a directory with at least one link (and room for one
    more in [nlink_t]) the link taken by [opendir] is given back and the
    cache is left exactly as the lookup left it. *)
Theorem chdir_leaves_cache (E : environment) (fuel : nat) (me : vfs_class)
    (path : string) (s s1 : state) (o : option inode_id) :
  vfs_s_inode_from_path E (S fuel) me path (Z.lor (FL_DIR E) (FL_FOLLOW E)) s
    = Ret o s1 →
  match o with
  | None => vfs_s_chdir E (S fuel) me path s = Ret (-1) s1
  | Some dir =>
      ∀ x r,
        inodes s1 !! dir = Some x →
        supers_heap s1 !! i_super x = Some r →
        (S_ISDIR (st_mode (i_st x)) = false →
         vfs_s_chdir E (S fuel) me path s = Ret (-1) (set_verrno ENOTDIR s1))
        ∧ (S_ISDIR (st_mode (i_st x)) = true →
           1 ≤ i_nlink x < NLINK_MAX →
           vfs_s_chdir E (S fuel) me path s = Ret 0 s1)
  end.
Proof.
  intros Hres. unfold vfs_s_chdir.
  pose proof (opendir_resolved E (S fuel) me path s s1 o Hres) as Hopen.
  destruct o as [dir|]; [|now rewrite (bind_Ret _ _ _ _ _ Hopen)].
  intros x r Hx Hr. rewrite Hx in Hopen. split.
  - intros Hd. rewrite Hd in Hopen. now rewrite (bind_Ret _ _ _ _ _ Hopen).
  - intros Hd Hn. rewrite Hd in Hopen. rewrite (bind_Ret _ _ _ _ _ Hopen).
    clear Hopen. unfold NLINK_MAX in Hn.
    rewrite wrap_u64_small by lia.
    set (s2 := upd_inodes (insert dir (set_i_nlink (i_nlink x + 1) x)) s1).
    assert (inodes s2 !! dir = Some (set_i_nlink (i_nlink x + 1) x)) as Hx2
      by (subst s2; mproj; apply lookup_insert_eq).
    assert (supers_heap s2 !! i_super x = Some r) as Hr2 by exact Hr.
    fold (vfs_s_closedir (S fuel) me (mk_dirhandle (head (i_subdir x)) dir)).
    assert (vfs_s_closedir (S fuel) me (mk_dirhandle (head (i_subdir x)) dir) s2 = Ret 0 s1)
      as Hclose; [|now rewrite (bind_Ret _ _ _ _ _ Hclose)].
    unfold vfs_s_closedir. cbn [dh_dir].
    rewrite (bind_Ret _ _ _ _ _ (get_inode_Some _ _ _ Hx2)).
    cbn [i_super set_i_nlink set_i_st].
    rewrite (bind_Ret _ _ _ _ _ (get_super_Some _ _ _ Hr2)).
    rewrite (bind_Ret _ _ _ _ _
               (free_inode_shared me fuel dir _ s2 Hx2 ltac:(cbn; lia))).
    unfold ret. f_equal. subst s2.
    replace (set_i_nlink (wrap_u64 (i_nlink (set_i_nlink (i_nlink x + 1) x) - 1))
               (set_i_nlink (i_nlink x + 1) x)) with x.
    + now apply put_inode_restore.
    + replace (i_nlink (set_i_nlink (i_nlink x + 1) x) - 1) with (i_nlink x)
        by (destruct x as [? ? ? [] ? ? ?]; cbn; lia).
      rewrite wrap_u64_small by lia. symmetry. apply set_i_nlink_restore.
Qed.

Lemma chdir_leaves_cache_witness :
  vfs_s_chdir sample_env 9 tree_class "a" tree_state = Ret 0 tree_state.
Proof.
  pose proof (chdir_leaves_cache sample_env 8 tree_class "a" tree_state tree_state
                (Some 2%positive) ltac:(vm_compute; reflexivity)
                (mk_inode 1 (Some 1%positive) [2%positive] (dir_st 1) None None 0)
                (mk_super (Some "x.tar") (Some 1%positive) 0 0 5) eq_refl eq_refl)
    as [_ Hdir].
  apply Hdir; [reflexivity|]. unfold NLINK_MAX. cbn. lia.
Defined.

(** * Lookups that only read *)

Lemma same_but_verrno_set (e : Z) (s : state) : same_but_verrno s (set_verrno e s).
Proof. reflexivity. Qed.

Lemma preserves_ERRNOR {A} (e : Z) (r : A) : preserves same_but_verrno (ERRNOR e r).
Proof.
  unfold ERRNOR. apply preserves_bind; [|intros; apply preserves_ret].
  apply preserves_modify. apply same_but_verrno_set.
Qed.

Lemma scan_subdir_reads (l : list entry_id) (path : string) (pseg : nat) :
  preserves same_but_verrno (scan_subdir l path pseg).
Proof. induction l as [|e l IH]; cbn [scan_subdir]; pres; exact IH. Qed.

Lemma fullpath_archive_reads (fuel : nat) :
  ∀ ino path, preserves same_but_verrno (fullpath_archive fuel ino path).
Proof.
  induction fuel as [|fuel IH]; intros ino path; cbn [fullpath_archive]; pres.
  apply IH.
Qed.

Lemma vfs_s_fullpath_reads (E : environment) (fuel : nat) (me : vfs_class)
    (ino : inode_id) :
  preserves same_but_verrno (vfs_s_fullpath E fuel me ino).
Proof.
  unfold vfs_s_fullpath. pres; try apply preserves_ERRNOR.
  apply fullpath_archive_reads.
Qed.

Lemma symlink_target_reads (E : environment) (fuel : nat) (me : vfs_class)
    (dir : option inode_id) (linkname : string) :
  preserves same_but_verrno (symlink_target E fuel me dir linkname).
Proof. unfold symlink_target. pres. apply vfs_s_fullpath_reads. Qed.

Lemma find_entry_tree_loop_reads (E : environment) (me : vfs_class)
    (rs : option entry_id → Z → M (option entry_id)) (flags : Z) :
  (∀ e f, preserves same_but_verrno (rs e f)) →
  Z.land flags (Z.lor (FL_MKFILE E) (FL_MKDIR E)) = 0 →
  ∀ rounds root path ent follow,
    preserves same_but_verrno
      (find_entry_tree_loop E rs me rounds root path ent follow flags).
Proof.
  intros Hrs Hflags. induction rounds as [|rounds IH]; intros root path ent follow;
    cbn [find_entry_tree_loop]; [apply preserves_out_of_fuel|].
  rewrite Hflags. cbn [Z.eqb negb].
  pres; try apply scan_subdir_reads; try apply Hrs; try apply IH.
  apply preserves_modify. apply same_but_verrno_set.
Qed.

Lemma tree_resolver_reads (E : environment) (me : vfs_class) :
  find_entry (MEDATA me) = Some Find_entry_tree →
  ∀ fuel,
    (∀ entry follow,
       preserves same_but_verrno (vfs_s_resolve_symlink E fuel me entry follow))
    ∧ (∀ root path follow flags,
         Z.land flags (Z.lor (FL_MKFILE E) (FL_MKDIR E)) = 0 →
         preserves same_but_verrno
           (vfs_s_find_entry_tree E fuel me root path follow flags)).
Proof.
  intros Hfind. induction fuel as [|fuel [IHr IHt]].
  - split; intros; apply preserves_out_of_fuel.
  - split.
    + intros entry follow. cbn [vfs_s_resolve_symlink]. rewrite Hfind.
      pres; try apply preserves_ERRNOR; try apply symlink_target_reads.
      apply IHt. apply Z.land_0_l.
    + intros root path follow flags Hflags. cbn [vfs_s_find_entry_tree].
      now apply find_entry_tree_loop_reads.
Qed.

(** X22.  Lookups in an archive class only read: in a class whose
    resolver is [vfs_s_find_entry_tree], a lookup without [FL_MKDIR] and
    [FL_MKFILE], by [vfs_s_find_entry_tree] or by [vfs_s_find_inode],
    whatever symlinks it follows and whether it succeeds or not, leaves
    the whole state as it was except for [verrno]. *)
Theorem tree_lookup_only_reads (E : environment) (me : vfs_class) (fuel : nat)
    (flags : Z) :
  find_entry (MEDATA me) = Some Find_entry_tree →
  Z.land flags (Z.lor (FL_MKFILE E) (FL_MKDIR E)) = 0 →
  (∀ root path follow s ent s',
     vfs_s_find_entry_tree E fuel me root path follow flags s = Ret ent s' →
     s' = set_verrno (verrno s') s)
  ∧ (∀ super path follow s ino s',
       vfs_s_find_inode E fuel me super path follow flags s = Ret ino s' →
       s' = set_verrno (verrno s') s).
Proof.
  intros Hfind Hflags. split.
  - intros root path follow.
    exact (proj2 (tree_resolver_reads E me Hfind fuel) root path follow flags Hflags).
  - intros super path follow.
    change (preserves same_but_verrno
              (vfs_s_find_inode E fuel me super path follow flags)).
    destruct fuel as [|fuel]; [apply preserves_out_of_fuel|].
    cbn [vfs_s_find_inode]. rewrite Hfind. pres.
    exact (proj2 (tree_resolver_reads E me Hfind fuel) _ path follow flags Hflags).
Qed.

Lemma tree_lookup_only_reads_witness :
  set_verrno ENOENT tree_state
  = set_verrno (verrno (set_verrno ENOENT tree_state)) tree_state.
Proof.
  apply (proj1 (tree_lookup_only_reads sample_env tree_class 9 0 eq_refl eq_refl)
           (Some 1%positive) "a/zz" 15 tree_state None (set_verrno ENOENT tree_state)).
  vm_compute. reflexivity.
Defined.

(** ** Creating an entry, then looking it up *)

Lemma scan_subdir_appended (l : list entry_id) (path : string) (ent : entry_id)
    (y : vfs_s_entry) (s s2 : state) :
  Forall (λ e, ∃ y', entries s !! e = Some y' ∧ e_name y' ≠ until_sep path) l →
  entries s2 !! ent = Some y →
  e_name y = until_sep path →
  (∀ e, e ≠ ent → entries s2 !! e = entries s !! e) →
  scan_subdir (l ++ [ent]) path (segment_length path) s2 = Ret (Some ent) s2.
Proof.
  intros Hl Hy Hname Hframe.
  assert (Hhit : segment_matches (e_name y) path (segment_length path) = true)
    by now apply segment_matches_spec.
  induction Hl as [|e l [y' [Hy' Hne]] _ IH]; cbn.
  - msimpl. mrew Hy. rewrite Hhit. reflexivity.
  - destruct (decide (e = ent)) as [->|He].
    + msimpl. mrew Hy. rewrite Hhit. reflexivity.
    + msimpl. rewrite <- (Hframe e He) in Hy'. mrew Hy'.
      rewrite (segment_matches_false _ _ Hne). exact IH.
Qed.

Lemma no_sep_advance (path : string) :
  has_sep path = false → advance (segment_length path) path = EmptyString.
Proof.
  induction path as [|c path IH]; cbn; [reflexivity|].
  destruct (is_sep c); cbn; [discriminate | exact IH].
Qed.

Lemma skip_seps_length (path : string) :
  skip_seps path ≠ EmptyString → ∃ n, String.length path = S n.
Proof. destruct path; [contradiction | eexists; reflexivity]. Qed.

(** Neither mode that [vfs_s_automake] hands out is that of a symbolic
    link, whatever the process mask. *)
Lemma automake_mode_not_link (E : environment) (flags umask : Z) :
  S_ISLNK (Z.land (automake_mode E flags) (Z.lnot umask)) = false.
Proof.
  unfold S_ISLNK. apply Z.eqb_neq. intros Heq.
  apply (f_equal (λ z, Z.testbit z 15)) in Heq.
  rewrite !Z.land_spec in Heq. unfold automake_mode in Heq.
  destruct (Z.land flags (FL_MKDIR E) =? 0); vm_compute in Heq; discriminate.
Qed.

(** A walk over one segment that is found in [root] and is no symbolic
    link stops at that entry. *)
Lemma tree_walk_one_segment (E : environment) (fuel : nat) (me : vfs_class)
    (root : inode_id) (x : vfs_s_inode) (a_path : string) (e : entry_id)
    (y : vfs_s_entry) (ino : inode_id) (xi : vfs_s_inode) (follow flags : Z)
    (s : state) :
  let path' := skip_seps (custom_canonicalize_pathname E a_path) in
  path' ≠ EmptyString →
  has_sep path' = false →
  inodes s !! root = Some x →
  scan_subdir (i_subdir x) path' (segment_length path') s = Ret (Some e) s →
  entries s !! e = Some y →
  e_ino y = Some ino →
  inodes s !! ino = Some xi →
  S_ISLNK (st_mode (i_st xi)) = false →
  follow ≠ 0 →
  vfs_s_find_entry_tree E (S (S fuel)) me (Some root) a_path follow flags s
  = Ret (Some e) s.
Proof.
  intros path' Hne Hsep Hx Hscan Hy Hino Hxi Hlnk Hfollow.
  destruct (skip_seps_length _ Hne) as [n Hn].
  cbn [vfs_s_find_entry_tree]. rewrite Hn.
  cbn [find_entry_tree_loop]. fold path'.
  rewrite (is_empty_false _ Hne). msimpl. mrew Hx.
  rewrite Hscan. msimpl.
  rewrite (no_sep_advance _ Hsep). cbn [has_sep].
  assert (Hrs : vfs_s_resolve_symlink E (S fuel) me (Some e) follow s
                = Ret (Some e) s).
  { cbn [vfs_s_resolve_symlink].
    destruct (follow =? LINK_NO_FOLLOW); [reflexivity|].
    apply Z.eqb_neq in Hfollow. rewrite Hfollow.
    msimpl. mrew Hy. rewrite Hino. msimpl. mrew Hxi. rewrite Hlnk. reflexivity. }
  cbn [vfs_s_resolve_symlink] in Hrs. cbn [vfs_s_resolve_symlink]. rewrite Hrs. msimpl. mrew Hy. rewrite Hino.
  destruct n; reflexivity.
Qed.

Lemma no_sep_until (path : string) : has_sep path = false → until_sep path = path.
Proof.
  induction path as [|c path IH]; cbn; [reflexivity|].
  destruct (is_sep c); cbn; [discriminate | intros H; now rewrite IH].
Qed.

(** X23 (vfs_s_find_entry_tree, vfs_s_automake): a lookup with FL_MKDIR or
    FL_MKFILE of a single name that the directory does not have creates
    the entry under that name in that directory, and any later lookup of
    the same path, whatever its flags, returns this very entry and leaves
    the cache as it is. *)
Theorem mkdir_then_lookup (E : environment) (fuel fuel' : nat) (me : vfs_class)
    (root : inode_id) (x : vfs_s_inode) (r : vfs_s_super) (a_path : string)
    (follow follow' flags flags' : Z) (s : state) :
  let path' := skip_seps (custom_canonicalize_pathname E a_path) in
  path' ≠ EmptyString →
  has_sep path' = false →
  inodes s !! root = Some x →
  supers_heap s !! i_super x = Some r →
  Forall (λ e, ∃ y, entries s !! e = Some y ∧ e_name y ≠ until_sep path')
    (i_subdir x) →
  Z.land flags (Z.lor (FL_MKFILE E) (FL_MKDIR E)) ≠ 0 →
  g_try_new0_ok E s = true →
  follow ≠ 0 →
  follow' ≠ 0 →
  ∃ (e : entry_id) (y : vfs_s_entry) (s1 : state),
    vfs_s_find_entry_tree E (S (S fuel)) me (Some root) a_path follow flags s
      = Ret (Some e) s1
    ∧ entries s !! e = None
    ∧ entries s1 !! e = Some y
    ∧ e_name y = path'
    ∧ e_dir y = Some root
    ∧ vfs_s_find_entry_tree E (S (S fuel')) me (Some root) a_path follow' flags' s1
      = Ret (Some e) s1.
Proof.
  intros path' Hne Hsep Hx Hr Hscan Hfl Hmem Hfollow Hfollow'.
  destruct (automake_spec E me root x r flags path' s Hx Hr Hmem)
    as (s1 & Hrun & Hents & Hinos & _ & _).
  set (e := fresh (dom (entries s))) in *.
  set (ino := fresh (dom (inodes s))) in *.
  assert (Hroot : ino ≠ root) by (apply (fresh_ne _ _ _ Hx)).
  assert (Hy : entries s1 !! e = Some (mk_entry (Some root) (until_sep path') (Some ino)))
    by (rewrite Hents; apply lookup_insert_eq).
  assert (Hxi : ∃ xi, inodes s1 !! ino = Some xi
                      ∧ S_ISLNK (st_mode (i_st xi)) = false).
  { eexists. split.
    - rewrite Hinos, lookup_insert_ne by congruence. apply lookup_insert_eq.
    - apply automake_mode_not_link. }
  destruct Hxi as (xi & Hxi & Hlnk).
  exists e, (mk_entry (Some root) (until_sep path') (Some ino)), s1.
  split; [|split; [apply lookup_fresh|split; [exact Hy|split;
    [apply (no_sep_until _ Hsep)|split; [reflexivity|]]]]].
  - destruct (skip_seps_length _ Hne) as [n Hn].
    cbn [vfs_s_find_entry_tree]. rewrite Hn.
    cbn [find_entry_tree_loop]. fold path'.
    rewrite (is_empty_false _ Hne). msimpl. mrew Hx.
    rewrite (scan_subdir_none _ _ _ Hscan). msimpl.
    apply Z.eqb_neq in Hfl. rewrite Hfl. msimpl.
    unfold bind in Hrun. rewrite Hrun. msimpl.
    rewrite (no_sep_advance _ Hsep). cbn [has_sep].
    assert (Hrs : vfs_s_resolve_symlink E (S fuel) me (Some e) follow s1
                  = Ret (Some e) s1).
    { cbn [vfs_s_resolve_symlink].
      destruct (follow =? LINK_NO_FOLLOW); [reflexivity|].
      apply Z.eqb_neq in Hfollow. rewrite Hfollow.
      msimpl. mrew Hy. msimpl. mrew Hxi. rewrite Hlnk. reflexivity. }
    cbn [vfs_s_resolve_symlink] in Hrs. cbn [vfs_s_resolve_symlink].
    rewrite Hrs. msimpl. mrew Hy. reflexivity.
  - apply (tree_walk_one_segment E fuel' me root
             (set_i_subdir (i_subdir x ++ [e]) x) a_path e
             (mk_entry (Some root) (until_sep path') (Some ino)) ino xi);
      try assumption; try reflexivity.
    + rewrite Hinos. apply lookup_insert_eq.
    + apply (scan_subdir_appended _ _ _ _ s s1 Hscan Hy); [reflexivity|].
      intros e' He'. rewrite Hents. now rewrite lookup_insert_ne by congruence.
Qed.

Lemma mkdir_then_lookup_witness :
  ∃ (e : entry_id) (y : vfs_s_entry) (s1 : state),
    vfs_s_find_entry_tree sample_env 2 tree_class (Some 1%positive) "new" 1
      (FL_MKDIR sample_env) tree_state = Ret (Some e) s1
    ∧ entries tree_state !! e = None
    ∧ entries s1 !! e = Some y
    ∧ e_name y = "new"
    ∧ e_dir y = Some 1%positive
    ∧ vfs_s_find_entry_tree sample_env 2 tree_class (Some 1%positive) "new" 1 0 s1
      = Ret (Some e) s1.
Proof.
  assert (Hx : ∃ x r, inodes tree_state !! 1%positive = Some x
                      ∧ supers_heap tree_state !! i_super x = Some r
                      ∧ i_subdir x = [1; 3; 4]%positive).
  { eexists _, _. split; [vm_compute; reflexivity|].
    split; vm_compute; reflexivity. }
  destruct Hx as (x & r & Hx & Hr & Hsub).
  apply (mkdir_then_lookup sample_env 0 0 tree_class 1%positive x r "new" 1 1
           (FL_MKDIR sample_env) 0 tree_state); try assumption;
    try (vm_compute; (reflexivity || discriminate || lia)).
  rewrite Hsub. repeat constructor;
    (eexists; split; [vm_compute; reflexivity | vm_compute; discriminate]).
Defined.

(** ** Full paths inside an archive *)

Lemma str_app_assoc (a b c : string) : ((a ++ b) ++ c = a ++ (b ++ c))%string.
Proof.
  induction a as [|ch a IH]; [reflexivity|].
  change (String ch ((a ++ b) ++ c) = String ch (a ++ (b ++ c)))%string.
  now rewrite IH.
Qed.

(** The text handed to the loop of [vfs_s_fullpath] stays at the end of
    the result, whatever is put before it. *)
Lemma fullpath_archive_suffix (fuel : nat) (ino : inode_id) (path p q : string)
    (s s' : state) :
  fullpath_archive fuel ino path s = Ret p s' →
  fullpath_archive fuel ino (path ++ q) s = Ret (p ++ q)%string s'.
Proof.
  revert ino path s. induction fuel as [|fuel IH]; intros ino path s H; [discriminate|].
  cbn [fullpath_archive] in *.
  apply bind_inv in H as (x & s1 & Hx & H). rewrite (bind_Ret _ _ _ _ _ Hx).
  apply bind_inv in H as (e & s2 & He & H). rewrite (bind_Ret _ _ _ _ _ He).
  apply bind_inv in H as (y & s3 & Hy & H). rewrite (bind_Ret _ _ _ _ _ Hy).
  apply bind_inv in H as (dir & s4 & Hdir & H). rewrite (bind_Ret _ _ _ _ _ Hdir).
  apply bind_inv in H as (xd & s5 & Hxd & H). rewrite (bind_Ret _ _ _ _ _ Hxd).
  apply bind_inv in H as (r & s6 & Hr & H). rewrite (bind_Ret _ _ _ _ _ Hr).
  destruct (bool_decide (s_root r = Some dir)).
  - cbn in H. injection H as <- <-. reflexivity.
  - apply bind_inv in H as (ed & s7 & Hed & H). rewrite (bind_Ret _ _ _ _ _ Hed).
    apply bind_inv in H as (yd & s8 & Hyd & H). rewrite (bind_Ret _ _ _ _ _ Hyd).
    apply IH in H. rewrite !str_app_assoc in H. exact H.
Qed.

(** X24 (vfs_s_fullpath): in an archive the full path of an inode whose
    entry is in the root directory is the entry's name, without a leading
    separator; the full path of an inode in any other directory is the
    full path of that directory, a slash and the entry's name.  The
    state it ends in is the one the computation for the directory ends
    in. *)
Theorem fullpath_composes (E : environment) (fuel : nat) (me : vfs_class)
    (ino dir : inode_id) (x xd : vfs_s_inode) (e : entry_id) (y : vfs_s_entry)
    (r : vfs_s_super) (s : state) :
  Z.land (sub_flags (MEDATA me)) (VFS_S_REMOTE E) = 0 →
  inodes s !! ino = Some x →
  i_ent x = Some e →
  entries s !! e = Some y →
  e_dir y = Some dir →
  inodes s !! dir = Some xd →
  supers_heap s !! i_super xd = Some r →
  (s_root r = Some dir →
     vfs_s_fullpath E (S fuel) me ino s = Ret (Some (e_name y)) s)
  ∧ (s_root r ≠ Some dir →
     ∀ (p : string) (s' : state),
       vfs_s_fullpath E fuel me dir s = Ret (Some p) s' →
       vfs_s_fullpath E (S fuel) me ino s
       = Ret (Some (p ++ "/" ++ e_name y)%string) s').
Proof.
  intros Harch Hx He Hy Hdir Hxd Hr.
  apply Z.eqb_eq in Harch.
  split.
  - intros Hroot. unfold vfs_s_fullpath. msimpl. mrew Hx. rewrite He.
    msimpl. mrew Hy. rewrite Harch. cbn [fullpath_archive].
    msimpl. mrew Hx. rewrite He. msimpl. mrew Hy. rewrite Hdir. msimpl.
    mrew Hxd. mrew Hr. rewrite (bool_decide_eq_true_2 _ Hroot). reflexivity.
  - intros Hroot p s' Hp.
    unfold vfs_s_fullpath in Hp.
    apply bind_inv in Hp as (xd' & s1 & Hxd' & Hp).
    assert (xd' = xd ∧ s1 = s) as [-> ->].
    { revert Hxd'. unfold get_inode, bind, get_state, deref. cbn. rewrite Hxd.
      cbn. intros [= <- <-]. auto. }
    destruct (i_ent xd) as [ed|] eqn:Hed; [|discriminate].
    apply bind_inv in Hp as (yd & s1 & Hyd' & Hp).
    assert (entries s !! ed = Some yd ∧ s1 = s) as [Hyd ->].
    { revert Hyd'. unfold get_entry, bind, get_state, deref. cbn.
      destruct (entries s !! ed); cbn; [|discriminate]. intros [= <- <-]. auto. }
    rewrite Harch in Hp.
    apply bind_inv in Hp as (p' & s1 & Hp' & Hp).
    cbn in Hp. injection Hp as <- <-.
    unfold vfs_s_fullpath. msimpl. mrew Hx. rewrite He.
    msimpl. mrew Hy. rewrite Harch. cbn [fullpath_archive].
    msimpl. mrew Hx. rewrite He. msimpl. mrew Hy. rewrite Hdir. msimpl.
    mrew Hxd. mrew Hr. rewrite (bool_decide_eq_false_2 _ Hroot).
    rewrite Hed. msimpl. mrew Hyd.
    apply (fullpath_archive_suffix _ _ _ _ ("/" ++ e_name y)) in Hp'.
    unfold bind. rewrite Hp'. reflexivity.
Qed.

Lemma fullpath_composes_witness :
  vfs_s_fullpath sample_env 2 tree_class 3%positive tree_state
  = Ret (Some "a/b") tree_state.
Proof.
  assert (H : ∃ x xd y r,
             inodes tree_state !! 3%positive = Some x
             ∧ i_ent x = Some 2%positive
             ∧ entries tree_state !! 2%positive = Some y
             ∧ e_dir y = Some 2%positive
             ∧ inodes tree_state !! 2%positive = Some xd
             ∧ supers_heap tree_state !! i_super xd = Some r
             ∧ s_root r ≠ Some 2%positive
             ∧ e_name y = "b").
  { eexists _, _, _, _. repeat split; try (vm_compute; reflexivity).
    vm_compute. discriminate. }
  destruct H as (x & xd & y & r & Hx & He & Hy & Hdir & Hxd & Hr & Hroot & Hname).
  pose proof (proj2 (fullpath_composes sample_env 1 tree_class 3%positive 2%positive
                       x xd 2%positive y r tree_state ltac:(vm_compute; reflexivity)
                       Hx He Hy Hdir Hxd Hr) Hroot "a" tree_state
                ltac:(vm_compute; reflexivity)) as H.
  rewrite Hname in H. exact H.
Defined.

(** ** Splitting a path at its last separator *)

Lemma split_last_sep_spec (path : string) :
  match split_last_sep path with
  | Some (dir, name) =>
      path = (dir ++ String PATH_SEP name)%string ∧ has_sep name = false
  | None => has_sep path = false
  end.
Proof.
  induction path as [|c path IH]; [reflexivity|].
  cbn [split_last_sep has_sep].
  destruct (split_last_sep path) as [[d n]|].
  - destruct IH as [-> Hn]. split; [reflexivity | exact Hn].
  - rewrite IH, orb_false_r. destruct (is_sep c) eqn:Hc; [|reflexivity].
    apply Ascii.eqb_eq in Hc. subst c. split; [reflexivity | exact IH].
Qed.

(** X25 (split_dir_name): the name part never holds a separator; a path
    with a separator is the directory part, one separator and the name
    part, so the cut is at the last separator; a path without one is all
    name, with an empty directory part. *)
Theorem split_dir_name_rejoins (path : string) :
  has_sep (split_dir_name path).2 = false
  ∧ (if has_sep path
     then path = ((split_dir_name path).1 ++ "/" ++ (split_dir_name path).2)%string
     else split_dir_name path = (EmptyString, path)).
Proof.
  unfold split_dir_name.
  pose proof (split_last_sep_spec path) as H.
  destruct (split_last_sep path) as [[d n]|]; cbn [fst snd].
  - destruct H as [Hp Hn]. split; [exact Hn|].
    assert (Hsep : has_sep path = true).
    { rewrite Hp. clear. induction d as [|c d IH].
      - reflexivity.
      - change (has_sep (String c (d ++ String PATH_SEP n)) = true).
        cbn [has_sep]. rewrite IH. apply orb_true_r. }
    rewrite Hsep. exact Hp.
  - split; [exact H|]. now rewrite H.
Qed.

(** ** Local copies *)



(** ** Creating an entry, then freeing it *)

Lemma automake_totals E me root x r flags path s :
  inodes s !! root = Some x →
  supers_heap s !! i_super x = Some r →
  g_try_new0_ok E s = true →
  ∃ s1, vfs_s_automake E me root path flags s = Ret (fresh (dom (entries s))) s1
    ∧ total_inodes s1 = wrap_int (total_inodes s + 1)
    ∧ total_entries s1 = wrap_int (total_entries s + 1)
    ∧ inode_counter s1 = wrap_u64 (inode_counter s + 1)
    ∧ supers s1 = supers s.
Proof.
  intros Hx Hr Hmem.
  unfold vfs_s_automake, vfs_s_generate_entry, vfs_s_default_stat,
    vfs_s_new_inode, vfs_s_new_entry, vfs_s_insert_entry.
  msimpl. mrew Hx. mrew Hmem. mrew Hr.
  mlookup. mrew Hx.
  eexists. split; [reflexivity|]. msimpl.
  repeat split.
Qed.

Lemma g_list_remove_last (e : positive) (l : list positive) :
  e ∉ l → g_list_remove e (l ++ [e]) = l.
Proof.
  induction l as [|a l IH]; intros Hn; cbn.
  - now rewrite Pos.eqb_refl.
  - destruct (Pos.eqb_spec a e) as [->|Hne].
    + exfalso. apply Hn. apply list_elem_of_here.
    + f_equal. apply IH. intros Hin. apply Hn. now apply list_elem_of_further.
Qed.

(** X27 (vfs_s_automake, vfs_s_free_entry): freeing an entry that
    [vfs_s_automake] has just made undoes the creation.  The inodes, the
    entries, the superblocks with their inode counts, the list of
    superblocks and both totals are as before the creation; only the
    counter of inode numbers stays advanced, so the number is not handed
    out again. *)
Theorem automake_then_free (E : environment) (fuel : nat) (me : vfs_class)
    (root : inode_id) (x : vfs_s_inode) (r : vfs_s_super) (flags : Z)
    (path : string) (s : state) :
  inodes s !! root = Some x →
  supers_heap s !! i_super x = Some r →
  g_try_new0_ok E s = true →
  Forall (λ e, is_Some (entries s !! e)) (i_subdir x) →
  - 2 ^ 31 ≤ s_ino_usage r < 2 ^ 31 →
  - 2 ^ 31 ≤ total_inodes s < 2 ^ 31 →
  - 2 ^ 31 ≤ total_entries s < 2 ^ 31 →
  ∃ (e : entry_id) (s1 s2 : state),
    vfs_s_automake E me root path flags s = Ret e s1
    ∧ vfs_s_free_entry (S (S (S fuel))) me e s1 = Ret tt s2
    ∧ inodes s2 = inodes s
    ∧ entries s2 = entries s
    ∧ supers_heap s2 = supers_heap s
    ∧ supers s2 = supers s
    ∧ total_inodes s2 = total_inodes s
    ∧ total_entries s2 = total_entries s
    ∧ inode_counter s2 = wrap_u64 (inode_counter s + 1).
Proof.
  intros Hx Hr Hmem Hlive Hiu Hti Hte.
  destruct (automake_spec E me root x r flags path s Hx Hr Hmem)
    as (s1 & Hrun & Hents & Hinos & Hsup & _).
  destruct (automake_totals E me root x r flags path s Hx Hr Hmem)
    as (s1' & Hrun' & Htot_i & Htot_e & Hctr & Hsupers).
  rewrite Hrun in Hrun'. injection Hrun' as <-.
  set (e := fresh (dom (entries s))) in *.
  set (ino := fresh (dom (inodes s))) in *.
  match type of Hinos with
  | context [<[ino := ?v]>] => set (xi := v) in *
  end.
  set (xd := set_i_subdir (i_subdir x ++ [e]) x) in *.
  set (y := mk_entry (Some root) (until_sep path) (Some ino)) in *.
  set (r1 := set_s_ino_usage (wrap_int (s_ino_usage r + 1)) r) in *.
  assert (Hroot : ino ≠ root) by (apply (fresh_ne _ _ _ Hx)).
  assert (Hnew : e ∉ i_subdir x).
  { intros Hin. rewrite Forall_forall in Hlive. destruct (Hlive e Hin) as [y' Hy'].
    subst e. rewrite lookup_fresh in Hy'. discriminate. }
  assert (Hy : entries s1 !! e = Some y) by (rewrite Hents; apply lookup_insert_eq).
  assert (Hxd : inodes s1 !! root = Some xd) by (rewrite Hinos; apply lookup_insert_eq).
  assert (Hxi : inodes s1 !! ino = Some xi).
  { rewrite Hinos, lookup_insert_ne by congruence. apply lookup_insert_eq. }
  assert (Hback : set_i_subdir (g_list_remove e (i_subdir xd)) xd = x).
  { subst xd. cbn [i_subdir set_i_subdir]. rewrite (g_list_remove_last _ _ Hnew).
    destruct x; reflexivity. }
  rewrite <- Hback in Hx.
  set (sA := upd_inodes (insert ino (set_i_ent None xi))
               (upd_inodes
                  (insert root (set_i_subdir (g_list_remove e (i_subdir xd)) xd)) s1)).
  assert (HxA : inodes sA !! ino = Some (set_i_ent None xi))
    by (subst sA; mproj; apply lookup_insert_eq).
  assert (HrA : supers_heap sA !! i_super (set_i_ent None xi) = Some r1).
  { subst sA. mproj. rewrite Hsup. apply lookup_insert_eq. }
  assert (Hsub : free_subdir (S fuel) me ino sA = Ret tt sA).
  { cbn [free_subdir]. rewrite (bind_Ret _ _ _ _ _ (get_inode_Some _ _ _ HxA)).
    reflexivity. }
  pose proof (free_inode_last me (S fuel) ino (set_i_ent None xi) sA sA r1 HxA
                ltac:(cbn; lia) Hsub HxA HrA) as Hfree.
  pose proof (free_entry_step me (S (S fuel)) e y root ino xd xi s1 _
                Hy eq_refl eq_refl Hxd Hxi Hroot Hfree) as Hgone.
  eexists e, s1, _. split; [exact Hrun|]. split; [exact Hgone|].
  subst sA. mproj. rewrite Hback in *.
  split; [|split; [|split; [|split; [exact Hsupers|split; [|split; [|exact Hctr]]]]]].
  - rewrite Hinos. apply map_eq. intros i.
    destruct (decide (i = ino)) as [->|Hi].
    + rewrite lookup_delete_eq. symmetry. apply lookup_fresh.
    + rewrite lookup_delete_ne, lookup_insert_ne by congruence.
      destruct (decide (i = root)) as [->|Hi'].
      * rewrite lookup_insert_eq. symmetry. exact Hx.
      * now rewrite !lookup_insert_ne by congruence.
  - rewrite Hents. apply delete_insert_id. apply lookup_fresh.
  - rewrite Hsup, insert_insert_eq. change (i_super (set_i_ent None xi)) with (i_super x).
    subst r1. cbn [s_ino_usage set_s_ino_usage]. rewrite (wrap_int_succ_pred _ Hiu).
    replace (set_s_ino_usage (s_ino_usage r) (set_s_ino_usage _ r)) with r
      by (destruct r; reflexivity).
    now apply insert_id.
  - rewrite Htot_i. now apply wrap_int_succ_pred.
  - rewrite Htot_e. now apply wrap_int_succ_pred.
Qed.

Lemma automake_then_free_witness :
  ∃ (e : entry_id) (s1 s2 : state),
    vfs_s_automake sample_env tree_class 1%positive "new" (FL_MKDIR sample_env)
      tree_state = Ret e s1
    ∧ vfs_s_free_entry 3 tree_class e s1 = Ret tt s2
    ∧ inodes s2 = inodes tree_state
    ∧ entries s2 = entries tree_state
    ∧ supers_heap s2 = supers_heap tree_state
    ∧ supers s2 = supers tree_state
    ∧ total_inodes s2 = total_inodes tree_state
    ∧ total_entries s2 = total_entries tree_state
    ∧ inode_counter s2 = wrap_u64 (inode_counter tree_state + 1).
Proof.
  assert (Hx : ∃ x r, inodes tree_state !! 1%positive = Some x
                      ∧ supers_heap tree_state !! i_super x = Some r
                      ∧ i_subdir x = [1; 3; 4]%positive
                      ∧ s_ino_usage r = 5).
  { eexists _, _. split; [vm_compute; reflexivity|].
    repeat split; vm_compute; reflexivity. }
  destruct Hx as (x & r & Hx & Hr & Hsub & Hiu).
  apply (automake_then_free sample_env 0 tree_class 1%positive x r
           (FL_MKDIR sample_env) "new" tree_state Hx Hr).
  - vm_compute. reflexivity.
  - rewrite Hsub. repeat constructor; eexists; vm_compute; reflexivity.
  - rewrite Hiu. lia.
  - vm_compute. split; congruence.
  - vm_compute. split; congruence.
Defined.

(** ** [stat] and [lstat] *)

Section Follow.
Variable E : environment.

(** A walk that ends, without following the last entry, at an entry that
    is no symbolic link ends there with any other budget of links too. *)
Lemma loop_follow_irrelevant (rs : option entry_id → Z → M (option entry_id)) me :
  (∀ e s r s', rs e LINK_NO_FOLLOW s = Ret r s' → r = e ∧ s' = s) →
  (∀ e b s y i x,
     (∃ r s', rs (Some e) LINK_NO_FOLLOW s = Ret r s') →
     b ≠ 0 →
     entries s !! e = Some y → e_ino y = Some i → inodes s !! i = Some x →
     S_ISLNK (st_mode (i_st x)) = false →
     rs (Some e) b s = Ret (Some e) s) →
  ∀ rounds root path ent flags b s e' s' y i x,
    b ≠ 0 →
    find_entry_tree_loop E rs me rounds root path ent LINK_NO_FOLLOW flags s
      = Ret (Some e') s' →
    entries s' !! e' = Some y → e_ino y = Some i → inodes s' !! i = Some x →
    S_ISLNK (st_mode (i_st x)) = false →
    find_entry_tree_loop E rs me rounds root path ent b flags s = Ret (Some e') s'.
Proof.
  intros Hnf Hplain. induction rounds as [|rounds IH];
    intros root path ent flags b s e' s' y i x Hb H Hy Hi Hx Hlnk; [discriminate|].
  cbn [find_entry_tree_loop] in *.
  destruct root as [root|]; [|exact H].
  set (path' := skip_seps path) in *.
  destruct (is_empty path'); [exact H|].
  apply bind_inv in H as (x0 & s0 & Hx0 & H). rewrite (bind_Ret _ _ _ _ _ Hx0).
  apply bind_inv in H as (o1 & s1 & Hscan & H). rewrite (bind_Ret _ _ _ _ _ Hscan).
  apply bind_inv in H as (o2 & s2 & Hmk & H). rewrite (bind_Ret _ _ _ _ _ Hmk).
  destruct o2 as [e|]; [|discriminate].
  set (rest := advance (segment_length path') path') in *.
  destruct (has_sep rest) eqn:Hsep.
  - apply bind_inv in H as (o3 & s3 & Hrs & H). rewrite (bind_Ret _ _ _ _ _ Hrs).
    destruct o3 as [e3|]; [|discriminate].
    apply bind_inv in H as (y3 & s4 & Hy3 & H). rewrite (bind_Ret _ _ _ _ _ Hy3).
    apply (IH _ _ _ _ _ _ _ _ y i x Hb H Hy Hi Hx Hlnk).
  - apply has_sep_advance in Hsep. fold rest in Hsep.
    apply bind_inv in H as (o3 & s3 & Hrs & H).
    pose proof Hrs as Hrs'. apply Hnf in Hrs' as [-> ->].
    apply bind_inv in H as (y3 & s4 & Hy3 & H).
    unfold get_entry, deref in Hy3.
    destruct (entries s2 !! e) as [y'|] eqn:Hlook; [|discriminate].
    injection Hy3 as Hy3 Hs4. subst y3 s4.
    rewrite Hsep in H. destruct rounds as [|rounds]; [discriminate|].
    cbn [find_entry_tree_loop] in H.
    destruct (e_ino y') as [i3|] eqn:Hi3; [|discriminate].
    cbn in H. injection H as He Hs. subst e' s'.
    assert (y' = y) by congruence. subst y'.
    rewrite (bind_Ret _ _ _ _ _
               (Hplain e b s2 y i x (ex_intro _ _ (ex_intro _ _ Hrs)) Hb Hlook Hi Hx Hlnk)).
    rewrite (bind_Ret _ _ _ _ _ (get_entry_Some _ _ _ Hlook)).
    rewrite Hsep, Hi. reflexivity.
Qed.

Lemma resolve_plain fuel me e b s y i x :
  (∃ r s', vfs_s_resolve_symlink E fuel me (Some e) LINK_NO_FOLLOW s = Ret r s') →
  b ≠ 0 →
  entries s !! e = Some y → e_ino y = Some i → inodes s !! i = Some x →
  S_ISLNK (st_mode (i_st x)) = false →
  vfs_s_resolve_symlink E fuel me (Some e) b s = Ret (Some e) s.
Proof.
  intros (r & s' & Hrun) Hb Hy Hi Hx Hlnk.
  destruct fuel as [|fuel]; [discriminate|]. cbn [vfs_s_resolve_symlink].
  destruct (b =? LINK_NO_FOLLOW); [reflexivity|].
  apply Z.eqb_neq in Hb. rewrite Hb.
  msimpl. mrew Hy. rewrite Hi. msimpl. mrew Hx. rewrite Hlnk. reflexivity.
Qed.

Lemma find_inode_follow_irrelevant fuel me super path flags b s i s' x :
  find_entry (MEDATA me) = Some Find_entry_tree →
  b ≠ 0 →
  vfs_s_find_inode E fuel me super path LINK_NO_FOLLOW flags s = Ret (Some i) s' →
  inodes s' !! i = Some x →
  S_ISLNK (st_mode (i_st x)) = false →
  vfs_s_find_inode E fuel me super path b flags s = Ret (Some i) s'.
Proof.
  intros Htree Hb H Hx Hlnk.
  destruct fuel as [|fuel]; [discriminate|]. cbn [vfs_s_find_inode] in *.
  apply bind_inv in H as (r & s0 & Hr & H). rewrite (bind_Ret _ _ _ _ _ Hr).
  match type of H with (if ?c then _ else _) _ = _ => destruct c end; [exact H|].
  rewrite Htree in *.
  apply bind_inv in H as (o & s1 & Hfind & H).
  destruct o as [e|]; [|discriminate].
  apply bind_inv in H as (y & s2 & Hy & H). cbn in H. injection H as Hi <-.
  unfold get_entry, deref in Hy.
  destruct (entries s1 !! e) as [y'|] eqn:Hlook; [|discriminate].
  injection Hy as -> ->.
  destruct fuel as [|fuel]; [discriminate|]. cbn [vfs_s_find_entry_tree] in *.
  rewrite (bind_Ret _ _ _ _ _
             (loop_follow_irrelevant (vfs_s_resolve_symlink E fuel me) me
                (resolve_no_follow E fuel me) (resolve_plain fuel me)
                _ _ _ _ _ b _ _ _ y i x Hb Hfind Hlook Hi Hx Hlnk)).
  rewrite (bind_Ret _ _ _ _ _ (get_entry_Some _ _ _ Hlook)).
  rewrite Hi. reflexivity.
Qed.

(** With an empty path nothing is walked, so the budget of links is not
    looked at. *)
Lemma find_inode_empty fuel me super flags b b' :
  find_entry (MEDATA me) = Some Find_entry_tree →
  custom_canonicalize_pathname E EmptyString = EmptyString →
  vfs_s_find_inode E fuel me super EmptyString b flags
  = vfs_s_find_inode E fuel me super EmptyString b' flags.
Proof.
  intros Htree Hcanon.
  destruct fuel as [|fuel]; [reflexivity|]. cbn [vfs_s_find_inode].
  rewrite Htree. destruct fuel as [|fuel]; [reflexivity|].
  cbn [vfs_s_find_entry_tree]. rewrite Hcanon. reflexivity.
Qed.

End Follow.

Lemma inode_from_path_follow (E : environment) fuel me path s i s' x :
  find_entry (MEDATA me) = Some Find_entry_tree →
  custom_canonicalize_pathname E EmptyString = EmptyString →
  FL_NONE E = 0 →
  FL_FOLLOW E ≠ 0 →
  LINK_FOLLOW E ≠ 0 →
  vfs_s_inode_from_path E fuel me path (FL_NONE E) s = Ret (Some i) s' →
  inodes s' !! i = Some x →
  S_ISLNK (st_mode (i_st x)) = false →
  vfs_s_inode_from_path E fuel me path (FL_FOLLOW E) s = Ret (Some i) s'.
Proof.
  intros Htree Hcanon Hnone Hfollow Hlink H Hx Hlnk.
  unfold vfs_s_inode_from_path in *.
  apply bind_inv in H as (q0 & s0 & Hpath & H). rewrite (bind_Ret _ _ _ _ _ Hpath).
  destruct q0 as [[q super]|]; [|discriminate].
  rewrite Hnone, !Z.land_0_l in H. change (negb (0 =? 0)) with false in H.
  rewrite Z.land_diag, Z.land_lnot_diag.
  apply Z.eqb_neq in Hfollow. rewrite Hfollow. change (negb false) with true.
  cbv iota in *. apply Z.eqb_neq in Hfollow.
  destruct (is_empty q) eqn:Hq.
  - apply is_empty_true in Hq. subst q.
    rewrite !(find_inode_empty E fuel me super _ (LINK_FOLLOW E) LINK_NO_FOLLOW
                Htree Hcanon).
    exact H.
  - apply bind_inv in H as (o & s1 & Hfind & H).
    destruct o as [i0|]; [|discriminate].
    cbn in H. injection H as Hi Hs. subst i0 s1.
    rewrite (bind_Ret _ _ _ _ _
               (find_inode_follow_irrelevant E fuel me super q 0 (LINK_FOLLOW E)
                  s0 i s' x Htree Hlink Hfind Hx Hlnk)).
    reflexivity.
Qed.

(** X28 (vfs_s_stat, vfs_s_lstat, vfs_s_internal_stat,
    vfs_s_inode_from_path): for a class that resolves paths over the
    cache tree, when [vfs_s_lstat] succeeds and the file it reports is no
    symbolic link, [vfs_s_stat] on the same path returns the same record
    and ends in the same state. *)
Theorem stat_agrees_with_lstat (E : environment) (fuel : nat) (me : vfs_class)
    (path : string) (s s1 : state) (st : stat) :
  find_entry (MEDATA me) = Some Find_entry_tree →
  custom_canonicalize_pathname E EmptyString = EmptyString →
  FL_NONE E = 0 →
  FL_FOLLOW E ≠ 0 →
  LINK_FOLLOW E ≠ 0 →
  vfs_s_lstat E fuel me path s = Ret (0, Some st) s1 →
  S_ISLNK (st_mode st) = false →
  vfs_s_stat E fuel me path s = Ret (0, Some st) s1.
Proof.
  intros Htree Hcanon Hnone Hfollow Hlink H Hlnk.
  unfold vfs_s_lstat, vfs_s_stat, vfs_s_internal_stat in *.
  apply bind_inv in H as (o & s0 & Hfrom & H).
  destruct o as [i|]; [|discriminate].
  apply bind_inv in H as (x & s2 & Hx & H).
  cbn in H. injection H as Hst Hs. subst st s2.
  assert (Hx' : inodes s0 !! i = Some x ∧ s1 = s0).
  { revert Hx. unfold get_inode, bind, get_state, deref. cbn.
    destruct (inodes s0 !! i); cbn; [|discriminate]. intros [= <- <-]. auto. }
  destruct Hx' as [Hx' ->].
  rewrite (bind_Ret _ _ _ _ _
             (inode_from_path_follow E fuel me path s i s0 x Htree Hcanon Hnone
                Hfollow Hlink Hfrom Hx' Hlnk)).
  rewrite (bind_Ret _ _ _ _ _ Hx). reflexivity.
Qed.

Lemma stat_agrees_with_lstat_witness :
  vfs_s_stat sample_env 9 tree_class "a/b" tree_state
  = Ret (0, Some (reg_st 1)) tree_state.
Proof.
  apply (stat_agrees_with_lstat sample_env 9 tree_class "a/b" tree_state tree_state
           (reg_st 1));
    first [vm_compute; reflexivity | vm_compute; discriminate].
Defined.

(** ** Creating an entry without memory *)

(** X29 (vfs_s_new_inode, vfs_s_new_entry, vfs_s_generate_entry,
    vfs_s_automake, vfs_s_find_entry_tree): when [g_try_new0] finds no
    memory, [vfs_s_new_inode] returns null and changes nothing, but
    [vfs_s_generate_entry] hands that null to [vfs_s_new_entry], which
    writes [entry->ino->ent] through it.  So [vfs_s_automake], and with it
    a lookup with [FL_MKDIR] or [FL_MKFILE] of a name the directory does
    not have, reads through a null pointer instead of failing. *)
Theorem mkdir_without_memory (E : environment) (fuel : nat) (me : vfs_class)
    (root : inode_id) (x : vfs_s_inode) (a_path : string) (follow flags : Z)
    (s : state) :
  let path' := skip_seps (custom_canonicalize_pathname E a_path) in
  path' ≠ EmptyString →
  inodes s !! root = Some x →
  Forall (λ e, ∃ y, entries s !! e = Some y ∧ e_name y ≠ until_sep path')
    (i_subdir x) →
  Z.land flags (Z.lor (FL_MKFILE E) (FL_MKDIR E)) ≠ 0 →
  g_try_new0_ok E s = false →
  (∀ initstat, vfs_s_new_inode E me (i_super x) initstat s = Ret None s)
  ∧ (∀ name mode, vfs_s_generate_entry E me name root mode s = Fault)
  ∧ vfs_s_automake E me root path' flags s = Fault
  ∧ vfs_s_find_entry_tree E (S fuel) me (Some root) a_path follow flags s = Fault.
Proof.
  intros path' Hne Hx Hscan Hfl Hmem.
  assert (Hnew : ∀ initstat,
             vfs_s_new_inode E me (i_super x) initstat s = Ret None s).
  { intros initstat. unfold vfs_s_new_inode. msimpl. now rewrite Hmem. }
  assert (Hgen : ∀ name mode, vfs_s_generate_entry E me name root mode s = Fault).
  { intros name mode. unfold vfs_s_generate_entry, vfs_s_default_stat.
    msimpl. mrew Hx.
    unfold vfs_s_new_inode, vfs_s_new_entry. msimpl. rewrite Hmem. msimpl.
    reflexivity. }
  assert (Hauto : vfs_s_automake E me root path' flags s = Fault).
  { unfold vfs_s_automake. unfold bind at 1. now rewrite Hgen. }
  split; [exact Hnew|]. split; [exact Hgen|]. split; [exact Hauto|].
  cbn [vfs_s_find_entry_tree find_entry_tree_loop]. fold path'.
  rewrite (is_empty_false _ Hne). msimpl. mrew Hx.
  rewrite (scan_subdir_none _ _ _ Hscan). msimpl.
  apply Z.eqb_neq in Hfl. rewrite Hfl. msimpl.
  unfold bind in Hauto. rewrite Hauto. reflexivity.
Qed.

Lemma mkdir_without_memory_witness :
  let E := {| FL_NONE := 0; FL_FOLLOW := 1; FL_MKDIR := 2; FL_MKFILE := 4;
              FL_DIR := 8; FL_NO_OPEN := 1; LINK_FOLLOW := 15;
              VFS_S_REMOTE := 2; VFS_S_READONLY := 1;
              IS_LINEAR := λ a, a =? 1024;
              NO_LINEAR := λ a, if a =? 1024 then 0 else a;
              VFS_SETCTL_STALE_DATA := 1; VFS_SETCTL_LOGFILE := 2;
              VFS_SETCTL_FLUSH := 3;
              custom_canonicalize_pathname := sample_canonicalize;
              vfs_split := λ inname, (EmptyString, Some inname, None);
              vfs_mkstemps := λ _ _ _, None;
              host_open := λ _ _ _ _, (3, 0);
              host_write := λ _ _ count _, (count, 0);
              g_try_new0_ok := λ _, false;
              host_fopen := λ arg _, arg |} in
  vfs_s_find_entry_tree E 1 tree_class (Some 1%positive) "new" 1 2 tree_state
  = Fault.
Proof.
  intros E.
  assert (Hx : ∃ x, inodes tree_state !! 1%positive = Some x
                    ∧ i_subdir x = [1; 3; 4]%positive).
  { eexists. split; vm_compute; reflexivity. }
  destruct Hx as (x & Hx & Hsub).
  apply (mkdir_without_memory E 0 tree_class 1%positive x "new" 1 2 tree_state).
  - vm_compute. discriminate.
  - exact Hx.
  - rewrite Hsub. repeat constructor;
      (eexists; split; [vm_compute; reflexivity | vm_compute; discriminate]).
  - vm_compute. discriminate.
  - reflexivity.
Defined.
